(** * comfy-groq-tager: the subtitle extraction and merge pipeline

    A shallow embedding of [modules/smart_subtitle.py] and of the subtitle
    part of [modules/video_analysis.py] and [modules/audio_analysis.py],
    with the properties stated about them.

    Modelling conventions.
    - A Python [str] is the list of its Unicode code points ([list Z]), so
      that [len] is [length] and the Chinese literals of the source are
      the lists of their code points.
    - A Python [float] (timestamps, frame rate, similarity scores) is the
      rational [Q] it stands for.  The product [fps * interval_seconds]
      and the difference [m_time - a_time] are rounded to the nearest
      float, as the code computes them (module [Float]); the quotients
      (the timestamp [frame_count / fps], the ratios of the similarity)
      are kept exact.  [int(x)] truncates toward zero.
    - [set] and [dict] are stdpp's [gset] and [gmap].
    - Calls that can raise return an [outcome]. *)

From Stdlib Require Import String Ascii.
From Stdlib Require Import ZArith QArith Qabs Qminmax Qround Lia List Sorting.Sorted Permutation.
From stdpp Require Import base decidable option list countable gmap sorting.

Open Scope Z_scope.

(* ===================================================================== *)
(** * Python strings *)
(* ===================================================================== *)

Module PyStr.

Abbreviation str := (list Z).

(** Code points of an ASCII literal. *)
Fixpoint of_string (s : String.string) : str :=
  match s with
  | String.EmptyString => []
  | String.String c s' => Z.of_nat (Ascii.nat_of_ascii c) :: of_string s'
  end.

(** [len(s)] *)
Definition len (s : str) : Z := Z.of_nat (length s).

(** The code points for which [str.isspace()] holds. *)
Definition whitespace : list Z :=
  [9; 10; 11; 12; 13; 28; 29; 30; 31; 32; 133; 160; 5760;
   8192; 8193; 8194; 8195; 8196; 8197; 8198; 8199; 8200; 8201; 8202;
   8232; 8233; 8239; 8287; 12288].

Definition mem (c : Z) (chars : list Z) : bool := existsb (Z.eqb c) chars.

(** [s.lstrip(chars)] *)
Fixpoint lstrip (chars : list Z) (s : str) : str :=
  match s with
  | [] => []
  | c :: s' => if mem c chars then lstrip chars s' else s
  end.

(** [s.rstrip(chars)] *)
Definition rstrip (chars : list Z) (s : str) : str :=
  rev (lstrip chars (rev s)).

(** [s.strip(chars)] *)
Definition strip_chars (chars : list Z) (s : str) : str :=
  rstrip chars (lstrip chars s).

(** [s.strip()] *)
Definition strip (s : str) : str := strip_chars whitespace s.

(** [s.startswith(p)] *)
Fixpoint startswith (p s : str) : bool :=
  match p, s with
  | [], _ => true
  | _ :: _, [] => false
  | x :: p', y :: s' => (x =? y) && startswith p' s'
  end.

(** [sub in s] *)
Fixpoint contains (sub s : str) : bool :=
  startswith sub s ||
  match s with
  | [] => false
  | _ :: s' => contains sub s'
  end.

(** [s.replace(old, "")] for a non-empty [old]: the occurrences of [old]
    are removed left to right, without overlap.  The recursion removes at
    least one character per step, so [length s] steps are enough. *)
Fixpoint remove_all_fuel (fuel : nat) (old s : str) : str :=
  match fuel with
  | O => s
  | S fuel' =>
      match s with
      | [] => []
      | c :: s' =>
          if startswith old s
          then remove_all_fuel fuel' old (drop (length old) s)
          else c :: remove_all_fuel fuel' old s'
      end
  end.

Definition remove_all (old s : str) : str :=
  remove_all_fuel (length s) old s.

(** [s.find(sub)]: index of the first occurrence, if any; [s.index(sub)]
    raises [ValueError] where this is [None]. *)
Fixpoint find (sub s : str) : option nat :=
  if startswith sub s then Some O
  else match s with
       | [] => None
       | _ :: s' => S <$> find sub s'
       end.

(** [s.split(sep)] for a one-character separator. *)
Fixpoint split_on (sep : Z) (s : str) : list str :=
  match s with
  | [] => [[]]
  | c :: s' =>
      if c =? sep then [] :: split_on sep s'
      else match split_on sep s' with
           | [] => [[c]]
           | w :: ws => (c :: w) :: ws
           end
  end.

(** [sep.join(parts)] *)
Fixpoint join (sep : str) (parts : list str) : str :=
  match parts with
  | [] => []
  | [p] => p
  | p :: ps => p ++ sep ++ join sep ps
  end.

End PyStr.
Import PyStr.

(* ===================================================================== *)
(** * Floats as rationals *)
(* ===================================================================== *)

(** [x < y] on floats *)
Definition Qltb (x y : Q) : bool := negb (Qle_bool y x).

(** [int(x)]: truncation toward zero. *)
Definition py_int (x : Q) : Z := Z.quot (Qnum x) (Zpos (Qden x)).

(** [range(lo, hi)] *)
Definition py_range (lo hi : Z) : list Z :=
  map (fun n => lo + Z.of_nat n) (seq 0 (Z.to_nat (hi - lo))).

(* ===================================================================== *)
(** * The arithmetic of floats *)
(* ===================================================================== *)

(** A float is the rational it stands for.  The floats are those of
    IEEE 754 binary64: a mantissa of 53 bits, the subnormal numbers
    included.  The product and the difference of two floats are the
    exact ones rounded to the nearest float, a tie going to the float
    with the even mantissa.  No result is taken beyond the largest float:
    an overflow is outside the model. *)
Module Float.

(** [a / b] rounded to the nearest integer, a half going to the even one,
    for a positive [b]. *)
Definition round_div (a b : Z) : Z :=
  let q := a / b in
  let r := a mod b in
  if 2 * r <? b then q
  else if b <? 2 * r then q + 1
  else if Z.even q then q else q + 1.

(** The exponent of the last place of the floats next to [n / d], for
    positive [n] and [d]: [floor(log2(n / d)) - 52], and -1074 for the
    subnormal numbers. *)
Definition ulp_exponent (n d : Z) : Z :=
  let k := Z.log2 n - Z.log2 d in
  let l := if (if 0 <=? k then 2 ^ k * d <=? n else d <=? 2 ^ (- k) * n)
           then k else k - 1 in
  Z.max (-1074) (l - 52).

(** The float nearest to [n / d], for positive [n] and [d]. *)
Definition round_pos (n d : Z) : Q :=
  let e := ulp_exponent n d in
  if 0 <=? e then inject_Z (round_div n (d * 2 ^ e) * 2 ^ e)
  else round_div (n * 2 ^ (- e)) d # Z.to_pos (2 ^ (- e)).

(** The float nearest to a rational; it is the float that a decimal
    literal of the source stands for. *)
Definition round (q : Q) : Q :=
  match Qnum q with
  | 0 => 0%Q
  | Z.pos n => round_pos (Z.pos n) (Z.pos (Qden q))
  | Z.neg n => (- round_pos (Z.pos n) (Z.pos (Qden q)))%Q
  end.

(** The rationals that are floats. *)
Definition is_float (q : Q) : bool := Qeq_bool (round q) q.

(** [x * y] and [x - y] on floats.  On rationals that are not floats,
    which the code never holds, the operations are the exact ones. *)
Definition mul (x y : Q) : Q :=
  if is_float x && is_float y then round (x * y) else (x * y)%Q.

Definition sub (x y : Q) : Q :=
  if is_float x && is_float y then round (x - y) else (x - y)%Q.

End Float.

(* ===================================================================== *)
(** * difflib.SequenceMatcher *)
(* ===================================================================== *)

(** [similar] of [smart_subtitle.py] is
    [SequenceMatcher(None, a, b).ratio()].  The matcher is the one of
    CPython's [Lib/difflib.py], called with [isjunk = None] and
    [autojunk = True]: the junk set is empty, and the "popular" elements
    of a second sequence of 200 elements or more are purged from the
    index [b2j]. *)

Module Difflib.

(** [Match(a=i, b=j, size=k)] *)
Definition Match : Type := Z * Z * Z.

Definition msize (m : Match) : Z := snd m.

(** [s[i]] for an index in range. *)
Definition char_at (s : str) (i : Z) : option Z :=
  if 0 <=? i then s !! Z.to_nat i else None.

(** [a[i] == b[j]], both indices in range. *)
Definition same_char (a b : str) (i j : Z) : bool :=
  match char_at a i, char_at b j with
  | Some x, Some y => x =? y
  | _, _ => false
  end.

(** [enumerate(b)] *)
Definition enumerate (b : str) : list (Z * Z) :=
  zip (map Z.of_nat (seq 0 (length b))) b.

(** [__chain_b]: for each element of [b] the increasing list of the
    indices where it occurs, then without the popular elements. *)
Definition chain_b (b : str) : gmap Z (list Z) :=
  let b2j :=
    fold_left (fun (m : gmap Z (list Z)) '(i, elt) =>
                 <[elt := default [] (m !! elt) ++ [i]]> m)
              (enumerate b) ∅ in
  let n := len b in
  if 200 <=? n then
    let ntest := n / 100 + 1 in
    filter (fun p => ¬ (ntest < len (snd p))) b2j
  else b2j.

Section Matcher.

Variables a b : str.

Let b2j : gmap Z (list Z) := chain_b b.

(** The inner loop of [find_longest_match], over the indices [j] of
    [b2j.get(a[i], nothing)]: [continue] below [blo], [break] from [bhi]. *)
Fixpoint scan_row (js : list Z) (i blo bhi : Z)
    (j2len newj2len : gmap Z Z) (best : Match) : gmap Z Z * Match :=
  match js with
  | [] => (newj2len, best)
  | j :: js' =>
      if j <? blo then scan_row js' i blo bhi j2len newj2len best
      else if bhi <=? j then (newj2len, best)
      else
        let k := default 0 (j2len !! (j - 1)) + 1 in
        let best' := if msize best <? k then (i - k + 1, j - k + 1, k)
                     else best in
        scan_row js' i blo bhi j2len (<[j := k]> newj2len) best'
  end.

(** The outer loop, [for i in range(alo, ahi)]. *)
Fixpoint scan_rows (rows : list Z) (blo bhi : Z)
    (j2len : gmap Z Z) (best : Match) : Match :=
  match rows with
  | [] => best
  | i :: rows' =>
      let js := match char_at a i with
                | Some elt => default [] (b2j !! elt)
                | None => []
                end in
      let '(newj2len, best') := scan_row js i blo bhi j2len ∅ best in
      scan_rows rows' blo bhi newj2len best'
  end.

(** First [while]: extend the match to the left.  The loop stops at the
    latest when [besti] reaches [alo], so [besti - alo] steps are enough. *)
Fixpoint extend_left (fuel : nat) (alo blo : Z) (best : Match) : Match :=
  match fuel with
  | O => best
  | S fuel' =>
      let '(besti, bestj, bestsize) := best in
      if (alo <? besti) && (blo <? bestj)
         && same_char a b (besti - 1) (bestj - 1)
      then extend_left fuel' alo blo (besti - 1, bestj - 1, bestsize + 1)
      else best
  end.

(** Second [while]: extend the match to the right; it stops at the latest
    when [besti + bestsize] reaches [ahi]. *)
Fixpoint extend_right (fuel : nat) (ahi bhi : Z) (best : Match) : Match :=
  match fuel with
  | O => best
  | S fuel' =>
      let '(besti, bestj, bestsize) := best in
      if (besti + bestsize <? ahi) && (bestj + bestsize <? bhi)
         && same_char a b (besti + bestsize) (bestj + bestsize)
      then extend_right fuel' ahi bhi (besti, bestj, bestsize + 1)
      else best
  end.

(** [find_longest_match(alo, ahi, blo, bhi)].  The last two [while] loops
    of the source extend over junk elements only and never run, the junk
    set being empty. *)
Definition find_longest_match (alo ahi blo bhi : Z) : Match :=
  let best := scan_rows (py_range alo ahi) blo bhi ∅ (alo, blo, 0) in
  let best := extend_left (Z.to_nat (fst (fst best) - alo)) alo blo best in
  extend_right (Z.to_nat (ahi - (fst (fst best) + msize best))) ahi bhi best.

(** The [while queue:] loop of [get_matching_blocks].  The queue is a
    stack; its top (the last element of the Python list) is the head here.
    [None] stands for a loop that is still running when the fuel is
    spent. *)
Fixpoint blocks_loop (fuel : nat) (queue : list (Z * Z * Z * Z))
    (matching_blocks : list Match) : option (list Match) :=
  match queue with
  | [] => Some matching_blocks
  | (alo, ahi, blo, bhi) :: queue' =>
      match fuel with
      | O => None
      | S fuel' =>
          let '(i, j, k) := find_longest_match alo ahi blo bhi in
          if k =? 0 then blocks_loop fuel' queue' matching_blocks
          else
            let q1 := if (alo <? i) && (blo <? j)
                      then (alo, i, blo, j) :: queue' else queue' in
            let q2 := if (i + k <? ahi) && (j + k <? bhi)
                      then (i + k, ahi, j + k, bhi) :: q1 else q1 in
            blocks_loop fuel' q2 (matching_blocks ++ [(i, j, k)])
      end
  end.

End Matcher.

(** Tuple comparison [x <= y] of two triples. *)
Definition match_leb (x y : Match) : bool :=
  let '(i1, j1, k1) := x in
  let '(i2, j2, k2) := y in
  (i1 <? i2) || ((i1 =? i2) && ((j1 <? j2) || ((j1 =? j2) && (k1 <=? k2)))).

(** [matching_blocks.sort()], as a stable insertion sort. *)
Fixpoint insert_match (x : Match) (l : list Match) : list Match :=
  match l with
  | [] => [x]
  | y :: l' => if match_leb x y then x :: l else y :: insert_match x l'
  end.

Definition sort_matches (l : list Match) : list Match :=
  fold_right insert_match [] l.

(** The loop that collapses adjacent blocks; [cur] is [(i1, j1, k1)]. *)
Fixpoint collapse (blocks : list Match) (cur : Match)
    (non_adjacent : list Match) : list Match * Match :=
  match blocks with
  | [] => (non_adjacent, cur)
  | (i2, j2, k2) :: blocks' =>
      let '(i1, j1, k1) := cur in
      if (i1 + k1 =? i2) && (j1 + k1 =? j2)
      then collapse blocks' (i1, j1, k1 + k2) non_adjacent
      else collapse blocks' (i2, j2, k2)
             (if k1 =? 0 then non_adjacent else non_adjacent ++ [cur])
  end.

(** [get_matching_blocks()]; the fuel covers every run of the loop
    (lemma [blocks_loop_spec]). *)
Definition get_matching_blocks (a b : str) : option (list Match) :=
  let la := len a in
  let lb := len b in
  match blocks_loop a b (S (2 * length a)) [(0, la, 0, lb)] [] with
  | None => None
  | Some matching_blocks =>
      let '(non_adjacent, (i1, j1, k1)) :=
        collapse (sort_matches matching_blocks) (0, 0, 0) [] in
      let non_adjacent :=
        if k1 =? 0 then non_adjacent else non_adjacent ++ [(i1, j1, k1)] in
      Some (non_adjacent ++ [(la, lb, 0)])
  end.

(** [sum(triple[-1] for triple in blocks)] *)
Definition matches (blocks : list Match) : Z :=
  fold_left (fun acc m => acc + msize m) blocks 0.

(** [_calculate_ratio(matches, length)] *)
Definition calculate_ratio (matches length : Z) : Q :=
  if length =? 0 then 1 else (2 * matches) # (Z.to_pos length).

(** [ratio()] *)
Definition ratio (a b : str) : option Q :=
  blocks ← get_matching_blocks a b;
  Some (calculate_ratio (matches blocks) (len a + len b)).

End Difflib.

(* ===================================================================== *)
(** * Exceptions *)
(* ===================================================================== *)

Inductive exn : Type :=
  | ZeroDivisionError (msg : str)
  | ApiError (status_code : Z)
  | Error (msg : str).

(** The texts of the [ZeroDivisionError] of CPython 3.11: that of [%] on
    integers, and that of [/]. *)
Definition modulo_by_zero : str := of_string "integer modulo by zero"%string.
Definition division_by_zero : str := of_string "division by zero"%string.

(** A call that returns a value or raises. *)
Inductive outcome (A : Type) : Type :=
  | Ok (x : A)
  | Raise (e : exn).

Arguments Ok {A} x.
Arguments Raise {A} e.

(** [str(n)] for an [int]: its decimal digits. *)
Fixpoint uint_codes (d : Decimal.uint) : str :=
  match d with
  | Decimal.Nil => []
  | Decimal.D0 d' => 48 :: uint_codes d'
  | Decimal.D1 d' => 49 :: uint_codes d'
  | Decimal.D2 d' => 50 :: uint_codes d'
  | Decimal.D3 d' => 51 :: uint_codes d'
  | Decimal.D4 d' => 52 :: uint_codes d'
  | Decimal.D5 d' => 53 :: uint_codes d'
  | Decimal.D6 d' => 54 :: uint_codes d'
  | Decimal.D7 d' => 55 :: uint_codes d'
  | Decimal.D8 d' => 56 :: uint_codes d'
  | Decimal.D9 d' => 57 :: uint_codes d'
  end.

Definition str_of_int (n : Z) : str :=
  match Z.to_int n with
  | Decimal.Pos d => uint_codes d
  | Decimal.Neg d => 45 :: uint_codes d
  end.

(** [str(e)] *)
Definition exn_str (e : exn) : str :=
  match e with
  | ZeroDivisionError msg => msg
  | ApiError status_code =>
      [65; 80; 73; 35831; 27714; 22833; 36133; 58; 32] ++ str_of_int status_code
  | Error msg => msg
  end.

(* ===================================================================== *)
(** * modules/smart_subtitle.py *)
(* ===================================================================== *)

(** [similar(a, b)].  The matcher always returns a ratio (lemma
    [ratio_spec]); the default is never used. *)
Definition similar (a b : str) : Q :=
  default 1%Q (Difflib.ratio a b).

(** A subtitle [(timestamp, text)]. *)
Definition entry : Type := Q * str.

(** The literal [抖音]. *)
Definition douyin : str := [25238; 38899].

(** The variables [used_audio], [seen_texts] and [merged] of
    [merge_subtitles]. *)
Record merge_state : Type := MergeState {
  used_audio : gset Z;
  seen_texts : gset str;
  merged : list entry
}.

(** [{int(timestamp): text for timestamp, text in audio_subs}]: a later
    entry replaces an earlier one with the same key. *)
Definition audio_dict_of (audio_subs : list entry) : gmap Z str :=
  fold_left (fun (d : gmap Z str) (a : entry) => <[py_int (fst a) := snd a]> d)
            audio_subs ∅.

(** One turn of the loop over [a_time]; [best] holds [best_match] and
    [matched_time], which the source assigns together. *)
Definition best_step (audio_dict : gmap Z str) (used : gset Z) (v_text : str)
    (acc : option (str * Z) * Q) (a_time : Z) : option (str * Z) * Q :=
  let '(best, best_score) := acc in
  match audio_dict !! a_time with
  | Some a_text =>
      if decide (a_time ∈ used) then acc
      else
        let score := similar v_text a_text in
        if Qltb best_score score && Qltb (3 # 10) score
        then (Some (a_text, a_time), score)
        else acc
  | None => acc
  end.

(** The candidate seconds, [range(max(0, v_time_int - 2), v_time_int + 3)]. *)
Definition window (v_time_int : Z) : list Z :=
  py_range (Z.max 0 (v_time_int - 2)) (v_time_int + 3).

(** The search for the best audio match of a video entry. *)
Definition find_best (audio_dict : gmap Z str) (used : gset Z)
    (v_time_int : Z) (v_text : str) : option (str * Z) * Q :=
  fold_left (best_step audio_dict used v_text) (window v_time_int) (None, 0%Q).

(** [if best_match:] holds for a non-empty string only. *)
Definition matched (best : option (str * Z)) : option (str * Z) :=
  match best with
  | Some (_ :: _, _) => best
  | _ => None
  end.

(** [best_match if len(best_match) > len(v_text) else v_text] *)
Definition longer (best_match v_text : str) : str :=
  if len v_text <? len best_match then best_match else v_text.

(** Appends [(time, text)] to [merged] unless [text] was seen. *)
Definition emit (used : gset Z) (seen : gset str) (merged : list entry)
    (time : Q) (text : str) : merge_state :=
  if decide (text ∈ seen) then MergeState used seen merged
  else MergeState used ({[text]} ∪ seen) (merged ++ [(time, text)]).

(** Step 1: the body of [for v_time, v_text in video_subs]. *)
Definition video_step (audio_dict : gmap Z str) (st : merge_state)
    (v : entry) : merge_state :=
  let '(v_time, v_text) := v in
  let v_time_int := py_int v_time in
  match matched (fst (find_best audio_dict (used_audio st) v_time_int v_text)) with
  | Some (best_match, matched_time) =>
      emit ({[matched_time]} ∪ used_audio st) (seen_texts st) (merged st)
           v_time (longer best_match v_text)
  | None =>
      emit (used_audio st) (seen_texts st) (merged st) v_time v_text
  end.

(** [abs(m_time - a_time) < 2] for some entry of [merged]; the
    difference is the one of floats. *)
Definition overlaps (merged : list entry) (a_time : Q) : bool :=
  existsb (fun m => Qltb (Qabs (Float.sub (fst m) a_time)) 2) merged.

(** Step 2: the body of [for a_time, a_text in audio_subs]. *)
Definition audio_step (st : merge_state) (a : entry) : merge_state :=
  let '(a_time, a_text) := a in
  let a_time_int := py_int a_time in
  if decide ((a_time_int ∉ used_audio st) ∧ (a_text ∉ seen_texts st)) then
    if overlaps (merged st) a_time then st
    else MergeState (used_audio st) ({[a_text]} ∪ seen_texts st)
                    (merged st ++ [(a_time, a_text)])
  else st.

(** [merged.sort(key=lambda x: x[0])]; the sort is stable. *)
Fixpoint insert_by_time (x : entry) (l : list entry) : list entry :=
  match l with
  | [] => [x]
  | y :: l' =>
      if Qle_bool (fst x) (fst y) then x :: l else y :: insert_by_time x l'
  end.

Definition sort_by_time (l : list entry) : list entry :=
  fold_right insert_by_time [] l.

(** [text.strip()] then [text.replace("抖音", "").strip()] *)
Definition clean (text : str) : str :=
  strip (remove_all douyin (strip text)).

(** [similar(text, seen_text) > 0.7] for some [seen_text]. *)
Definition too_similar (seen : gset str) (text : str) : bool :=
  existsb (fun seen_text => Qltb (7 # 10) (similar text seen_text))
          (elements seen).

(** Step 3: the body of [for time, text in merged], on [seen_texts] and
    [final_subs]. *)
Definition dedup_step (st : gset str * list entry) (e : entry)
    : gset str * list entry :=
  let '(seen, final_subs) := st in
  let '(time, text) := e in
  let text := clean text in
  if (len text =? 0) || (len text <? 2) then st
  else if too_similar seen text then st
  else ({[text]} ∪ seen, final_subs ++ [(time, text)]).

(** The state after step 1. *)
Definition step1 (video_subs audio_subs : list entry) : merge_state :=
  fold_left (video_step (audio_dict_of audio_subs)) video_subs
            (MergeState ∅ ∅ []).

(** The state after step 2. *)
Definition step2 (video_subs audio_subs : list entry) : merge_state :=
  fold_left audio_step audio_subs (step1 video_subs audio_subs).

(** The final walk over a sorted list. *)
Definition dedup_walk (sorted : list entry) : list entry :=
  snd (fold_left dedup_step sorted (∅, [])).

Definition merge_subtitles (video_subs audio_subs : list entry) : list entry :=
  dedup_walk (sort_by_time (merged (step2 video_subs audio_subs))).

(* ===================================================================== *)
(** * modules/video_analysis.py *)
(* ===================================================================== *)

(** What one request to the recognition service yields: an HTTP reply with
    its status code and the content of its message, or an exception
    (the connection, the encoding of the frame, a malformed reply). *)
Inductive response : Type :=
  | Reply (status_code : Z) (content : str)
  | Failure (e : exn).

(** [ignore_phrases] *)
Definition ignore_phrases : list str :=
  [ [22270; 29255; 20013]; [26174; 31034]; [23383; 24149; 26159];
    [20869; 23481; 26159]; [25991; 23383; 26159];
    [25105; 30475; 21040]; [36825; 26159]; [36825; 20010]; [26377];
    [27809; 26377];
    [23383; 24149; 20869; 23481]; [25991; 26412]; [35782; 21035; 21040] ].

(** The double quote and the single quote. *)
Definition dquote : Z := 34.
Definition squote : Z := 39.

(** The cleaning of the recognizer's output in [extract_text_from_frame],
    from [content.strip()] to the returned text. *)
Definition text_filter (content : str) : str :=
  let text := strip content in
  if existsb (fun phrase => contains phrase text) ignore_phrases then []
  else if 50 <? len text then []
  else
    let text := strip_chars [squote] (strip_chars [dquote] text) in
    if negb (len text =? 0) && (1 <? len text) then strip text else [].

(** The body of [extract_text_from_frame], one attempt. *)
Definition recognize_once (r : response) : outcome str :=
  match r with
  | Reply status_code content =>
      if status_code =? 200 then Ok (text_filter content)
      else Raise (ApiError status_code)
  | Failure e => Raise e
  end.

(** ** The retry decorator (tenacity) *)

(** [wait_exponential(multiplier, min, max)] with base 2: the wait after
    attempt [attempt_number]. *)
Definition wait_exponential (multiplier min max : Q) (attempt_number : nat) : Q :=
  let result := (multiplier * inject_Z (2 ^ (Z.of_nat attempt_number - 1)))%Q in
  Qmax (Qmax 0 min) (Qmin result max).

(** What a retried call did: its result, the number of attempts made and
    the waits between them. *)
Record retried (A : Type) : Type := Retried {
  result : outcome A;
  attempts : nat;
  sleeps : list Q
}.

Arguments Retried {A} _ _ _.
Arguments result {A} _.
Arguments attempts {A} _.
Arguments sleeps {A} _.

Section Retry.

Context {A : Type}.
Variable wait : nat -> Q.
(** [call n] is what attempt number [n] yields. *)
Variable call : nat -> outcome A.

(** The loop of [@retry(stop=stop_after_attempt(n), wait=..., reraise=True)]
    from attempt [attempt_number] on, with [left] attempts allowed after
    it: a result is returned; a failure is raised again when no attempt
    is left, and followed by a wait and the next attempt otherwise. *)
Fixpoint retry_from (left attempt_number : nat) : retried A :=
  match call attempt_number with
  | Ok x => Retried (Ok x) attempt_number []
  | Raise e =>
      match left with
      | O => Retried (Raise e) attempt_number []
      | S left' =>
          let r := retry_from left' (S attempt_number) in
          Retried (result r) (attempts r) (wait attempt_number :: sleeps r)
      end
  end.

Definition retry (stop_after_attempt : nat) : retried A :=
  retry_from (stop_after_attempt - 1) 1.

End Retry.

(** A decoded frame, seen through the recognition service:
    [frame n] is what the service yields at the [n]-th request for it. *)
Definition frame : Type := nat -> response.

(** [extract_text_from_frame] with its decorator
    [@retry(stop=stop_after_attempt(3),
            wait=wait_exponential(multiplier=1, min=4, max=10),
            reraise=True)]. *)
Definition extract_text_from_frame_retried (f : frame) : retried str :=
  retry (wait_exponential 1 4 10) (fun n => recognize_once (f n)) 3.

Definition extract_text_from_frame (f : frame) : outcome str :=
  result (extract_text_from_frame_retried f).

(** An opened video: the frame rate [cap.get(CAP_PROP_FPS)] and the frames
    that [cap.read()] yields one after the other. *)
Record video : Type := Video {
  cap_fps : Q;
  frames : list frame
}.

(** One turn of the [while cap.isOpened()] loop of [extract_subtitles],
    after a frame was read, on [frame_count] and [subtitles].  A
    recognition failure is logged and followed by [continue], which
    leaves [frame_count] as it is. *)
Definition sample_step (fps interval : Z) (st : Z * list entry) (f : frame)
    : outcome (Z * list entry) :=
  let '(frame_count, subtitles) := st in
  if interval =? 0 then Raise (ZeroDivisionError modulo_by_zero)
  else if frame_count mod interval =? 0 then
    if fps =? 0 then Raise (ZeroDivisionError division_by_zero)
    else
      let timestamp := (inject_Z frame_count / inject_Z fps)%Q in
      match extract_text_from_frame f with
      | Ok text =>
          Ok (frame_count + 1,
              if len text =? 0 then subtitles
              else subtitles ++ [(timestamp, text)])
      | Raise _ => Ok (frame_count, subtitles)
      end
  else Ok (frame_count + 1, subtitles).

(** The loop, on the frames still to be read; it ends when [cap.read()]
    has no frame left. *)
Fixpoint sample_loop (fps interval : Z) (rest : list frame)
    (st : Z * list entry) : outcome (Z * list entry) :=
  match rest with
  | [] => Ok st
  | f :: rest' =>
      match sample_step fps interval st f with
      | Ok st' => sample_loop fps interval rest' st'
      | Raise e => Raise e
      end
  end.

(** [interval = int(fps * interval_seconds)] with [fps = int(cap.get(...))]:
    the product is the one of floats, rounded before it is truncated. *)
Definition sample_interval (v : video) (interval_seconds : Q) : Z :=
  py_int (Float.mul (inject_Z (py_int (cap_fps v))) interval_seconds).

(** [extract_subtitles(video_path, interval_seconds)].  The resizing of
    wide frames is left out: it does not change what is sampled. *)
Definition extract_subtitles (v : video) (interval_seconds : Q)
    : outcome (list entry) :=
  let fps := py_int (cap_fps v) in
  let interval := sample_interval v interval_seconds in
  match sample_loop fps interval (frames v) (0, []) with
  | Ok (_, subtitles) => Ok subtitles
  | Raise e => Raise e
  end.

(* ===================================================================== *)
(** * modules/audio_analysis.py *)
(* ===================================================================== *)

(** A segment of the transcription: its [start] and its [text]. *)
Definition segment : Type := Q * str.

Definition no_speech_message : str :=
  [26410; 33021; 35782; 21035; 21040; 20219; 20309; 35821; 38899; 20869; 23481].

Definition transcribe_error_prefix : str :=
  [36716; 24405; 38899; 39057; 26102; 20986; 38169; 58; 32].

(** [f"[{start_time}s] {text}"] *)
Definition format_line (second : Z) (text : str) : str :=
  of_string "[" ++ str_of_int second ++ of_string "s] " ++ text.

(** [transcribe_audio(audio_path)], given what reading the file and the
    transcription request yield: the segments, or an exception, which is
    caught and turned into a message. *)
Definition transcribe_audio (request : outcome (list segment)) : str :=
  match request with
  | Ok segments =>
      let result :=
        omap (fun sg : segment =>
                let start_time := py_int (fst sg) in
                let text := strip (snd sg) in
                if len text =? 0 then None
                else Some (format_line start_time text))
             segments in
      match result with
      | [] => no_speech_message
      | _ => join [10] result
      end
  | Raise e => transcribe_error_prefix ++ exn_str e
  end.

(* ===================================================================== *)
(** * modules/smart_subtitle.py: the pipeline *)
(* ===================================================================== *)

Definition upload_message : str :=
  [35831; 19978; 20256; 35270; 39057; 25991; 20214].

Definition no_subtitle_message : str :=
  [26410; 33021; 25552; 21462; 21040; 26377; 25928; 23383; 24149].

Definition error_prefix : str :=
  [22788; 29702; 20986; 38169; 58; 32].

Section Pipeline.

(** [float(s)] of Python, [None] where it raises [ValueError]. *)
Variable py_float : str -> option Q.

(** One line of the transcription, parsed back: [None] where the line is
    passed over, by the test or by the bare [except]. *)
Definition parse_audio_line (line : str) : option entry :=
  if startswith (of_string "[") line && contains (of_string "]") line then
    match find (of_string "s]") line, find (of_string "]") line with
    | Some i, Some j =>
        let time_str := take (i - 1) (drop 1 line) in
        let text := strip (drop (j + 1) line) in
        match py_float time_str with
        | Some t => Some (t, text)
        | None => None
        end
    | _, _ => None
    end
  else None.

Definition parse_audio (audio_content : str) : list entry :=
  omap parse_audio_line (split_on 10 audio_content).

(** [f"[{int(timestamp)}s] {text}"] joined by newlines, or the message. *)
Definition format_subtitles (merged_subtitles : list entry) : str :=
  match merged_subtitles with
  | [] => no_subtitle_message
  | _ => join [10] (map (fun e : entry => format_line (py_int (fst e)) (snd e))
                        merged_subtitles)
  end.

(** [process_smart_subtitle(video_file)]: [video_file] is [None] or the
    uploaded video; [audio_extraction] is what [extract_audio_from_video]
    yields and [transcription] what the request inside [transcribe_audio]
    yields.  An exception of the [try] block ends in the message of the
    [except] clause. *)
Definition process_smart_subtitle (video_file : option video)
    (audio_extraction : outcome unit)
    (transcription : outcome (list segment)) : str :=
  match video_file with
  | None => upload_message
  | Some v =>
      match extract_subtitles v 1 with
      | Raise e => error_prefix ++ exn_str e
      | Ok video_subtitles =>
          match audio_extraction with
          | Raise e => error_prefix ++ exn_str e
          | Ok _ =>
              let audio_content := transcribe_audio transcription in
              let audio_subtitles := parse_audio audio_content in
              format_subtitles (merge_subtitles video_subtitles audio_subtitles)
          end
      end
  end.

End Pipeline.

(* ===================================================================== *)
(** * modules/video_analysis.py: the other functions *)
(* ===================================================================== *)

(** ** The rate limiter *)





(** ** [extract_frames] *)

(** One turn of the loop, on [frame_count] and [frames]. *)
Definition extract_frames_step (interval : Z) (st : Z * list frame) (f : frame)
    : Z * list frame :=
  let '(frame_count, extracted) := st in
  (frame_count + 1,
   if frame_count mod interval =? 0 then extracted ++ [f] else extracted).

(** [extract_frames(video_path, interval)]: the interval given as argument
    is replaced by [max(1, int(fps))].  The resizing of wide frames is
    left out, as in [extract_subtitles]. *)
Definition extract_frames (v : video) : list frame :=
  let fps := py_int (cap_fps v) in
  let interval := Z.max 1 fps in
  snd (fold_left (extract_frames_step interval) (frames v) (0, [])).

(** ** [_similar_text] and [process_video] *)

(** [sum(1 for c1, c2 in zip(text1, text2) if c1 == c2)] *)
Fixpoint same_chars (text1 text2 : str) : Z :=
  match text1, text2 with
  | c1 :: rest1, c2 :: rest2 =>
      (if c1 =? c2 then 1 else 0) + same_chars rest1 rest2
  | _, _ => 0
  end.

(** [_similar_text(text1, text2)]; the division raises when both texts
    are empty. *)
Definition _similar_text (text1 text2 : str) : outcome bool :=
  if 5 <? Z.abs (len text1 - len text2) then Ok false
  else
    let max_len := Z.max (len text1) (len text2) in
    if max_len =? 0 then Raise (ZeroDivisionError division_by_zero)
    else Ok (Qltb (8 # 10) (same_chars text1 text2 # Z.to_pos max_len)).

(** A loop whose body can raise. *)
Fixpoint fold_outcome {S X : Type} (body : S -> X -> outcome S)
    (l : list X) (st : S) : outcome S :=
  match l with
  | [] => Ok st
  | x :: l' =>
      match body st x with
      | Ok st' => fold_outcome body l' st'
      | Raise e => Raise e
      end
  end.

(** The loop [for seen_text in seen_texts] with its [break], over the
    elements of the set in the order in which it yields them. *)
Fixpoint any_similar (sentence : str) (seen : list str) : outcome bool :=
  match seen with
  | [] => Ok false
  | seen_text :: seen' =>
      match _similar_text sentence seen_text with
      | Ok true => Ok true
      | Ok false => any_similar sentence seen'
      | Raise e => Raise e
      end
  end.

(** [s.replace(old, new)] for a one-character [old]. *)
Definition replace_char (old : Z) (new : str) (s : str) : str :=
  flat_map (fun c => if c =? old then new else [c]) s.

(** The sentences of a text: a line break is put after each full stop,
    question mark and exclamation mark, the lines are stripped and the
    empty ones dropped. *)
Definition sentences_of (text : str) : list str :=
  let text := replace_char 12290 [12290; 10] text in
  let text := replace_char 65311 [65311; 10] text in
  let text := replace_char 65281 [65281; 10] text in
  filter (fun s : str => s <> []) (map strip (split_on 10 text)).

(** The body of [for sentence in sentences], on [seen_texts] and
    [result]. *)
Definition sentence_step (timestamp : Q) (st : gset str * list str)
    (sentence : str) : outcome (gset str * list str) :=
  let '(seen_texts, result) := st in
  if len sentence <? 2 then Ok st
  else if decide (sentence ∈ seen_texts) then Ok st
  else
    match any_similar sentence (elements seen_texts) with
    | Raise e => Raise e
    | Ok true => Ok st
    | Ok false =>
        Ok ({[sentence]} ∪ seen_texts,
            result ++ [format_line (py_int timestamp) sentence])
    end.

(** The body of [for timestamp, text in subtitles]. *)
Definition subtitle_step (st : gset str * list str) (e : entry)
    : outcome (gset str * list str) :=
  let '(timestamp, text) := e in
  let text := clean text in
  if len text =? 0 then Ok st
  else fold_outcome (sentence_step timestamp) (sentences_of text) st.

Definition video_error_prefix : str :=
  [22788; 29702; 35270; 39057; 26102; 21457; 29983; 38169; 35823; 58; 32].

Definition no_valid_subtitle_message : str :=
  [26410; 33021; 20174; 35270; 39057; 20013; 25552; 21462; 21040; 26377;
   25928; 23383; 24149].

Definition no_video_subtitle_message : str :=
  [26410; 33021; 20174; 35270; 39057; 20013; 25552; 21462; 21040; 23383; 24149].

(** [process_video(video_file, interval_seconds)] *)
Definition process_video (video_file : option video) (interval_seconds : Q)
    : str :=
  match video_file with
  | None => upload_message
  | Some v =>
      match extract_subtitles v interval_seconds with
      | Raise e => video_error_prefix ++ exn_str e
      | Ok [] => no_video_subtitle_message
      | Ok subtitles =>
          match fold_outcome subtitle_step subtitles (∅, []) with
          | Raise e => video_error_prefix ++ exn_str e
          | Ok (_, []) => no_valid_subtitle_message
          | Ok (_, result) => join [10] result
          end
      end
  end.

(* ===================================================================== *)
(** * app.py *)
(* ===================================================================== *)

(** The values of [VideoProcessMode]: the floats written 1.3, 1.0 and
    0.7. *)
Definition FAST : Q := Float.round (13 # 10).
Definition STANDARD : Q := 1.
Definition PRECISE : Q := Float.round (7 # 10).

(** [mode_map.get(mode, VideoProcessMode.STANDARD.value)] *)
Definition mode_interval (mode : str) : Q :=
  if decide (mode = [24555; 36895]) then FAST
  else if decide (mode = [26631; 20934]) then STANDARD
  else if decide (mode = [31934; 20934]) then PRECISE
  else STANDARD.

(** [process_video_with_mode(video_file, mode)] *)
Definition process_video_with_mode (video_file : option video) (mode : str)
    : str :=
  match video_file with
  | None => upload_message
  | Some v => process_video (Some v) (mode_interval mode)
  end.

(* ===================================================================== *)
(** * modules/video_summary.py *)
(* ===================================================================== *)

(** [range(lo, hi, step)] for a positive [step] *)
Definition py_range_step (lo hi step : Z) : list Z :=
  map (fun n => lo + Z.of_nat n * step)
      (seq 0 (Z.to_nat ((hi - lo + step - 1) / step))).

Module VideoSummary.

(** An opened video: the number of frames it announces, and the frame
    read after a seek to a position, if one is read. *)
Record video : Type := Video {
  total_frames : Z;
  read_at : Z -> option frame
}.

(** [extract_frames(video_path)] *)
Definition extract_frames (v : video) : list frame :=
  let interval := Z.max 1 (total_frames v / 10) in
  omap (read_at v) (py_range_step 0 (total_frames v) interval).

(** The body of [analyze_frame] and of [generate_final_summary], from the
    reply on. *)
Definition read_reply (r : response) : outcome str :=
  match r with
  | Reply status_code content =>
      if status_code =? 200 then Ok (strip content)
      else Raise (ApiError status_code)
  | Failure e => Raise e
  end.

(** [analyze_frame] with its decorator
    [@retry(stop=stop_after_attempt(3),
            wait=wait_exponential(multiplier=0.5, min=2, max=5),
            reraise=True)]. *)
Definition analyze_frame_retried (f : frame) : retried str :=
  retry (wait_exponential (1 # 2) 2 5) (fun n => read_reply (f n)) 3.

Definition analyze_frame (f : frame) : outcome str :=
  result (analyze_frame_retried f).

Definition prompt_head : str :=
  [
   35831; 22522; 20110; 20197; 19979; 35270; 39057; 30340; 35270; 35273;
   21644; 38899; 39057; 20449; 24687; 65292; 29983; 25104; 19968; 20010;
   20840; 38754; 30340; 20869; 23481; 24635; 32467; 65306; 10; 10; 49;
   46; 32; 35270; 39057; 30011; 38754; 25551; 36848; 65306; 10
  ].

Definition prompt_middle : str :=
  [
   10; 10; 50; 46; 32; 35270; 39057; 38899; 39057; 20869; 23481; 65306;
   10
  ].

Definition prompt_tail : str :=
  [
   10; 10; 35831; 29983; 25104; 19968; 20010; 32467; 26500; 21270; 30340;
   24635; 32467; 65292; 21253; 21547; 65306; 10; 49; 46; 32; 35270;
   39057; 30340; 20027; 35201; 20869; 23481; 21644; 20027; 39064; 10; 50;
   46; 32; 35270; 39057; 30340; 22330; 26223; 21644; 29615; 22659; 25551;
   36848; 10; 51; 46; 32; 35270; 39057; 20013; 30340; 23545; 35805;
   25110; 22768; 38899; 20869; 23481; 35201; 28857; 10; 52; 46; 32;
   35270; 39057; 30340; 39118; 26684; 21644; 34920; 29616; 24418; 24335;
   10; 53; 46; 32; 35270; 39057; 21487; 33021; 30340; 30446; 30340;
   25110; 29992; 36884; 10; 10; 35831; 29992; 20013; 25991; 36755; 20986;
   65292; 20351; 29992; 31616; 27905; 28165; 26224; 30340; 35821; 35328;
   65292; 30830; 20445; 24635; 32467; 26082; 21253; 21547; 35270; 35273;
   20449; 24687; 65292; 20063; 21253; 21547; 38899; 39057; 20449; 24687;
   12290; 22914; 26524; 35270; 35273; 21644; 38899; 39057; 20449; 24687;
   23384; 22312; 20851; 32852; 65292; 35831; 29305; 21035; 25351; 20986;
   12290
  ].

(** The prompt of [generate_final_summary]. *)
Definition prompt (frame_descriptions : list str) (audio_content : str) : str :=
  prompt_head ++ join [32] frame_descriptions ++ prompt_middle
  ++ audio_content ++ prompt_tail.

(** [generate_final_summary], retried like [analyze_frame]:
    [service p n] is what the [n]-th request with the prompt [p] yields. *)
Definition generate_final_summary (service : str -> nat -> response)
    (frame_descriptions : list str) (audio_content : str) : outcome str :=
  result (retry (wait_exponential (1 # 2) 2 5)
                (fun n => read_reply (service (prompt frame_descriptions audio_content) n))
                3).

Definition audio_unavailable : str :=
  [26080; 27861; 25552; 21462; 38899; 39057; 20869; 23481].

Definition no_information_message : str :=
  [26080; 27861; 20174; 35270; 39057; 20013; 25552; 21462; 26377; 25928;
   20449; 24687].

Definition summary_error_prefix : str :=
  [29983; 25104; 35270; 39057; 24635; 32467; 26102; 21457; 29983; 38169;
   35823; 58; 32].

(** The descriptions of the frames: a frame whose analysis fails, or
    gives an empty description, is passed over. *)
Definition describe_frames (l : list frame) : list str :=
  omap (fun f => match analyze_frame f with
                 | Ok description =>
                     if len description =? 0 then None else Some description
                 | Raise _ => None
                 end) l.

(** The audio content: the transcription, or the fixed text when the
    extraction raises. *)
Definition audio_content_of (audio_extraction : outcome unit)
    (transcription : outcome (list segment)) : str :=
  match audio_extraction with
  | Ok _ => transcribe_audio transcription
  | Raise _ => audio_unavailable
  end.

(** [process_video_summary(video_file)] *)
Definition process_video_summary (video_file : option video)
    (audio_extraction : outcome unit) (transcription : outcome (list segment))
    (service : str -> nat -> response) : str :=
  match video_file with
  | None => upload_message
  | Some v =>
      let frame_descriptions := describe_frames (extract_frames v) in
      let audio_content := audio_content_of audio_extraction transcription in
      if negb (bool_decide (frame_descriptions = []))
         || negb (bool_decide (audio_content = audio_unavailable))
      then
        match generate_final_summary service frame_descriptions audio_content with
        | Ok summary => summary
        | Raise e => summary_error_prefix ++ exn_str e
        end
      else no_information_message
  end.

End VideoSummary.

(* ===================================================================== *)
(** * Definitions used to state the properties *)
(* ===================================================================== *)

(** ** The matcher *)

(** A match that lies inside the rectangle it was searched in. *)
Definition in_box (alo ahi blo bhi : Z) (m : Difflib.Match) : Prop :=
  let '(i, j, k) := m in
  alo <= i /\ blo <= j /\ 0 <= k /\ i + k <= ahi /\ j + k <= bhi.

(** The lengths recorded for one row of the scan. *)
Definition row_ok (alo blo lim : Z) (j2len : gmap Z Z) : Prop :=
  forall j k, j2len !! j = Some k -> 1 <= k /\ k <= lim - alo /\ k <= j - blo + 1.

Definition rect_ok (r : Z * Z * Z * Z) : Prop :=
  let '(alo, ahi, blo, bhi) := r in alo <= ahi /\ blo <= bhi.

Definition width_a (r : Z * Z * Z * Z) : Z :=
  let '(alo, ahi, _, _) := r in ahi - alo.

Definition width_b (r : Z * Z * Z * Z) : Z :=
  let '(_, _, blo, bhi) := r in bhi - blo.

Definition sum_of {X : Type} (f : X -> Z) (l : list X) : Z :=
  fold_right (fun x acc => f x + acc) 0 l.

(** The number of turns the loop can still take: a rectangle of width [w]
    is popped once and leaves rectangles of total width below [w]. *)
Definition queue_fuel (queue : list (Z * Z * Z * Z)) : Z :=
  sum_of (fun r => 2 * width_a r + 1) queue.

(** ** The merge *)

(** Entries in the order of their timestamps. *)
Definition time_le (e1 e2 : entry) : Prop := (fst e1 <= fst e2)%Q.

(** In the output, a later entry is not before an earlier one, and its
    text, compared with the earlier text, scores at most 0.7. *)
Definition ordered_distinct (e1 e2 : entry) : Prop :=
  (fst e1 <= fst e2)%Q /\ ~ (7 # 10 < similar (snd e2) (snd e1))%Q.

(** Entries that are 2 seconds apart or more, for the difference of
    floats that the code computes. *)
Definition far_apart (e1 e2 : entry) : Prop :=
  ~ (Qabs (Float.sub (fst e1) (fst e2)) < 2)%Q.

(** What the search holds after the seconds [done]: the best candidate so
    far, and a score that no candidate above 0.3 exceeds. *)
Definition best_inv (audio_dict : gmap Z str) (used : gset Z) (v_text : str)
    (done : list Z) (acc : option (str * Z) * Q) : Prop :=
  match fst acc with
  | Some (a_text, t) =>
      t ∈ done /\ audio_dict !! t = Some a_text /\ (t ∉ used) /\
      snd acc = similar v_text a_text /\ (3 # 10 < snd acc)%Q
  | None => snd acc = 0%Q
  end /\
  forall t' a', t' ∈ done -> audio_dict !! t' = Some a' -> t' ∉ used ->
                (similar v_text a' <= snd acc)%Q \/ (similar v_text a' <= 3 # 10)%Q.

(** ** Strings *)

(** [r] is a run of consecutive characters of [s]. *)
Definition segment_of (r s : str) : Prop :=
  exists pre post, s = pre ++ r ++ post.

(** The first character, if any, is not one of [chars]. *)
Definition head_ok (chars : list Z) (s : str) : Prop :=
  forall c, head s = Some c -> mem c chars = false.

(** ** The steps of the merge and the sampling *)

(** The seconds consumed by the matches of step 1, in the order of the
    video entries, from the state [st] on. *)
Fixpoint step1_matches (audio_dict : gmap Z str) (st : merge_state)
    (video_subs : list entry) : list Z :=
  match video_subs with
  | [] => []
  | v :: rest =>
      match matched (fst (find_best audio_dict (used_audio st)
                                    (py_int (fst v)) (snd v))) with
      | Some (_, matched_time) => [matched_time]
      | None => []
      end ++ step1_matches audio_dict (video_step audio_dict st v) rest
  end.

(** The entries of a list whose timestamp has the integer part [second]. *)
Definition at_second (second : Z) (l : list entry) : list entry :=
  filter (fun e : entry => py_int (fst e) = second) l.

(** Whether the walk of step 3 keeps a text, given the entries kept so far. *)
Definition kept_after (kept : list entry) (text : str) : bool :=
  (2 <=? len text) &&
  forallb (fun k : entry => negb (Qltb (7 # 10) (similar text (snd k)))) kept.

(** The frames of a video with their indices. *)
Fixpoint indexed (first : Z) (l : list frame) : list (Z * frame) :=
  match l with
  | [] => []
  | f :: l' => (first, f) :: indexed (first + 1) l'
  end.

(** The entry of the frame of index [i]: none unless [i] is a multiple of
    [interval] and the frame has a text. *)
Definition entry_of_frame (fps interval : Z) (p : Z * frame) : option entry :=
  if fst p mod interval =? 0 then
    match extract_text_from_frame (snd p) with
    | Ok text =>
        if len text =? 0 then None
        else Some ((inject_Z (fst p) / inject_Z fps)%Q, text)
    | Raise _ => None
    end
  else None.

(** The entries of the frames whose index is a multiple of [interval],
    the first frame having the index [first]. *)
Definition sampled_entries (fps interval first : Z) (l : list frame) : list entry :=
  omap (entry_of_frame fps interval) (indexed first l).

(** A frame for which every request is answered with the same content. *)
Definition captioned (content : String.string) : frame :=
  fun _ => Reply 200 (of_string content).



(** ** The index of the matcher *)

(** The indices at which [x] stands in a list of indexed elements. *)
Definition positions (x : Z) (l : list (Z * Z)) : list Z :=
  map fst (filter (fun p : Z * Z => snd p = x) l).

(** [enumerate] of a list whose first index is [first]. *)
Definition enumerate_from (first : nat) (b : str) : list (Z * Z) :=
  zip (map Z.of_nat (seq first (length b))) b.

(** Whether the index of the matcher has an element: it stands in the
    second sequence and is not popular. *)
Definition indexed_char (b : str) (x : Z) : bool :=
  bool_decide (is_Some (Difflib.chain_b b !! x)).

(** The length of the run of indexed elements of [a] that ends just before
    the position [n]. *)
Fixpoint run_upto (a : str) (n : nat) : Z :=
  match n with
  | O => 0
  | S n' =>
      match a !! n' with
      | Some x => if indexed_char a x then run_upto a n' + 1 else 0
      | None => 0
      end
  end.

(** The length of the run of indexed elements of [a] that ends at the
    position [j]. *)
Definition run_at (a : str) (j : Z) : Z := run_upto a (Z.to_nat (j + 1)).

(** What the scan of a sequence against itself holds in the lengths
    recorded for the row [r]: left of the diagonal a length is at most the
    run that ends at its column, right of it at most the run that ends at
    [r], and on the diagonal it is that run. *)
Definition row_inv (a : str) (r : Z) (m : gmap Z Z) : Prop :=
  (forall j k, m !! j = Some k ->
               (j < r -> k <= run_at a j) /\
               (r < j -> k <= run_at a r) /\
               (j = r -> k = run_at a r)) /\
  (m !! r = None -> run_at a r = 0).

(** The best match before the row [i]: it lies on the diagonal and is as
    long as every run that ends above the row. *)
Definition best_diag (a : str) (i : Z) (best : Difflib.Match) : Prop :=
  let '(bi, bj, bs) := best in
  bi = bj /\ 0 <= bs /\ forall j, j < i -> run_at a j <= bs.

(** Strings without a common character. *)
Definition disjoint (a b : str) : Prop := forall c, c ∈ a -> c ∉ b.

(** ** The merge, continued *)

(** An entry with the timestamp of an input entry and the text of an
    input entry. *)
Definition from_inputs (video_subs audio_subs : list entry) (e : entry) : Prop :=
  (fst e ∈ map fst video_subs \/ fst e ∈ map fst audio_subs) /\
  (snd e ∈ map snd video_subs \/ snd e ∈ map snd audio_subs).


(** The line that [process_video] writes for a sentence. *)
Definition line_of (e : entry) : str := format_line (py_int (fst e)) (snd e).

(** Two sentences of which [process_video] keeps the second after the
    first: different, and not similar. *)
Definition kept_apart (e1 e2 : entry) : Prop :=
  snd e1 <> snd e2 /\ _similar_text (snd e2) (snd e1) = Ok false.

(** The state of the loops of [process_video], and the sentences kept so
    far. *)
Definition kept_inv (st : gset str * list str) (kept : list entry) : Prop :=
  (forall s, s ∈ fst st <-> s ∈ map snd kept) /\ snd st = map line_of kept.

(** The text that [process_video] returns for the sentences it kept. *)
Definition lines_of (kept : list entry) : str :=
  match kept with
  | [] => no_valid_subtitle_message
  | _ => join [10] (map line_of kept)
  end.

(** A text that [extract_text_from_frame] lets through. *)
Definition caption_ok (text : str) : Prop :=
  text <> [] /\ len text <= 50 /\ strip text = text /\
  Forall (fun phrase => contains phrase text = false) ignore_phrases.

(** The state of the loop of [extract_subtitles]: the entries are those
    of frame counts below [frame_count], in the order of the counts. *)
Definition sampled_inv (fps frame_count : Z) (subtitles : list entry) : Prop :=
  0 <= frame_count /\
  StronglySorted (fun e1 e2 : entry => (fst e1 < fst e2)%Q) subtitles /\
  Forall (fun e : entry =>
            (exists c, 0 <= c < frame_count /\
                       fst e = (inject_Z c / inject_Z fps)%Q) /\
            caption_ok (snd e))
         subtitles.

(** The frames of a list whose count, from [frame_count] on, is a
    multiple of the interval. *)
Fixpoint every (interval frame_count : Z) (l : list frame) : list frame :=
  match l with
  | [] => []
  | f :: l' =>
      if frame_count mod interval =? 0
      then f :: every interval (frame_count + 1) l'
      else every interval (frame_count + 1) l'
  end.

(** The full stop, the question mark and the exclamation mark after which
    [process_video] breaks a text. *)
Definition terminator (c : Z) : bool :=
  (c =? 12290) || (c =? 65311) || (c =? 65281).

(** One of the three marks stands only at the end of the string. *)
Definition ends_sentence (s : str) : Prop :=
  forall pre c post, s = pre ++ c :: post -> terminator c = true -> post = [].
(* ===================================================================== *)
(** * Properties of the matcher *)
(* ===================================================================== *)

Module DifflibFacts.
Import Difflib.

Lemma row_ok_empty alo blo lim : row_ok alo blo lim ∅.
Proof. intros j k H. rewrite lookup_empty in H. discriminate. Qed.

Lemma row_ok_weaken alo blo lim lim' m :
  lim <= lim' -> row_ok alo blo lim m -> row_ok alo blo lim' m.
Proof. intros Hle H j k Hjk. destruct (H j k Hjk) as (? & ? & ?). lia. Qed.

Lemma scan_row_box alo ahi blo bhi lim i j2len :
  row_ok alo blo lim j2len -> alo <= lim -> lim <= i -> i < ahi ->
  forall js newj2len best,
    row_ok alo blo (i + 1) newj2len -> in_box alo ahi blo bhi best ->
    row_ok alo blo (i + 1) (fst (scan_row js i blo bhi j2len newj2len best)) /\
    in_box alo ahi blo bhi (snd (scan_row js i blo bhi j2len newj2len best)).
Proof.
  intros Hrow Halo Hlim Hi js.
  induction js as [|j js IH]; intros newj2len best Hnew Hbest; simpl.
  - split; assumption.
  - destruct (j <? blo) eqn:Hjlo; [apply IH; assumption|].
    destruct (bhi <=? j) eqn:Hjhi; [split; assumption|].
    apply Z.ltb_ge in Hjlo. apply Z.leb_gt in Hjhi.
    assert (Hk : 1 <= default 0 (j2len !! (j - 1)) + 1 /\
                 default 0 (j2len !! (j - 1)) + 1 <= i + 1 - alo /\
                 default 0 (j2len !! (j - 1)) + 1 <= j - blo + 1).
    { destruct (j2len !! (j - 1)) as [k|] eqn:Hlook; simpl.
      - destruct (Hrow _ _ Hlook) as (? & ? & ?). lia.
      - lia. }
    set (k := default 0 (j2len !! (j - 1)) + 1) in *.
    apply IH.
    + intros j' k' Hlook. destruct (decide (j = j')) as [->|Hne].
      * rewrite lookup_insert_eq in Hlook. inversion Hlook; subst. lia.
      * rewrite lookup_insert_ne in Hlook by assumption. apply Hnew, Hlook.
    + destruct (msize best <? k); [|assumption].
      unfold in_box. lia.
Qed.

Lemma scan_rows_box a b alo ahi blo bhi rows :
  forall lim j2len best,
    StronglySorted Z.lt rows -> Forall (fun i => lim <= i < ahi) rows ->
    alo <= lim -> row_ok alo blo lim j2len -> in_box alo ahi blo bhi best ->
    in_box alo ahi blo bhi (scan_rows a b rows blo bhi j2len best).
Proof.
  induction rows as [|i rows IH]; intros lim j2len best Hsort Hall Halo Hrow Hbest;
    simpl; [assumption|].
  inversion Hsort as [|? ? Hsort' Hlt]; subst.
  inversion Hall as [|? ? [Hi1 Hi2] Hall']; subst.
  match goal with |- context [scan_row ?js i blo bhi j2len ∅ best] =>
    pose proof (scan_row_box alo ahi blo bhi lim i j2len Hrow Halo Hi1 Hi2
                  js ∅ best (row_ok_empty _ _ _) Hbest) as [Hn Hb];
    destruct (scan_row js i blo bhi j2len ∅ best) as [newj2len best'] end.
  simpl in Hn, Hb.
  apply (IH (i + 1)); try assumption; [|lia].
  rewrite Forall_forall in *. intros x Hx.
  specialize (Hlt x Hx). specialize (Hall' x Hx). lia.
Qed.

Lemma py_range_sorted lo hi : StronglySorted Z.lt (py_range lo hi).
Proof.
  unfold py_range. generalize (Z.to_nat (hi - lo)) as n. generalize 0%nat as s.
  intros s n. revert s. induction n as [|n IH]; intros s; simpl.
  - constructor.
  - constructor; [apply IH|].
    rewrite Forall_forall. intros x Hx.
    apply list_elem_of_In, in_map_iff in Hx as (y & <- & Hy).
    apply in_seq in Hy. lia.
Qed.

Lemma py_range_bounds lo hi : Forall (fun i => lo <= i < hi) (py_range lo hi).
Proof.
  unfold py_range. rewrite Forall_forall. intros x Hx.
  apply list_elem_of_In, in_map_iff in Hx as (y & <- & Hy).
  apply in_seq in Hy. lia.
Qed.

Lemma extend_left_box a b alo ahi blo bhi fuel :
  forall best, in_box alo ahi blo bhi best ->
               in_box alo ahi blo bhi (extend_left a b fuel alo blo best).
Proof.
  induction fuel as [|fuel IH]; intros [[i j] k] Hbest; simpl; [assumption|].
  destruct ((alo <? i) && (blo <? j) && same_char a b (i - 1) (j - 1)) eqn:Hc;
    [|assumption].
  apply andb_prop in Hc as [Hc _]. apply andb_prop in Hc as [H1 H2].
  apply Z.ltb_lt in H1, H2. apply IH. unfold in_box in *. lia.
Qed.

Lemma extend_right_box a b alo ahi blo bhi fuel :
  forall best, in_box alo ahi blo bhi best ->
               in_box alo ahi blo bhi (extend_right a b fuel ahi bhi best).
Proof.
  induction fuel as [|fuel IH]; intros [[i j] k] Hbest; simpl; [assumption|].
  destruct ((i + k <? ahi) && (j + k <? bhi) && same_char a b (i + k) (j + k))
    eqn:Hc; [|assumption].
  apply andb_prop in Hc as [Hc _]. apply andb_prop in Hc as [H1 H2].
  apply Z.ltb_lt in H1, H2. apply IH. unfold in_box in *. lia.
Qed.

(** [find_longest_match] returns a block inside the rectangle it is given. *)
Lemma find_longest_match_box a b alo ahi blo bhi :
  alo <= ahi -> blo <= bhi ->
  in_box alo ahi blo bhi (find_longest_match a b alo ahi blo bhi).
Proof.
  intros Ha Hb. unfold find_longest_match.
  apply extend_right_box, extend_left_box.
  apply (scan_rows_box a b alo ahi blo bhi _ alo).
  - apply py_range_sorted.
  - apply py_range_bounds.
  - lia.
  - apply row_ok_empty.
  - unfold in_box. lia.
Qed.

(** The fuel given to the two extension loops lets them run to their end:
    more fuel does not change what they return. *)
Lemma extend_left_fuel a b alo blo fuel :
  forall extra i j k,
    i - alo <= Z.of_nat fuel ->
    extend_left a b (fuel + extra) alo blo (i, j, k)
    = extend_left a b fuel alo blo (i, j, k).
Proof.
  induction fuel as [|fuel IH]; intros extra i j k Hi.
  - destruct extra as [|extra]; simpl; [reflexivity|].
    replace (alo <? i) with false; [reflexivity|].
    symmetry. apply Z.ltb_ge. lia.
  - simpl. destruct ((alo <? i) && (blo <? j) && same_char a b (i - 1) (j - 1));
      [|reflexivity].
    apply IH. lia.
Qed.

Lemma extend_right_fuel a b ahi bhi fuel :
  forall extra i j k,
    ahi - (i + k) <= Z.of_nat fuel ->
    extend_right a b (fuel + extra) ahi bhi (i, j, k)
    = extend_right a b fuel ahi bhi (i, j, k).
Proof.
  induction fuel as [|fuel IH]; intros extra i j k Hi.
  - destruct extra as [|extra]; simpl; [reflexivity|].
    replace (i + k <? ahi) with false; [reflexivity|].
    symmetry. apply Z.ltb_ge. lia.
  - simpl.
    destruct ((i + k <? ahi) && (j + k <? bhi) && same_char a b (i + k) (j + k));
      [|reflexivity].
    apply IH. lia.
Qed.

Ltac msize_simpl :=
  repeat match goal with
         | |- context [msize (?i, ?j, ?k)] => change (msize (i, j, k)) with k
         | H : context [msize (?i, ?j, ?k)] |- _ =>
             change (msize (i, j, k)) with k in H
         end.

(** ** The loop over the queue *)

Lemma sum_of_app {X} (f : X -> Z) l1 l2 :
  sum_of f (l1 ++ l2) = sum_of f l1 + sum_of f l2.
Proof. induction l1 as [|x l1 IH]; simpl; [reflexivity|]. rewrite IH. lia. Qed.

Lemma matches_sum blocks : matches blocks = sum_of msize blocks.
Proof.
  unfold matches.
  assert (H : forall acc, fold_left (fun acc m => acc + msize m) blocks acc
                          = acc + sum_of msize blocks).
  { induction blocks as [|m blocks IH]; intros acc; simpl; [lia|].
    rewrite IH. lia. }
  rewrite H. lia.
Qed.

Lemma queue_widths_nonneg queue :
  Forall rect_ok queue ->
  0 <= sum_of width_a queue /\ 0 <= sum_of width_b queue /\ 0 <= queue_fuel queue.
Proof.
  unfold queue_fuel.
  induction 1 as [|[[[alo ahi] blo] bhi] queue Hr _ IH]; simpl; [lia|].
  unfold rect_ok in Hr. lia.
Qed.

(** The loop ends within [queue_fuel] turns, and the blocks it adds fit in
    the rectangles of the queue. *)
Lemma blocks_loop_spec a b fuel :
  forall queue acc,
    Forall rect_ok queue -> queue_fuel queue <= Z.of_nat fuel ->
    exists r, blocks_loop a b fuel queue acc = Some r /\
              sum_of msize acc <= sum_of msize r /\
              sum_of msize r <= sum_of msize acc + sum_of width_a queue /\
              sum_of msize r <= sum_of msize acc + sum_of width_b queue.
Proof.
  induction fuel as [|fuel IH]; intros queue acc Hok Hfuel.
  - destruct queue as [|[[[alo ahi] blo] bhi] queue]; simpl.
    + exists acc. repeat split; (reflexivity || lia).
    + inversion Hok as [|? ? Hr Hok']; subst. destruct Hr as [Ha Hb].
      pose proof (queue_widths_nonneg queue Hok') as (_ & _ & Hq).
      unfold queue_fuel in *. simpl in Hfuel. lia.
  - destruct queue as [|[[[alo ahi] blo] bhi] queue]; simpl.
    + exists acc. repeat split; (reflexivity || lia).
    + inversion Hok as [|? ? Hr Hok']; subst. destruct Hr as [Ha Hb].
      pose proof (queue_widths_nonneg queue Hok') as (Hwa & Hwb & Hq).
      pose proof (find_longest_match_box a b alo ahi blo bhi Ha Hb) as Hbox.
      destruct (find_longest_match a b alo ahi blo bhi) as [[i j] k].
      unfold in_box in Hbox. destruct Hbox as (Hi & Hj & Hk & Hik & Hjk).
      unfold queue_fuel in *. simpl in Hfuel.
      destruct (k =? 0) eqn:Hk0.
      * destruct (IH queue acc Hok' ltac:(lia)) as (r & Hr & H1 & H2 & H3).
        exists r. simpl. repeat split; try assumption; lia.
      * apply Z.eqb_neq in Hk0.
        match goal with |- context [blocks_loop a b fuel ?q ?acc'] =>
          assert (Hq2 : Forall rect_ok q /\
                        sum_of (fun r => 2 * width_a r + 1) q <= Z.of_nat fuel /\
                        sum_of width_a q + k <= ahi - alo + sum_of width_a queue /\
                        sum_of width_b q + k <= bhi - blo + sum_of width_b queue)
        end.
        { destruct ((alo <? i) && (blo <? j)) eqn:H1;
            destruct ((i + k <? ahi) && (j + k <? bhi)) eqn:H2;
            repeat match goal with
                   | H : _ && _ = true |- _ => apply andb_prop in H as [? ?]
                   | H : (_ <? _) = true |- _ => apply Z.ltb_lt in H
                   end;
            (split; [repeat (constructor; [unfold rect_ok; lia|]); assumption|]);
            simpl; lia. }
        destruct Hq2 as (Hok2 & Hf2 & Hwa2 & Hwb2).
        destruct (IH _ (acc ++ [(i, j, k)]) Hok2 Hf2) as (r & Hr & H1 & H2 & H3).
        exists r. rewrite sum_of_app in H1, H2, H3. simpl in *. msize_simpl.
        repeat split; try assumption; lia.
Qed.

(** ** Sorting and collapsing keep the number of matches *)

Lemma sum_insert_match x l : sum_of msize (insert_match x l) = msize x + sum_of msize l.
Proof.
  induction l as [|y l IH]; simpl; [reflexivity|].
  destruct (match_leb x y); simpl; [reflexivity|]. rewrite IH. lia.
Qed.

Lemma sum_sort_matches l : sum_of msize (sort_matches l) = sum_of msize l.
Proof.
  induction l as [|x l IH]; simpl; [reflexivity|].
  rewrite sum_insert_match, IH. reflexivity.
Qed.

Lemma sum_collapse blocks :
  forall cur non_adjacent,
    sum_of msize (fst (collapse blocks cur non_adjacent))
      + msize (snd (collapse blocks cur non_adjacent))
    = sum_of msize non_adjacent + msize cur + sum_of msize blocks.
Proof.
  induction blocks as [|[[i2 j2] k2] blocks IH]; intros [[i1 j1] k1] na; simpl.
  - lia.
  - destruct ((i1 + k1 =? i2) && (j1 + k1 =? j2)).
    + rewrite IH. msize_simpl. lia.
    + rewrite IH. destruct (k1 =? 0) eqn:Hk.
      * apply Z.eqb_eq in Hk. msize_simpl. lia.
      * rewrite sum_of_app. simpl. msize_simpl. lia.
Qed.

(** [get_matching_blocks] returns, and its blocks hold at most as many
    elements as either sequence. *)
Lemma get_matching_blocks_spec a b :
  exists blocks, get_matching_blocks a b = Some blocks /\
                 0 <= matches blocks /\
                 matches blocks <= len a /\ matches blocks <= len b.
Proof.
  unfold get_matching_blocks.
  destruct (blocks_loop_spec a b (S (2 * length a)) [(0, len a, 0, len b)] [])
    as (r & Hr & H1 & H2 & H3).
  - constructor; [|constructor]. unfold rect_ok, len. lia.
  - unfold queue_fuel, len. simpl. lia.
  - rewrite Hr.
    pose proof (sum_collapse (sort_matches r) (0, 0, 0) []) as Hc.
    destruct (collapse (sort_matches r) (0, 0, 0) []) as [na [[i1 j1] k1]].
    rewrite sum_sort_matches in Hc. simpl in Hc. msize_simpl.
    eexists. split; [reflexivity|].
    rewrite matches_sum, sum_of_app. simpl. msize_simpl.
    assert (Hna : sum_of msize (if k1 =? 0 then na else na ++ [(i1, j1, k1)])
                  = sum_of msize r).
    { destruct (k1 =? 0) eqn:Hk.
      - apply Z.eqb_eq in Hk. lia.
      - rewrite sum_of_app. simpl. msize_simpl. lia. }
    rewrite Hna. simpl in *. lia.
Qed.

Lemma ratio_spec a b :
  exists m, ratio a b = Some (calculate_ratio m (len a + len b)) /\
            0 <= m /\ m <= len a /\ m <= len b.
Proof.
  destruct (get_matching_blocks_spec a b) as (blocks & Hb & H0 & H1 & H2).
  exists (matches blocks). unfold ratio. rewrite Hb. simpl. auto.
Qed.

Lemma calculate_ratio_range m n :
  0 <= m -> 2 * m <= n -> (0 <= calculate_ratio m n <= 1)%Q.
Proof.
  intros Hm Hn. unfold calculate_ratio.
  destruct (n =? 0) eqn:Hz.
  - split; unfold Qle; simpl; lia.
  - apply Z.eqb_neq in Hz.
    split; unfold Qle; simpl; rewrite ?Z2Pos.id by lia; lia.
Qed.

End DifflibFacts.

(* ===================================================================== *)
(** * Properties of [similar] *)
(* ===================================================================== *)

Lemma Qltb_lt x y : Qltb x y = true <-> (x < y)%Q.
Proof.
  unfold Qltb. rewrite negb_true_iff. split.
  - intros H. apply Qnot_le_lt. intros Hle.
    apply Qle_bool_iff in Hle. congruence.
  - intros H. destruct (Qle_bool y x) eqn:E; [|reflexivity].
    apply Qle_bool_iff in E. exfalso. eapply Qlt_not_le; eassumption.
Qed.

Lemma Qltb_ge x y : Qltb x y = false <-> (y <= x)%Q.
Proof.
  unfold Qltb. rewrite negb_false_iff. apply Qle_bool_iff.
Qed.

(** C9, as amended: for all strings [a] and [b], [similar(a, b)] never
    throws (the matcher returns a ratio, within the fuel of the model) and
    its value lies in the range [0, 1].  Symmetry is not part of it: the
    ratio depends on the order of its arguments. *)
Theorem similar_total_in_unit_interval (a b : str) :
  Difflib.ratio a b = Some (similar a b) /\ (0 <= similar a b <= 1)%Q.
Proof.
  destruct (DifflibFacts.ratio_spec a b) as (m & Hr & H0 & Ha & Hb).
  unfold similar. rewrite Hr. simpl. split; [reflexivity|].
  apply DifflibFacts.calculate_ratio_range; lia.
Qed.

(** C9 as stated fails: [similar("tide", "diet")] is 0.25 and
    [similar("diet", "tide")] is 0.5. *)
Lemma similar_not_symmetric :
  (similar (of_string "tide") (of_string "diet") == 1 # 4)%Q /\
  (similar (of_string "diet") (of_string "tide") == 1 # 2)%Q /\
  ~ (similar (of_string "tide") (of_string "diet")
     == similar (of_string "diet") (of_string "tide"))%Q.
Proof. vm_compute. repeat split; discriminate. Qed.

(* ===================================================================== *)
(** * Properties of [merge_subtitles]: the sort and the final walk *)
(* ===================================================================== *)

Lemma insert_by_time_elem x y l :
  y ∈ insert_by_time x l <-> y = x \/ y ∈ l.
Proof.
  induction l as [|z l IH]; simpl.
  - rewrite list_elem_of_singleton. split.
    + intros ->. left. reflexivity.
    + intros [H|H]; [exact H|inversion H].
  - destruct (Qle_bool (fst x) (fst z)).
    + apply elem_of_cons.
    + rewrite !elem_of_cons, IH. tauto.
Qed.

Lemma insert_by_time_sorted x l :
  StronglySorted time_le l -> StronglySorted time_le (insert_by_time x l).
Proof.
  induction l as [|y l IH]; intros Hs; simpl.
  - repeat constructor.
  - apply StronglySorted_cons in Hs as [Hy Hl].
    destruct (Qle_bool (fst x) (fst y)) eqn:E.
    + apply Qle_bool_iff in E.
      constructor; [constructor; assumption|].
      constructor; [exact E|].
      rewrite Forall_forall in *. intros z Hz.
      unfold time_le in *. eapply Qle_trans; [exact E|apply Hy, Hz].
    + constructor; [apply IH, Hl|].
      rewrite Forall_forall in *. intros z Hz.
      apply insert_by_time_elem in Hz as [->|Hz]; [|apply Hy, Hz].
      unfold time_le. apply Qlt_le_weak, Qltb_lt. unfold Qltb. rewrite E. reflexivity.
Qed.

Lemma sort_by_time_sorted l : StronglySorted time_le (sort_by_time l).
Proof.
  induction l as [|x l IH]; simpl; [constructor|].
  apply insert_by_time_sorted, IH.
Qed.

Lemma sort_by_time_elem x l : x ∈ sort_by_time l <-> x ∈ l.
Proof.
  induction l as [|y l IH]; simpl; [reflexivity|].
  rewrite insert_by_time_elem, IH, elem_of_cons. reflexivity.
Qed.

Lemma existsb_elements (f : str -> bool) (l : list str) :
  existsb f (elements (list_to_set l : gset str)) = existsb f l.
Proof.
  apply eq_true_iff_eq. rewrite !existsb_exists.
  split; intros (x & Hx & Hf); exists x; (split; [|exact Hf]);
    apply list_elem_of_In; apply list_elem_of_In in Hx.
  - apply elem_of_elements, elem_of_list_to_set in Hx. exact Hx.
  - apply elem_of_elements, elem_of_list_to_set. exact Hx.
Qed.

Lemma too_similar_kept (final : list entry) (text : str) :
  (len text =? 0) || (len text <? 2) = false ->
  too_similar (list_to_set (map snd final)) text = negb (kept_after final text).
Proof.
  intros Hlen. unfold too_similar, kept_after.
  rewrite existsb_elements.
  apply orb_false_elim in Hlen as [_ Hlen]. apply Z.ltb_ge in Hlen.
  replace (2 <=? len text) with true by (symmetry; apply Z.leb_le; lia).
  simpl. induction final as [|k final IH]; simpl; [reflexivity|].
  rewrite IH. rewrite negb_andb, negb_involutive. reflexivity.
Qed.

(** One turn of the walk, on the entries kept so far. *)
Lemma dedup_step_spec (final : list entry) (e : entry) :
  dedup_step (list_to_set (map snd final), final) e
  = let final' := final ++ (if kept_after final (clean (snd e))
                            then [(fst e, clean (snd e))] else []) in
    (list_to_set (map snd final'), final').
Proof.
  destruct e as [time text]. unfold dedup_step. cbn [fst snd].
  destruct ((len (clean text) =? 0) || (len (clean text) <? 2)) eqn:Hlen.
  - assert (Hk : kept_after final (clean text) = false).
    { unfold kept_after. apply orb_prop in Hlen as [H|H].
      - apply Z.eqb_eq in H. rewrite H. reflexivity.
      - apply Z.ltb_lt in H.
        replace (2 <=? len (clean text)) with false; [reflexivity|].
        symmetry. apply Z.leb_gt. exact H. }
    rewrite Hk. cbn zeta. rewrite app_nil_r. reflexivity.
  - rewrite too_similar_kept by exact Hlen.
    destruct (kept_after final (clean text)); cbn [negb]; cbn zeta.
    + rewrite map_app. cbn [map snd]. f_equal.
      rewrite list_to_set_app_L. cbn [list_to_set].
      rewrite (right_id_L ∅ (∪)). apply (comm_L (∪)).
    + rewrite app_nil_r. reflexivity.
Qed.

Lemma dedup_fold_seen l :
  fold_left dedup_step l (∅, [])
  = (list_to_set (map snd (dedup_walk l)), dedup_walk l).
Proof.
  unfold dedup_walk. induction l as [|e l IH] using rev_ind; [reflexivity|].
  rewrite fold_left_app. cbn [fold_left]. rewrite IH. cbn [snd].
  rewrite dedup_step_spec. reflexivity.
Qed.

(** The walk decides on an entry from the entries kept before it. *)
Lemma dedup_walk_snoc l e :
  dedup_walk (l ++ [e])
  = dedup_walk l ++ (if kept_after (dedup_walk l) (clean (snd e))
                     then [(fst e, clean (snd e))] else []).
Proof.
  unfold dedup_walk at 1. rewrite fold_left_app. cbn [fold_left].
  rewrite dedup_fold_seen, dedup_step_spec. reflexivity.
Qed.

Lemma dedup_walk_app l1 l2 : exists tail, dedup_walk (l1 ++ l2) = dedup_walk l1 ++ tail.
Proof.
  induction l2 as [|e l2 IH] using rev_ind.
  - exists []. rewrite !app_nil_r. reflexivity.
  - destruct IH as [tail IH]. rewrite app_assoc, dedup_walk_snoc, IH.
    eexists. rewrite <- app_assoc. reflexivity.
Qed.

(** An entry of the output is an entry of the walked list, with its text
    cleaned. *)
Lemma dedup_walk_origin l x :
  x ∈ dedup_walk l -> exists y, y ∈ l /\ x = (fst y, clean (snd y)).
Proof.
  induction l as [|e l IH] using rev_ind; intros Hx.
  - inversion Hx.
  - rewrite dedup_walk_snoc in Hx. apply elem_of_app in Hx as [Hx|Hx].
    + destruct (IH Hx) as (y & Hy & Hxy). exists y.
      split; [apply elem_of_app; left; exact Hy|exact Hxy].
    + destruct (kept_after (dedup_walk l) (clean (snd e))); [|inversion Hx].
      apply list_elem_of_singleton in Hx as ->. exists e.
      split; [apply elem_of_app; right; apply list_elem_of_singleton|];
        reflexivity.
Qed.

Lemma dedup_walk_sorted l :
  StronglySorted time_le l -> StronglySorted ordered_distinct (dedup_walk l).
Proof.
  induction l as [|e l IH] using rev_ind; intros Hs; [constructor|].
  apply StronglySorted_app in Hs as (Hle & Hl & _).
  specialize (IH Hl). rewrite dedup_walk_snoc.
  destruct (kept_after (dedup_walk l) (clean (snd e))) eqn:Hk;
    [|rewrite app_nil_r; exact IH].
  apply StronglySorted_app_2; [|exact IH|repeat constructor].
  intros x1 x2 Hx1 Hx2. apply list_elem_of_singleton in Hx2 as ->.
  split; cbn [fst snd].
  - destruct (dedup_walk_origin l x1 Hx1) as (y & Hy & ->). cbn [fst].
    apply (Hle y e Hy). apply list_elem_of_singleton. reflexivity.
  - unfold kept_after in Hk. apply andb_prop in Hk as [_ Hk].
    rewrite forallb_forall in Hk.
    apply list_elem_of_In in Hx1. specialize (Hk x1 Hx1).
    apply negb_true_iff in Hk. intros Hlt.
    apply Qltb_lt in Hlt. congruence.
Qed.

(** C1, as amended: the output of [merge_subtitles] is sorted ascending by
    timestamp; of any two of its entries the later one's text, compared
    with the earlier one's ([similar(later, earlier)], the order in which
    the code compares), scores at most 0.7; and the walk over the sorted
    entries is greedy: an entry is kept exactly when its cleaned text has
    two characters or more and is not too similar to an entry kept before
    it, so that of two near-duplicates the earlier one stays. *)
Theorem merge_subtitles_sorted_dedup (video_subs audio_subs : list entry) :
  let sorted := sort_by_time (merged (step2 video_subs audio_subs)) in
  let out := merge_subtitles video_subs audio_subs in
  StronglySorted ordered_distinct out /\
  forall pre e post,
    sorted = pre ++ e :: post ->
    exists tail,
      out = dedup_walk pre
            ++ (if kept_after (dedup_walk pre) (clean (snd e))
                then [(fst e, clean (snd e))] else [])
            ++ tail.
Proof.
  intros sorted out. split.
  - apply dedup_walk_sorted, sort_by_time_sorted.
  - intros pre e post Hsplit. unfold out, merge_subtitles. fold sorted.
    rewrite Hsplit.
    replace (pre ++ e :: post) with ((pre ++ [e]) ++ post)
      by (rewrite <- app_assoc; reflexivity).
    destruct (dedup_walk_app (pre ++ [e]) post) as [tail Ht].
    exists tail. rewrite Ht, dedup_walk_snoc, <- app_assoc. reflexivity.
Qed.

Lemma merge_subtitles_sorted_dedup_witness :
  let first := (1%Q, [27979; 35797; 23383; 24149]) in
  let second := ((12 # 10)%Q, [27979; 35797; 23383; 24149; 21834]) in
  exists tail, merge_subtitles [first; second] [] = [first] ++ tail.
Proof.
  intros first second.
  destruct (merge_subtitles_sorted_dedup [first; second] []) as [_ H].
  destruct (H [first] second []) as [tail Ht].
  - vm_compute. reflexivity.
  - exists tail. rewrite Ht. vm_compute. reflexivity.
Defined.

(** C1 as stated fails: both entries are in the output, and
    [similar("aba", "babba")] is 0.75 (while [similar("babba", "aba")],
    which the walk computes, is 0.5). *)
Lemma merge_subtitles_keeps_similar_pair :
  merge_subtitles [(1%Q, of_string "aba"); (10%Q, of_string "babba")] []
  = [(1%Q, of_string "aba"); (10%Q, of_string "babba")] /\
  (7 # 10 < similar (of_string "aba") (of_string "babba"))%Q.
Proof. vm_compute. split; reflexivity. Qed.

(* ===================================================================== *)
(** * Properties of [merge_subtitles]: step 1 *)
(* ===================================================================== *)

Lemma window_bounds tv t :
  t ∈ window tv <-> Z.max 0 (tv - 2) <= t <= tv + 2.
Proof.
  unfold window, py_range. rewrite list_elem_of_In, in_map_iff. split.
  - intros (n & <- & Hn). apply in_seq in Hn. lia.
  - intros H. exists (Z.to_nat (t - Z.max 0 (tv - 2))). split; [lia|].
    apply in_seq. lia.
Qed.

Lemma best_step_inv audio_dict used v_text done acc t :
  best_inv audio_dict used v_text done acc ->
  best_inv audio_dict used v_text (done ++ [t])
           (best_step audio_dict used v_text acc t).
Proof.
  destruct acc as [best score]. intros [Hbest Hall]. cbn [fst snd] in *.
  assert (Hkeep : best_inv audio_dict used v_text done (best, score) ->
                  (forall a', audio_dict !! t = Some a' -> t ∉ used ->
                     (similar v_text a' <= score)%Q \/ (similar v_text a' <= 3 # 10)%Q) ->
                  best_inv audio_dict used v_text (done ++ [t]) (best, score)).
  { intros _ Hnew. split; cbn [fst snd].
    - destruct best as [[a_text t0]|]; [|exact Hbest].
      destruct Hbest as (? & ? & ? & ? & ?).
      repeat split; try assumption. apply elem_of_app. left. assumption.
    - intros t' a' Ht' Hlk Hu. apply elem_of_app in Ht' as [Ht'|Ht'].
      + eapply Hall; eassumption.
      + apply list_elem_of_singleton in Ht' as ->. apply Hnew; assumption. }
  unfold best_step.
  destruct (audio_dict !! t) as [a_text|] eqn:Hlk.
  - destruct (decide (t ∈ used)) as [Hin|Hnin].
    + apply Hkeep; [split; assumption|]. intros a' _ Hu. contradiction.
    + destruct (Qltb score (similar v_text a_text)
                && Qltb (3 # 10) (similar v_text a_text)) eqn:Hc.
      * apply andb_prop in Hc as [Hc1 Hc2].
        apply Qltb_lt in Hc1, Hc2.
        split; cbn [fst snd].
        -- repeat split; try assumption.
           apply elem_of_app. right. apply list_elem_of_singleton. reflexivity.
        -- intros t' a' Ht' Hlk' Hu. apply elem_of_app in Ht' as [Ht'|Ht'].
           ++ destruct (Hall t' a' Ht' Hlk' Hu) as [H|H]; [left|right; exact H].
              eapply Qle_trans; [exact H|apply Qlt_le_weak, Hc1].
           ++ apply list_elem_of_singleton in Ht' as ->.
              rewrite Hlk in Hlk'. inversion Hlk'; subst. left. apply Qle_refl.
      * apply Hkeep; [split; assumption|]. intros a' Ha' _.
        inversion Ha'; subst a'.
        apply andb_false_iff in Hc as [Hc|Hc]; apply Qltb_ge in Hc; auto.
  - apply Hkeep; [split; assumption|]. intros a' Ha'. discriminate.
Qed.

Lemma best_fold_inv audio_dict used v_text ts :
  forall done acc,
    best_inv audio_dict used v_text done acc ->
    best_inv audio_dict used v_text (done ++ ts)
             (fold_left (best_step audio_dict used v_text) ts acc).
Proof.
  induction ts as [|t ts IH]; intros done acc Hinv; simpl.
  - rewrite app_nil_r. exact Hinv.
  - replace (done ++ t :: ts) with ((done ++ [t]) ++ ts)
      by (rewrite <- app_assoc; reflexivity).
    apply IH, best_step_inv, Hinv.
Qed.

Lemma matched_Some best a_text t :
  matched best = Some (a_text, t) -> best = Some (a_text, t) /\ a_text <> [].
Proof.
  destruct best as [[[|c s] t0]|]; simpl; intros H; try discriminate.
  inversion H; subst. split; [reflexivity|discriminate].
Qed.

(** A match is the unused audio entry of the window that scores best, and
    above 0.3, against the video text. *)
Lemma find_best_spec audio_dict used tv v_text a_text t :
  matched (fst (find_best audio_dict used tv v_text)) = Some (a_text, t) ->
  Z.max 0 (tv - 2) <= t <= tv + 2 /\
  audio_dict !! t = Some a_text /\ (t ∉ used) /\
  (3 # 10 < similar v_text a_text)%Q /\
  forall t' a', Z.max 0 (tv - 2) <= t' <= tv + 2 ->
                audio_dict !! t' = Some a' -> t' ∉ used ->
                (similar v_text a' <= similar v_text a_text)%Q.
Proof.
  intros Hm. apply matched_Some in Hm as [Hm _].
  pose proof (best_fold_inv audio_dict used v_text (window tv) [] (None, 0%Q)) as Hinv.
  unfold find_best in Hm. rewrite app_nil_l in Hinv.
  destruct (fold_left (best_step audio_dict used v_text) (window tv) (None, 0%Q))
    as [best score].
  cbn [fst] in Hm. subst best.
  destruct Hinv as [Hbest Hall].
  { split; [reflexivity|]. intros t' a' Ht'. inversion Ht'. }
  cbn [fst snd] in *. destruct Hbest as (Hin & Hlk & Hu & Hs & Hgt).
  split; [apply window_bounds, Hin|]. repeat split; try assumption.
  - rewrite <- Hs. exact Hgt.
  - intros t' a' Ht' Hlk' Hu'. apply window_bounds in Ht'.
    rewrite <- Hs.
    destruct (Hall t' a' Ht' Hlk' Hu') as [H|H]; [exact H|].
    eapply Qle_trans; [exact H|apply Qlt_le_weak, Hgt].
Qed.

Lemma emit_used used seen merged time text :
  used_audio (emit used seen merged time text) = used.
Proof. unfold emit. destruct (decide (text ∈ seen)); reflexivity. Qed.

Lemma emit_merged used seen l time text :
  merged (emit used seen l time text)
  = l ++ (if decide (text ∈ seen) then [] else [(time, text)]).
Proof.
  unfold emit. destruct (decide (text ∈ seen)); simpl;
    [rewrite app_nil_r|]; reflexivity.
Qed.

(** C2, as amended: for every video entry that step 1 matches to an audio
    entry (the unused entry of the 2-second window with the best
    similarity, above 0.3), the second of the audio entry is marked as
    consumed and at most one entry is emitted at the video timestamp: the
    longer of the two texts (the video text on equal lengths) when that
    text was not emitted before, and nothing when it was.  In particular
    the video stream [(5, "hello world")] and the audio stream
    [(5, "hello world expanded")] merge to the single entry
    (5, "hello world expanded"). *)
Theorem video_step_matched :
  (forall (audio_dict : gmap Z str) (st : merge_state) (v_time : Q)
          (v_text a_text : str) (t : Z),
      matched (fst (find_best audio_dict (used_audio st) (py_int v_time) v_text))
      = Some (a_text, t) ->
      let tv := py_int v_time in
      let st' := video_step audio_dict st (v_time, v_text) in
      let final_text := if len v_text <? len a_text then a_text else v_text in
      (Z.max 0 (tv - 2) <= t <= tv + 2 /\
       audio_dict !! t = Some a_text /\ (t ∉ used_audio st) /\
       (3 # 10 < similar v_text a_text)%Q /\
       forall t' a', Z.max 0 (tv - 2) <= t' <= tv + 2 ->
                     audio_dict !! t' = Some a' -> t' ∉ used_audio st ->
                     (similar v_text a' <= similar v_text a_text)%Q) /\
      used_audio st' = {[t]} ∪ used_audio st /\
      merged st' = merged st ++ (if decide (final_text ∈ seen_texts st) then []
                                 else [(v_time, final_text)])) /\
  merge_subtitles [(5%Q, of_string "hello world")]
                  [(5%Q, of_string "hello world expanded")]
  = [(5%Q, of_string "hello world expanded")].
Proof.
  split; [|vm_compute; reflexivity].
  intros audio_dict st v_time v_text a_text t Hm tv st' final_text.
  split; [apply find_best_spec, Hm|].
  unfold st', video_step. fold tv in Hm |- *. rewrite Hm.
  rewrite emit_used, emit_merged. split; reflexivity.
Qed.

Lemma video_step_matched_witness :
  merged (video_step (audio_dict_of [(5%Q, of_string "hello world expanded")])
                     (MergeState ∅ ∅ []) (5%Q, of_string "hello world"))
  = [(5%Q, of_string "hello world expanded")].
Proof.
  destruct video_step_matched as [H _].
  destruct (H (audio_dict_of [(5%Q, of_string "hello world expanded")])
              (MergeState ∅ ∅ []) 5%Q (of_string "hello world")
              (of_string "hello world expanded") 5) as (_ & _ & Hmerged).
  - vm_compute. reflexivity.
  - rewrite Hmerged. vm_compute. reflexivity.
Defined.

(** C2 as stated fails: the second video entry is matched to the audio
    entry of second 10, and no entry is emitted at timestamp 10, the text
    having been emitted at timestamp 0. *)
Lemma matched_entry_not_emitted :
  let hw := of_string "hello world" in
  let video_subs := [(0%Q, hw); (10%Q, hw)] in
  let audio_subs := [(10%Q, hw)] in
  let st := video_step (audio_dict_of audio_subs) (MergeState ∅ ∅ []) (0%Q, hw) in
  matched (fst (find_best (audio_dict_of audio_subs) (used_audio st)
                          (py_int 10) hw)) = Some (hw, 10) /\
  merged (video_step (audio_dict_of audio_subs) st (10%Q, hw)) = merged st /\
  merge_subtitles video_subs audio_subs = [(0%Q, hw)].
Proof. vm_compute. repeat split; reflexivity. Qed.

(* ===================================================================== *)
(** * Properties of the floats *)
(* ===================================================================== *)

Module FloatFacts.

(** ** Rounding a quotient *)

Lemma round_div_ge a b j : 0 < b -> j * b <= a -> j <= Float.round_div a b.
Proof.
  intros Hb Hj. unfold Float.round_div.
  assert (Hq : j <= a / b) by (apply Z.div_le_lower_bound; lia).
  destruct (2 * (a mod b) <? b); [exact Hq|].
  destruct (b <? 2 * (a mod b)); [lia|].
  destruct (Z.even (a / b)); lia.
Qed.

Lemma round_div_le a b j : 0 < b -> a <= j * b -> Float.round_div a b <= j.
Proof.
  intros Hb Hj. unfold Float.round_div.
  pose proof (Z.div_mod a b ltac:(lia)) as Hdm.
  pose proof (Z.mod_pos_bound a b Hb) as Hm.
  assert (Hq : a / b <= j) by (apply Z.div_le_upper_bound; lia).
  destruct (2 * (a mod b) <? b) eqn:E1; [exact Hq|].
  apply Z.ltb_ge in E1.
  assert (a / b < j) by nia.
  destruct (b <? 2 * (a mod b)); [lia|].
  destruct (Z.even (a / b)); lia.
Qed.

(** ** The exponent of the last place *)

(** Below 2 the last place is 2^-52 or finer. *)
Lemma ulp_exponent_below_2 n d :
  0 < n -> 0 < d -> n < 2 * d -> Float.ulp_exponent n d <= -52.
Proof.
  intros Hn Hd Hlt. unfold Float.ulp_exponent.
  assert (Hk : Z.log2 n - Z.log2 d <= 1).
  { assert (Z.log2 n <= Z.log2 (2 * d)) by (apply Z.log2_le_mono; lia).
    rewrite Z.log2_double in H by lia. lia. }
  set (k := Z.log2 n - Z.log2 d) in *.
  destruct (0 <=? k) eqn:E0.
  - apply Z.leb_le in E0.
    destruct (2 ^ k * d <=? n) eqn:E1; [|lia].
    apply Z.leb_le in E1.
    assert (k <= 0); [|lia].
    destruct (Z.eq_dec k 1) as [->|Hne]; [|lia].
    change (2 ^ 1) with 2 in E1. lia.
  - apply Z.leb_gt in E0. destruct (d <=? 2 ^ (- k) * n); lia.
Qed.

(** Between 1/2 and 1 the last place is 2^-53. *)
Lemma ulp_exponent_half n d :
  0 < n -> 0 < d -> d <= 2 * n -> n < d -> Float.ulp_exponent n d = -53.
Proof.
  intros Hn Hd Hge Hlt. unfold Float.ulp_exponent.
  assert (Hk0 : Z.log2 n - Z.log2 d <= 0).
  { assert (Z.log2 n <= Z.log2 d) by (apply Z.log2_le_mono; lia). lia. }
  assert (Hk1 : -1 <= Z.log2 n - Z.log2 d).
  { assert (Z.log2 d <= Z.log2 (2 * n)) by (apply Z.log2_le_mono; lia).
    rewrite Z.log2_double in H by lia. lia. }
  set (k := Z.log2 n - Z.log2 d) in *.
  assert (Hcases : k = 0 \/ k = -1) by lia.
  destruct Hcases as [->| ->].
  - change (0 <=? 0) with true. cbv iota. change (2 ^ 0) with 1.
    replace (1 * d <=? n) with false by (symmetry; apply Z.leb_gt; lia).
    reflexivity.
  - change (0 <=? -1) with false. cbv iota. change (2 ^ (- -1)) with 2.
    replace (d <=? 2 * n) with true by (symmetry; apply Z.leb_le; lia).
    reflexivity.
Qed.

(** When the last place is a unit or coarser, the number is beyond
    2^51 times it. *)
Lemma ulp_exponent_large n d :
  0 < n -> 0 < d ->
  0 <= Float.ulp_exponent n d ->
  2 ^ 51 * (d * 2 ^ Float.ulp_exponent n d) < n.
Proof.
  intros Hn Hd. unfold Float.ulp_exponent. set (k := Z.log2 n - Z.log2 d).
  set (l := if (if 0 <=? k then 2 ^ k * d <=? n else d <=? 2 ^ (- k) * n)
            then k else k - 1).
  intros He.
  assert (Hl : l <= k) by (unfold l; destruct (if 0 <=? k then _ else _); lia).
  assert (Hmax : Z.max (-1074) (l - 52) = l - 52) by lia.
  rewrite Hmax in *.
  pose proof (Z.log2_spec n Hn) as [Hn1 _].
  pose proof (Z.log2_spec d Hd) as [_ Hd2].
  pose proof (Z.log2_nonneg d) as Hld.
  assert (Hpow : 2 ^ (Z.log2 d + 1) * 2 ^ 51 * 2 ^ (l - 52) <= 2 ^ Z.log2 n).
  { rewrite <- !Z.pow_add_r by lia. apply Z.pow_le_mono_r; lia. }
  assert (H0 : 0 < 2 ^ 51 * 2 ^ (l - 52)).
  { apply Z.mul_pos_pos; apply Z.pow_pos_nonneg; lia. }
  nia.
Qed.

(** ** Bounds that the rounding keeps *)

(** A bound [A / 2^s] from below, when the last place is 2^-s or finer. *)
Lemma round_pos_ge n d A s :
  0 < n -> 0 < d -> 0 <= s ->
  Float.ulp_exponent n d < 0 -> Float.ulp_exponent n d <= - s ->
  A * d <= n * 2 ^ s ->
  (A # Z.to_pos (2 ^ s) <= Float.round_pos n d)%Q.
Proof.
  intros Hn Hd Hs He0 Hes Hb. unfold Float.round_pos.
  set (e := Float.ulp_exponent n d) in *.
  replace (0 <=? e) with false by (symmetry; apply Z.leb_gt; lia).
  assert (Hps : 0 < 2 ^ s) by (apply Z.pow_pos_nonneg; lia).
  assert (Hpe : 0 < 2 ^ (- e)) by (apply Z.pow_pos_nonneg; lia).
  assert (Hsplit : 2 ^ (- e) = 2 ^ s * 2 ^ (- e - s)).
  { rewrite <- Z.pow_add_r by lia. f_equal. lia. }
  assert (Hpr : 0 < 2 ^ (- e - s)) by (apply Z.pow_pos_nonneg; lia).
  assert (HM : A * 2 ^ (- e - s) <= Float.round_div (n * 2 ^ (- e)) d).
  { apply round_div_ge; [exact Hd|]. rewrite Hsplit. nia. }
  unfold Qle. cbn [Qnum Qden]. rewrite !Z2Pos.id by lia.
  generalize dependent (Float.round_div (n * 2 ^ (- e)) d). intros M HM.
  rewrite Hsplit. nia.
Qed.

(** A bound [A / 2^s] from above. *)
Lemma round_pos_le n d A s :
  0 < n -> 0 < d -> 0 <= s ->
  Float.ulp_exponent n d < 0 -> Float.ulp_exponent n d <= - s ->
  n * 2 ^ s <= A * d ->
  (Float.round_pos n d <= A # Z.to_pos (2 ^ s))%Q.
Proof.
  intros Hn Hd Hs He0 Hes Hb. unfold Float.round_pos.
  set (e := Float.ulp_exponent n d) in *.
  replace (0 <=? e) with false by (symmetry; apply Z.leb_gt; lia).
  assert (Hps : 0 < 2 ^ s) by (apply Z.pow_pos_nonneg; lia).
  assert (Hpe : 0 < 2 ^ (- e)) by (apply Z.pow_pos_nonneg; lia).
  assert (Hsplit : 2 ^ (- e) = 2 ^ s * 2 ^ (- e - s)).
  { rewrite <- Z.pow_add_r by lia. f_equal. lia. }
  assert (Hpr : 0 < 2 ^ (- e - s)) by (apply Z.pow_pos_nonneg; lia).
  assert (HM : Float.round_div (n * 2 ^ (- e)) d <= A * 2 ^ (- e - s)).
  { apply round_div_le; [exact Hd|]. rewrite Hsplit. nia. }
  unfold Qle. cbn [Qnum Qden]. rewrite !Z2Pos.id by lia.
  generalize dependent (Float.round_div (n * 2 ^ (- e)) d). intros M HM.
  rewrite Hsplit. nia.
Qed.

(** An integer up to 2^51 from below. *)
Lemma round_pos_ge_int n d K :
  0 < n -> 0 < d -> 0 < K <= 2 ^ 51 -> K * d <= n ->
  (inject_Z K <= Float.round_pos n d)%Q.
Proof.
  intros Hn Hd HK Hb.
  destruct (Z_lt_le_dec (Float.ulp_exponent n d) 0) as [He|He].
  - apply (round_pos_ge n d K 0 Hn Hd); try lia.
  - pose proof (ulp_exponent_large n d Hn Hd He) as Hbig.
    unfold Float.round_pos.
    set (e := Float.ulp_exponent n d) in *.
    replace (0 <=? e) with true by (symmetry; apply Z.leb_le; lia).
    assert (Hpe : 0 < 2 ^ e) by (apply Z.pow_pos_nonneg; lia).
    assert (HM : 2 ^ 51 <= Float.round_div n (d * 2 ^ e)).
    { apply round_div_ge; [lia|lia]. }
    unfold Qle, inject_Z. cbn [Qnum Qden]. nia.
Qed.

(** An integer up to 2^51 from above. *)
Lemma round_pos_le_int n d K :
  0 < n -> 0 < d -> 0 < K <= 2 ^ 51 -> n <= K * d ->
  (Float.round_pos n d <= inject_Z K)%Q.
Proof.
  intros Hn Hd HK Hb.
  destruct (Z_lt_le_dec (Float.ulp_exponent n d) 0) as [He|He].
  - apply (round_pos_le n d K 0 Hn Hd); try lia.
  - pose proof (ulp_exponent_large n d Hn Hd He) as Hbig.
    exfalso.
    assert (Hpe : 0 < 2 ^ Float.ulp_exponent n d) by (apply Z.pow_pos_nonneg; lia).
    nia.
Qed.


Lemma round_div_nonneg a b : 0 <= a -> 0 < b -> 0 <= Float.round_div a b.
Proof. intros Ha Hb. apply round_div_ge; [exact Hb|lia]. Qed.

Lemma round_pos_nonneg n d : 0 < n -> 0 < d -> (0 <= Float.round_pos n d)%Q.
Proof.
  intros Hn Hd. unfold Float.round_pos.
  set (e := Float.ulp_exponent n d).
  destruct (0 <=? e) eqn:E.
  - apply Z.leb_le in E.
    assert (0 < 2 ^ e) by (apply Z.pow_pos_nonneg; lia).
    pose proof (round_div_nonneg n (d * 2 ^ e) ltac:(lia) ltac:(lia)).
    unfold Qle, inject_Z. cbn [Qnum Qden]. nia.
  - apply Z.leb_gt in E.
    assert (0 < 2 ^ (- e)) by (apply Z.pow_pos_nonneg; lia).
    pose proof (round_div_nonneg (n * 2 ^ (- e)) d ltac:(nia) Hd).
    unfold Qle. cbn [Qnum Qden]. lia.
Qed.

(** ** The rounding of a rational *)

(** The float nearest to the absolute value. *)
Lemma round_abs q : (Qabs (Float.round q) == Float.round (Qabs q))%Q.
Proof.
  destruct q as [[|n|n] d]; unfold Float.round; cbn [Qnum Qden Qabs Z.abs].
  - reflexivity.
  - apply Qabs_pos, round_pos_nonneg; reflexivity.
  - rewrite Qabs_opp. apply Qabs_pos, round_pos_nonneg; reflexivity.
Qed.

Lemma round_ge_int K q :
  0 < K <= 2 ^ 51 -> (inject_Z K <= q)%Q -> (inject_Z K <= Float.round q)%Q.
Proof.
  intros HK Hq. destruct q as [[|n|n] d]; unfold Float.round; cbn [Qnum Qden];
    unfold Qle, inject_Z in Hq; cbn [Qnum Qden] in Hq; try lia.
  apply round_pos_ge_int; lia.
Qed.

Lemma round_le_int K q :
  0 < K <= 2 ^ 51 -> (0 <= q)%Q -> (q <= inject_Z K)%Q ->
  (Float.round q <= inject_Z K)%Q.
Proof.
  intros HK H0 Hq. destruct q as [[|n|n] d]; unfold Float.round; cbn [Qnum Qden];
    unfold Qle, inject_Z in Hq, H0; cbn [Qnum Qden] in Hq, H0; try lia.
  - unfold Qle, inject_Z. cbn [Qnum Qden]. lia.
  - apply round_pos_le_int; lia.
Qed.

(** Below 2, a bound [A / 2^52] from above is kept. *)
Lemma round_le_below_2 A q :
  (0 <= q)%Q -> (q <= A # Z.to_pos (2 ^ 52))%Q -> A < 2 ^ 53 ->
  (Float.round q <= A # Z.to_pos (2 ^ 52))%Q.
Proof.
  intros H0 Hq HA. destruct q as [[|n|n] d]; unfold Float.round; cbn [Qnum Qden];
    unfold Qle in Hq, H0; cbn [Qnum Qden] in Hq, H0; try lia.
  - unfold Qle. cbn [Qnum Qden]. lia.
  - rewrite Z2Pos.id in Hq by reflexivity.
    assert (Hlt : Z.pos n < 2 * Z.pos d).
    { change (2 ^ 53) with (2 * 2 ^ 52) in HA.
      assert (0 < 2 ^ 52) by reflexivity. nia. }
    pose proof (ulp_exponent_below_2 (Z.pos n) (Z.pos d) ltac:(lia) ltac:(lia) Hlt).
    apply round_pos_le; lia.
Qed.

(** A float below 1 is at most the float before 1. *)
Lemma float_below_1 x :
  Float.is_float x = true -> (Qabs x < 1)%Q ->
  (Qabs x <= (2 ^ 53 - 1) # Z.to_pos (2 ^ 53))%Q.
Proof.
  intros Hf Hlt. unfold Float.is_float in Hf. apply Qeq_bool_iff in Hf.
  assert (Hpos : forall n d,
             (Float.round_pos (Z.pos n) (Z.pos d) == Z.pos n # d)%Q ->
             Z.pos n < Z.pos d ->
             Z.pos n * 2 ^ 53 <= (2 ^ 53 - 1) * Z.pos d).
  { intros n d Heq Hnd.
    destruct (Z_lt_le_dec (2 * Z.pos n) (Z.pos d)) as [Hsmall|Hhalf].
    - assert (0 < 2 ^ 53) by reflexivity.
      change (2 ^ 53) with (2 * 2 ^ 52) in *. nia.
    - pose proof (ulp_exponent_half (Z.pos n) (Z.pos d) ltac:(lia) ltac:(lia)
                    Hhalf Hnd) as He.
      unfold Float.round_pos in Heq. rewrite He in Heq.
      change (0 <=? -53) with false in Heq. cbv iota in Heq.
      change (- -53) with 53 in Heq.
      unfold Qeq in Heq. cbn [Qnum Qden] in Heq.
      rewrite Z2Pos.id in Heq by reflexivity.
      set (M := Float.round_div (Z.pos n * 2 ^ 53) (Z.pos d)) in *.
      assert (0 < 2 ^ 53) by reflexivity.
      assert (M < 2 ^ 53) by nia.
      nia. }
  destruct x as [[|n|n] d]; unfold Float.round in Hf; cbn [Qnum Qden] in Hf;
    cbn [Qabs Z.abs]; unfold Qlt in Hlt; cbn [Qabs Z.abs Qnum Qden] in Hlt;
    unfold Qle; cbn [Qnum Qden]; rewrite ?Z2Pos.id by reflexivity.
  - assert (0 < 2 ^ 53) by reflexivity. lia.
  - apply Hpos; [exact Hf|lia].
  - apply Hpos; [|lia].
    assert (H : (- - Float.round_pos (Z.pos n) (Z.pos d) == - (Z.neg n # d))%Q)
      by (rewrite Hf; reflexivity).
    rewrite Qopp_involutive in H. exact H.
Qed.

(** ** The difference and the product of floats *)

(** Timestamps with the same integer part are less than 1 apart, or both
    below 1. *)
Lemma py_int_cases x y :
  py_int x = py_int y ->
  (Qabs (x - y) < 1)%Q \/ ((Qabs x < 1)%Q /\ (Qabs y < 1)%Q).
Proof.
  destruct x as [xn xd], y as [yn yd]. unfold py_int. cbn [Qnum Qden].
  intros Heq.
  pose proof (Z.quot_rem' xn (Zpos xd)) as Hx.
  pose proof (Z.quot_rem' yn (Zpos yd)) as Hy.
  pose proof (Z.rem_bound_abs xn (Zpos xd) ltac:(lia)) as Hrx.
  pose proof (Z.rem_bound_abs yn (Zpos yd) ltac:(lia)) as Hry.
  pose proof (Z.rem_sign_mul xn (Zpos xd) ltac:(lia)) as Hsx.
  pose proof (Z.rem_sign_mul yn (Zpos yd) ltac:(lia)) as Hsy.
  rewrite Heq in Hx.
  set (q := yn ÷ Zpos yd) in *. set (r1 := Z.rem xn (Zpos xd)) in *.
  set (r2 := Z.rem yn (Zpos yd)) in *.
  destruct (Z.eq_dec q 0) as [Hq0|Hq0].
  - right. split; apply Qabs_Qlt_condition; unfold Qlt, Qopp; cbn [Qnum Qden]; lia.
  - left.
    assert (Hd : xn * Zpos yd - yn * Zpos xd = r1 * Zpos yd - r2 * Zpos xd)
      by (rewrite Hx at 1; rewrite Hy at 1; ring).
    assert (Hsame : 0 <= r1 /\ 0 <= r2 \/ r1 <= 0 /\ r2 <= 0).
    { destruct (Z_lt_le_dec q 0) as [Hneg|Hpos].
      - right.
        assert (Z.pos xd * q <= - Z.pos xd) by nia.
        assert (Z.pos yd * q <= - Z.pos yd) by nia.
        assert (xn < 0) by lia. assert (yn < 0) by lia.
        split; nia.
      - left.
        assert (Z.pos xd <= Z.pos xd * q) by nia.
        assert (Z.pos yd <= Z.pos yd * q) by nia.
        assert (0 < xn) by lia. assert (0 < yn) by lia.
        split; nia. }
    apply Qabs_Qlt_condition. unfold Qlt, Qminus, Qplus, Qopp. cbn [Qnum Qden].
    rewrite !Pos2Z.inj_mul. nia.
Qed.

(** Two floats with the same integer part: their difference, as the code
    computes it, is below 2. *)
Lemma sub_close x y :
  py_int x = py_int y -> (Qabs (Float.sub x y) < 2)%Q.
Proof.
  intros Heq. unfold Float.sub.
  destruct (Float.is_float x && Float.is_float y) eqn:Hf.
  - apply andb_prop in Hf as [Hfx Hfy].
    assert (Hb : (Qabs (x - y) <= (2 ^ 53 - 1) # Z.to_pos (2 ^ 52))%Q).
    { destruct (py_int_cases x y Heq) as [H1|[Hx Hy]].
      - apply Qlt_le_weak. eapply Qlt_le_trans; [exact H1|]. discriminate.
      - pose proof (float_below_1 x Hfx Hx) as Bx.
        pose proof (float_below_1 y Hfy Hy) as By.
        eapply Qle_trans; [apply (Qabs_triangle x (- y))|].
        rewrite Qabs_opp.
        eapply Qle_trans; [apply Qplus_le_compat; eassumption|].
        discriminate. }
    rewrite round_abs.
    eapply Qle_lt_trans.
    + apply round_le_below_2; [apply Qabs_nonneg|exact Hb|reflexivity].
    + reflexivity.
  - destruct (py_int_cases x y Heq) as [H1|[Hx Hy]].
    + eapply Qlt_trans; [exact H1|reflexivity].
    + eapply Qle_lt_trans; [apply (Qabs_triangle x (- y))|].
      rewrite Qabs_opp.
      exact (Qplus_lt_le_compat _ _ _ _ Hx (Qlt_le_weak _ _ Hy)).
Qed.

(** A difference of 2 or more is not rounded below 2. *)
Lemma sub_far x y :
  ~ (Qabs (x - y) < 2)%Q -> ~ (Qabs (Float.sub x y) < 2)%Q.
Proof.
  intros Hfar. unfold Float.sub.
  destruct (Float.is_float x && Float.is_float y); [|exact Hfar].
  apply Qle_not_lt. rewrite round_abs.
  apply (round_ge_int 2); [split; [lia|discriminate]|].
  apply Qnot_lt_le, Hfar.
Qed.

(** A product of 1 or more is not rounded below 1. *)
Lemma mul_ge_1 x y : (1 <= x * y)%Q -> (1 <= Float.mul x y)%Q.
Proof.
  intros H. unfold Float.mul.
  destruct (Float.is_float x && Float.is_float y); [|exact H].
  apply (round_ge_int 1); [split; [lia|discriminate]|exact H].
Qed.

(** The product with 0 is 0. *)
Lemma mul_0_l x y : Qnum x = 0 -> py_int (Float.mul x y) = 0.
Proof.
  intros H. unfold Float.mul.
  assert (Hn : Qnum (x * y) = 0) by (unfold Qmult; cbn [Qnum]; rewrite H; reflexivity).
  destruct (Float.is_float x && Float.is_float y).
  - unfold Float.round. rewrite Hn. reflexivity.
  - unfold py_int. rewrite Hn. apply Z.quot_0_l. lia.
Qed.

End FloatFacts.

(* ===================================================================== *)
(** * Properties of [merge_subtitles]: step 2 *)
(* ===================================================================== *)

Lemma overlaps_false l a_time :
  overlaps l a_time = false <->
  Forall (fun m : entry => ~ (Qabs (Float.sub (fst m) a_time) < 2)%Q) l.
Proof.
  unfold overlaps. induction l as [|m l IH]; cbn [existsb].
  - split; [constructor|reflexivity].
  - rewrite orb_false_iff, IH, Forall_cons. split.
    + intros [H1 H2]. split; [|exact H2]. intros Hlt.
      apply Qltb_lt in Hlt. congruence.
    + intros [H1 H2]. split; [|exact H2].
      destruct (Qltb (Qabs (Float.sub (fst m) a_time)) 2) eqn:E; [|reflexivity].
      apply Qltb_lt in E. contradiction.
Qed.

(** The difference is rounded before it is compared: the floats written
    0.001 and 2.001 are less than 2 apart, and their difference is the
    float 2. *)
Lemma overlaps_rounded_difference :
  let m_time := Float.round (1 # 1000) in
  let a_time := Float.round (2001 # 1000) in
  (Qabs (m_time - a_time) < 2)%Q /\
  (Float.sub m_time a_time == - (2))%Q /\
  overlaps [(m_time, [])] a_time = false.
Proof. vm_compute. repeat split; reflexivity. Qed.

Lemma audio_step_used st a : used_audio (audio_step st a) = used_audio st.
Proof.
  destruct a as [a_time a_text]. unfold audio_step.
  destruct (decide _); [|reflexivity].
  destruct (overlaps _ _); reflexivity.
Qed.

Lemma audio_fold_used l :
  forall st, used_audio (fold_left audio_step l st) = used_audio st.
Proof.
  induction l as [|a l IH]; intros st; simpl; [reflexivity|].
  rewrite IH. apply audio_step_used.
Qed.

(** What one turn of step 2 does: it appends the entry when its second is
    not consumed, its text not seen and no emitted entry within 2 seconds,
    and leaves the state as it is otherwise. *)
Lemma audio_step_spec st a :
  ((py_int (fst a) ∉ used_audio st) /\ (snd a ∉ seen_texts st) /\
   Forall (fun m => far_apart m a) (merged st) /\
   audio_step st a = MergeState (used_audio st) ({[snd a]} ∪ seen_texts st)
                                (merged st ++ [a])) \/
  ((py_int (fst a) ∈ used_audio st \/ snd a ∈ seen_texts st \/
    ~ Forall (fun m => far_apart m a) (merged st)) /\
   audio_step st a = st).
Proof.
  destruct a as [a_time a_text]. unfold audio_step, far_apart. cbn [fst snd].
  destruct (decide _) as [[Hu Hs]|Hn].
  - destruct (overlaps (merged st) a_time) eqn:Ho.
    + right. split; [|reflexivity]. right. right. intros HF.
      apply overlaps_false in HF. congruence.
    + left. apply overlaps_false in Ho. repeat split; assumption.
  - right. split; [|reflexivity].
    destruct (decide (py_int a_time ∈ used_audio st)) as [H|H]; [left; exact H|].
    right. left. destruct (decide (a_text ∈ seen_texts st)) as [H'|H']; [exact H'|].
    exfalso. apply Hn. split; assumption.
Qed.

(** The entries that step 2 appends: they are audio entries whose second
    is not consumed, and any two of them are 2 seconds apart or more. *)
Lemma audio_fold_spec l :
  forall st, exists added,
    merged (fold_left audio_step l st) = merged st ++ added /\
    Forall (fun e => e ∈ l /\ (py_int (fst e) ∉ used_audio st)) added /\
    StronglySorted far_apart added.
Proof.
  induction l as [|a l IH] using rev_ind; intros st.
  - exists []. simpl. rewrite app_nil_r. repeat split; constructor.
  - destruct (IH st) as (added & Hm & Hall & Hfar).
    rewrite fold_left_app. cbn [fold_left].
    assert (Hall' : Forall (fun e => e ∈ l ++ [a] /\ py_int (fst e) ∉ used_audio st)
                           added).
    { eapply Forall_impl; [exact Hall|]. intros e [He1 He2].
      split; [apply elem_of_app; left; exact He1|exact He2]. }
    destruct (audio_step_spec (fold_left audio_step l st) a)
      as [(Hu & _ & Hover & ->)|[_ ->]].
    + exists (added ++ [a]). cbn [merged]. rewrite Hm, <- app_assoc.
      split; [reflexivity|]. split.
      * apply Forall_app. split; [exact Hall'|].
        constructor; [|constructor]. rewrite audio_fold_used in Hu.
        split; [apply elem_of_app; right; apply list_elem_of_singleton; reflexivity
               |exact Hu].
      * apply StronglySorted_app_2; [|exact Hfar|repeat constructor].
        intros x1 x2 Hx1 Hx2. apply list_elem_of_singleton in Hx2 as ->.
        rewrite Hm, Forall_app in Hover. destruct Hover as [_ Hover].
        rewrite Forall_forall in Hover. apply Hover, Hx1.
    + exists added. repeat split; assumption.
Qed.

(** C3, as amended: an audio entry reached by step 2 whose second was not
    consumed in step 1, whose text is not among the texts emitted so far
    and from which every entry emitted so far is 2 seconds away or more
    ([abs(m_time - a_time) < 2] fails), is appended unchanged, with its
    timestamp and text, to the entries that step 3 then sorts and
    cleans. *)
Theorem audio_leftover_emitted (video_subs audio_subs pre post : list entry)
    (a_time : Q) (a_text : str) :
  audio_subs = pre ++ (a_time, a_text) :: post ->
  let st := fold_left audio_step pre (step1 video_subs audio_subs) in
  py_int a_time ∉ used_audio (step1 video_subs audio_subs) ->
  a_text ∉ seen_texts st ->
  Forall (fun m : entry => ~ (Qabs (fst m - a_time) < 2)%Q) (merged st) ->
  merged (audio_step st (a_time, a_text)) = merged st ++ [(a_time, a_text)] /\
  (a_time, a_text) ∈ merged (step2 video_subs audio_subs) /\
  (a_time, a_text) ∈ sort_by_time (merged (step2 video_subs audio_subs)).
Proof.
  intros Hsplit st Hu Hs Hfar.
  assert (Hstep : merged (audio_step st (a_time, a_text))
                  = merged st ++ [(a_time, a_text)]).
  { destruct (audio_step_spec st (a_time, a_text)) as [(_ & _ & _ & ->)|[Hno _]].
    - reflexivity.
    - exfalso. cbn [fst snd] in Hno. destruct Hno as [H|[H|H]].
      + unfold st in H. rewrite audio_fold_used in H. contradiction.
      + contradiction.
      + apply H. eapply Forall_impl; [exact Hfar|].
        intros m Hm. apply FloatFacts.sub_far, Hm. }
  assert (Hin : (a_time, a_text) ∈ merged (step2 video_subs audio_subs)).
  { unfold step2. set (st1 := step1 video_subs audio_subs) in *.
    rewrite Hsplit, fold_left_app. cbn [fold_left]. fold st.
    destruct (audio_fold_spec post (audio_step st (a_time, a_text)))
      as (added & -> & _).
    rewrite Hstep. apply elem_of_app. left. apply elem_of_app. right.
    apply list_elem_of_singleton. reflexivity. }
  split; [exact Hstep|]. split; [exact Hin|].
  apply sort_by_time_elem, Hin.
Qed.

Lemma audio_leftover_emitted_witness :
  (40%Q, of_string "bar")
  ∈ sort_by_time (merged (step2 [(5%Q, of_string "foo")] [(40%Q, of_string "bar")])).
Proof.
  apply (audio_leftover_emitted [(5%Q, of_string "foo")] [(40%Q, of_string "bar")]
           [] [] 40%Q (of_string "bar")).
  - reflexivity.
  - vm_compute. intros H. discriminate H.
  - vm_compute. intros H. discriminate H.
  - repeat constructor. vm_compute. intros H. discriminate H.
Defined.

(** C3 as stated fails: the audio entry (10, "hello") is not consumed and
    no emitted entry lies within 2 seconds of it, yet it is not emitted,
    its text having been emitted by step 1. *)
Lemma unconsumed_audio_not_emitted :
  let hello := of_string "hello" in
  let video_subs := [(0%Q, hello)] in
  let audio_subs := [(10%Q, hello)] in
  let st := step1 video_subs audio_subs in
  (py_int 10 ∉ used_audio st) /\
  Forall (fun m : entry => ~ (Qabs (fst m - 10) <= 2)%Q) (merged st) /\
  merged (step2 video_subs audio_subs) = [(0%Q, hello)] /\
  merge_subtitles video_subs audio_subs = [(0%Q, hello)].
Proof.
  cbv zeta. split; [|split; [|split]].
  - vm_compute. intros H. discriminate H.
  - repeat constructor. vm_compute. intros H. apply H. reflexivity.
  - vm_compute. reflexivity.
  - vm_compute. reflexivity.
Qed.

(* ===================================================================== *)
(** * Properties of [merge_subtitles]: the keying by integer second *)
(* ===================================================================== *)

Lemma audio_dict_of_snoc l a :
  audio_dict_of (l ++ [a]) = <[py_int (fst a) := snd a]> (audio_dict_of l).
Proof. unfold audio_dict_of. rewrite fold_left_app. reflexivity. Qed.

Lemma at_second_snoc second l a :
  at_second second (l ++ [a])
  = at_second second l ++ (if decide (py_int (fst a) = second) then [a] else []).
Proof.
  unfold at_second. rewrite filter_app. reflexivity.
Qed.

(** The dictionary holds, for a second, the text of the last audio entry
    of that second. *)
Lemma audio_dict_of_last audio_subs second :
  audio_dict_of audio_subs !! second = last (map snd (at_second second audio_subs)).
Proof.
  induction audio_subs as [|a l IH] using rev_ind.
  - unfold audio_dict_of. simpl. apply lookup_empty.
  - rewrite audio_dict_of_snoc, at_second_snoc, map_app.
    destruct (decide (py_int (fst a) = second)) as [<-|Hne].
    + rewrite lookup_insert_eq. cbn [map]. rewrite last_snoc. reflexivity.
    + rewrite lookup_insert_ne by exact Hne. cbn [map]. rewrite app_nil_r. exact IH.
Qed.

Lemma video_step_used audio_dict st v :
  used_audio (video_step audio_dict st v)
  = match matched (fst (find_best audio_dict (used_audio st)
                                  (py_int (fst v)) (snd v))) with
    | Some (_, matched_time) => {[matched_time]} ∪ used_audio st
    | None => used_audio st
    end.
Proof.
  destruct v as [v_time v_text]. unfold video_step. cbn [fst snd].
  destruct (matched _) as [[best_match matched_time]|]; apply emit_used.
Qed.

(** A second is consumed by one match at most, and the consumed seconds
    are those of the matches. *)
Lemma step1_matches_spec audio_dict video_subs :
  forall st,
    NoDup (step1_matches audio_dict st video_subs) /\
    (forall t, t ∈ step1_matches audio_dict st video_subs -> (t ∉ used_audio st)) /\
    used_audio (fold_left (video_step audio_dict) video_subs st)
    = list_to_set (step1_matches audio_dict st video_subs) ∪ used_audio st.
Proof.
  induction video_subs as [|v rest IH]; intros st; cbn [step1_matches fold_left].
  - split; [constructor|]. split.
    + intros t Ht. inversion Ht.
    + cbn [list_to_set]. rewrite (left_id_L ∅ (∪)). reflexivity.
  - destruct (IH (video_step audio_dict st v)) as (Hnd & Hfresh & Hused).
    rewrite Hused. rewrite video_step_used in Hused, Hfresh |- *.
    destruct (matched _) as [[a_text t]|] eqn:Hm.
    + apply find_best_spec in Hm as (_ & _ & Ht & _).
      cbn [app]. split; [|split].
      * constructor; [|exact Hnd]. intros Hin.
        apply Hfresh in Hin. apply Hin, elem_of_union. left.
        apply elem_of_singleton. reflexivity.
      * intros t' Ht'. apply elem_of_cons in Ht' as [->|Ht']; [exact Ht|].
        apply Hfresh in Ht'. intros Hin. apply Ht', elem_of_union. right. exact Hin.
      * cbn [list_to_set].
        rewrite (assoc_L (∪) (list_to_set _)), (comm_L (∪) (list_to_set _)).
        reflexivity.
    + cbn [app]. split; [exact Hnd|]. split; [exact Hfresh|reflexivity].
Qed.

Lemma filter_none {X : Type} (P : X -> Prop) `{forall x, Decision (P x)} (l : list X) :
  (forall x, x ∈ l -> ~ P x) -> filter P l = [].
Proof.
  induction l as [|y l IH]; intros Hall; [reflexivity|].
  rewrite filter_cons. destruct (decide (P y)) as [Hy|_].
  - exfalso. apply (Hall y); [left|exact Hy].
  - apply IH. intros x Hx. apply Hall. right. exact Hx.
Qed.

Lemma NoDup_count (second : Z) (l : list Z) :
  NoDup l -> (length (filter (fun t => t = second) l) <= 1)%nat.
Proof.
  induction 1 as [|t l Hnin Hnd IH]; [simpl; lia|].
  rewrite filter_cons. destruct (decide (t = second)) as [->|_]; [|exact IH].
  assert (Hnil : filter (fun t => t = second) l = []).
  { apply filter_none. intros x Hx ->. contradiction. }
  rewrite Hnil. simpl. lia.
Qed.

Lemma count_not_in (second : Z) (l : list Z) :
  second ∉ l -> filter (fun t => t = second) l = [].
Proof.
  intros Hnin. apply filter_none. intros x Hx ->. contradiction.
Qed.

Lemma far_apart_at_second second l :
  StronglySorted far_apart l -> (length (at_second second l) <= 1)%nat.
Proof.
  induction 1 as [|e l Hs IH Hfar]; [simpl; lia|].
  unfold at_second in *. rewrite filter_cons.
  destruct (decide (py_int (fst e) = second)) as [He|_]; [|exact IH].
  assert (Hnil : filter (fun e : entry => py_int (fst e) = second) l = []).
  { apply filter_none. intros x Hx Hxs.
    rewrite Forall_forall in Hfar. apply (Hfar x Hx).
    apply FloatFacts.sub_close. congruence. }
  rewrite Hnil. simpl. lia.
Qed.

(** C10: the audio entries are keyed by the integer part of their
    timestamp.  Of several audio entries of one second, step 1 sees the
    last one only; an audio entry whose second is consumed is passed over
    by step 2; a second is consumed by one match at most, and the matches
    of step 1 for a second and the entries of that second appended by
    step 2 are one entry at most, altogether; the output holds entries of
    steps 1 and 2 only, with their texts cleaned. *)
Theorem audio_keyed_by_second (video_subs audio_subs : list entry) (second : Z) :
  let audio_dict := audio_dict_of audio_subs in
  let st1 := step1 video_subs audio_subs in
  let consumed := step1_matches audio_dict (MergeState ∅ ∅ []) video_subs in
  audio_dict !! second = last (map snd (at_second second audio_subs)) /\
  (forall st a, py_int (fst a) ∈ used_audio st -> audio_step st a = st) /\
  used_audio st1 = list_to_set consumed /\
  exists added,
    merged (step2 video_subs audio_subs) = merged st1 ++ added /\
    Forall (fun e => e ∈ audio_subs) added /\
    (second ∈ used_audio st1 -> at_second second added = []) /\
    (length (filter (fun t => t = second) consumed)
     + length (at_second second added) <= 1)%nat /\
    (forall x, x ∈ merge_subtitles video_subs audio_subs ->
               exists y, y ∈ merged st1 ++ added /\ x = (fst y, clean (snd y))).
Proof.
  intros audio_dict st1 consumed.
  split; [apply audio_dict_of_last|]. split.
  { intros st a Hin.
    destruct (audio_step_spec st a) as [(Hu & _)|[_ H]]; [contradiction|exact H]. }
  destruct (step1_matches_spec audio_dict video_subs (MergeState ∅ ∅ []))
    as (Hnd & _ & Hused).
  fold consumed in Hnd, Hused. cbn [used_audio] in Hused.
  rewrite (right_id_L ∅ (∪)) in Hused.
  change (fold_left (video_step audio_dict) video_subs (MergeState ∅ ∅ []))
    with st1 in Hused.
  split; [exact Hused|].
  destruct (audio_fold_spec audio_subs st1) as (added & Hm & Hall & Hfar).
  exists added. split; [exact Hm|].
  assert (Hgone : second ∈ used_audio st1 -> at_second second added = []).
  { intros Hin. apply filter_none. intros e He Hes.
    rewrite Forall_forall in Hall. destruct (Hall e He) as [_ Hn].
    apply Hn. rewrite Hes. exact Hin. }
  split; [|split; [exact Hgone|split]].
  - eapply Forall_impl; [exact Hall|]. intros e [He _]. exact He.
  - destruct (decide (second ∈ used_audio st1)) as [Hin|Hnin].
    + rewrite (Hgone Hin). pose proof (NoDup_count second consumed Hnd). simpl. lia.
    + rewrite count_not_in.
      * pose proof (far_apart_at_second second added Hfar). simpl. lia.
      * rewrite Hused in Hnin. intros Hc. apply Hnin, elem_of_list_to_set, Hc.
  - intros x Hx. unfold merge_subtitles in Hx.
    apply dedup_walk_origin in Hx as (y & Hy & Hxy).
    apply (proj1 (sort_by_time_elem y _)) in Hy.
    change (step2 video_subs audio_subs)
      with (fold_left audio_step audio_subs st1) in Hy.
    rewrite Hm in Hy. exists y. split; assumption.
Qed.

Lemma audio_keyed_by_second_witness :
  audio_step (step1 [(5%Q, of_string "hello world")]
                    [(5%Q, of_string "hello world expanded")])
             ((11 # 2)%Q, of_string "other words")
  = step1 [(5%Q, of_string "hello world")]
          [(5%Q, of_string "hello world expanded")].
Proof.
  destruct (audio_keyed_by_second [(5%Q, of_string "hello world")]
              [(5%Q, of_string "hello world expanded")] 5) as (_ & H & _).
  apply H. vm_compute. reflexivity.
Defined.

(* ===================================================================== *)
(** * Properties of the text filter *)
(* ===================================================================== *)

Module PyStrFacts.

Lemma startswith_spec p s :
  startswith p s = true <-> exists post, s = p ++ post.
Proof.
  revert s. induction p as [|x p IH]; intros s; simpl.
  - split; [intros _; exists s; reflexivity|reflexivity].
  - destruct s as [|y s].
    + split; [discriminate|]. intros [post H]. discriminate.
    + rewrite andb_true_iff, Z.eqb_eq, IH. split.
      * intros [-> [post ->]]. exists post. reflexivity.
      * intros [post H]. inversion H; subst. split; [reflexivity|].
        exists post. reflexivity.
Qed.

Lemma contains_spec sub s :
  contains sub s = true <-> exists pre post, s = pre ++ sub ++ post.
Proof.
  induction s as [|c s IH]; simpl.
  - rewrite orb_false_r, startswith_spec. split.
    + intros [post H]. exists [], post. exact H.
    + intros (pre & post & H). destruct pre as [|? ?]; [|discriminate].
      exists post. exact H.
  - rewrite orb_true_iff, startswith_spec, IH. split.
    + intros [[post H]|(pre & post & H)].
      * exists [], post. exact H.
      * exists (c :: pre), post. rewrite H. reflexivity.
    + intros (pre & post & H). destruct pre as [|c' pre].
      * left. exists post. exact H.
      * right. inversion H; subst. exists pre, post. reflexivity.
Qed.

Lemma segment_refl s : segment_of s s.
Proof. exists [], []. rewrite app_nil_r. reflexivity. Qed.

Lemma segment_trans r s t : segment_of r s -> segment_of s t -> segment_of r t.
Proof.
  intros (p1 & q1 & ->) (p2 & q2 & ->).
  exists (p2 ++ p1), (q1 ++ q2). rewrite <- !app_assoc. reflexivity.
Qed.

Lemma segment_len r s : segment_of r s -> len r <= len s.
Proof.
  intros (pre & post & ->). unfold len. rewrite !length_app. lia.
Qed.

Lemma contains_segment sub r s :
  segment_of r s -> contains sub s = false -> contains sub r = false.
Proof.
  intros Hseg Hs. destruct (contains sub r) eqn:Hr; [|reflexivity].
  apply contains_spec in Hr as (pre & post & ->).
  assert (Hc : contains sub s = true).
  { apply contains_spec.
    destruct (segment_trans sub (pre ++ sub ++ post) s) as (p & q & H).
    - exists pre, post. reflexivity.
    - exact Hseg.
    - exists p, q. exact H. }
  congruence.
Qed.

Lemma lstrip_suffix chars s : exists pre, s = pre ++ lstrip chars s.
Proof.
  induction s as [|c s [pre IH]]; simpl.
  - exists []. reflexivity.
  - destruct (mem c chars).
    + exists (c :: pre). simpl. rewrite <- IH. reflexivity.
    + exists []. reflexivity.
Qed.

Lemma rstrip_prefix chars s : exists post, s = rstrip chars s ++ post.
Proof.
  unfold rstrip. destruct (lstrip_suffix chars (rev s)) as [pre H].
  exists (rev pre). rewrite <- rev_app_distr, <- H, rev_involutive. reflexivity.
Qed.

Lemma strip_chars_segment chars s : segment_of (strip_chars chars s) s.
Proof.
  unfold strip_chars.
  destruct (lstrip_suffix chars s) as [pre Hl].
  destruct (rstrip_prefix chars (lstrip chars s)) as [post Hr].
  exists pre, post. rewrite <- Hr. exact Hl.
Qed.

Lemma lstrip_head_ok chars s : head_ok chars (lstrip chars s).
Proof.
  induction s as [|c s IH]; simpl.
  - intros c H. discriminate.
  - destruct (mem c chars) eqn:E; [exact IH|].
    intros c' H. inversion H; subst. exact E.
Qed.

Lemma lstrip_fixed chars s : head_ok chars s -> lstrip chars s = s.
Proof.
  destruct s as [|c s]; intros H; simpl; [reflexivity|].
  rewrite (H c eq_refl). reflexivity.
Qed.

Lemma rstrip_fixed chars s : head_ok chars (rev s) -> rstrip chars s = s.
Proof.
  intros H. unfold rstrip. rewrite lstrip_fixed by exact H. apply rev_involutive.
Qed.

Lemma rstrip_last_ok chars s : head_ok chars (rev (rstrip chars s)).
Proof. unfold rstrip. rewrite rev_involutive. apply lstrip_head_ok. Qed.

Lemma rstrip_head_ok chars s : head_ok chars s -> head_ok chars (rstrip chars s).
Proof.
  intros H. destruct (rstrip_prefix chars s) as [post Hp].
  destruct (rstrip chars s) as [|c r]; [intros c Hc; discriminate|].
  intros c' Hc. inversion Hc; subst c'. apply H. rewrite Hp. reflexivity.
Qed.

Lemma strip_chars_ends chars s :
  head_ok chars (strip_chars chars s) /\ head_ok chars (rev (strip_chars chars s)).
Proof.
  unfold strip_chars. split.
  - apply rstrip_head_ok, lstrip_head_ok.
  - apply rstrip_last_ok.
Qed.

Lemma strip_chars_fixed chars s :
  head_ok chars s -> head_ok chars (rev s) -> strip_chars chars s = s.
Proof.
  intros H1 H2. unfold strip_chars. rewrite (lstrip_fixed chars s H1).
  apply rstrip_fixed, H2.
Qed.

Lemma strip_chars_idempotent chars s :
  strip_chars chars (strip_chars chars s) = strip_chars chars s.
Proof. apply strip_chars_fixed; apply strip_chars_ends. Qed.

(** The fuel of [remove_all] is enough: with more of it the result is the
    same. *)
Lemma remove_all_fuel_enough old :
  old <> [] ->
  forall fuel k s,
    (k <= fuel)%nat -> (length s <= k)%nat ->
    remove_all_fuel k old s = remove_all_fuel (length s) old s.
Proof.
  intros Hold. induction fuel as [|fuel IH]; intros k s Hk Hs.
  - assert (k = 0%nat) by lia. subst k.
    destruct s; [reflexivity|simpl in Hs; lia].
  - destruct (decide (k <= fuel)%nat) as [Hle|Hgt]; [apply IH; assumption|].
    assert (k = S fuel) by lia. subst k.
    destruct s as [|c s]; [reflexivity|].
    cbn [remove_all_fuel length]. cbn [length] in Hs.
    destruct (startswith old (c :: s)).
    + assert (Hd : (length (drop (length old) (c :: s)) <= length s)%nat).
      { rewrite length_drop. destruct old; [contradiction|]. simpl. lia. }
      rewrite (IH fuel (drop (length old) (c :: s))) by lia.
      rewrite (IH (length s) (drop (length old) (c :: s))) by lia.
      reflexivity.
    + rewrite (IH fuel s) by lia. reflexivity.
Qed.

Lemma head_rev_last (s : str) : head (rev s) = last s.
Proof.
  induction s as [|c s IH] using rev_ind; [reflexivity|].
  rewrite rev_app_distr, last_snoc. reflexivity.
Qed.

End PyStrFacts.

Lemma existsb_false_Forall {X : Type} (f : X -> bool) (l : list X) :
  existsb f l = false <-> Forall (fun x => f x = false) l.
Proof.
  induction l as [|x l IH]; simpl.
  - split; [constructor|reflexivity].
  - rewrite orb_false_iff, IH, Forall_cons. reflexivity.
Qed.

(** The result of the filter is empty or taken as it is by the first
    steps of the filter: it has no leading or trailing whitespace, holds
    none of the phrases and has 50 characters at most. *)
Lemma text_filter_shape content :
  text_filter content = [] \/
  (strip (text_filter content) = text_filter content /\
   existsb (fun phrase => contains phrase (text_filter content)) ignore_phrases
   = false /\
   len (text_filter content) <= 50).
Proof.
  unfold text_filter.
  destruct (existsb _ ignore_phrases) eqn:Hph; [left; reflexivity|].
  destruct (50 <? len (strip content)) eqn:Hlen; [left; reflexivity|].
  destruct (negb _ && _); [|left; reflexivity].
  right. apply Z.ltb_ge in Hlen.
  set (t2 := strip_chars [squote] (strip_chars [dquote] (strip content))).
  assert (Hseg : segment_of (strip t2) (strip content)).
  { eapply PyStrFacts.segment_trans; [apply PyStrFacts.strip_chars_segment|].
    eapply PyStrFacts.segment_trans; apply PyStrFacts.strip_chars_segment. }
  split; [apply PyStrFacts.strip_chars_idempotent|]. split.
  - apply existsb_false_Forall. apply existsb_false_Forall in Hph.
    eapply Forall_impl; [exact Hph|]. intros phrase Hp. cbv beta in *.
    eapply PyStrFacts.contains_segment; eassumption.
  - pose proof (PyStrFacts.segment_len _ _ Hseg). lia.
Qed.

(** C8, as amended: filtering the empty result of a rejected string yields
    the empty string again; and a non-empty result of the filter that has
    two characters or more and neither begins nor ends with a quote
    character is returned unchanged when it is filtered again. *)
Theorem text_filter_idempotent_unquoted (content : str) :
  let r := text_filter content in
  (r = [] -> text_filter r = []) /\
  (2 <= len r ->
   (forall c, head r = Some c -> c <> dquote /\ c <> squote) ->
   (forall c, last r = Some c -> c <> dquote /\ c <> squote) ->
   text_filter r = r).
Proof.
  intros r. split; [intros ->; reflexivity|].
  intros Hlen Hhead Hlast. subst r.
  destruct (text_filter_shape content) as [Hnil|(Hstrip & Hph & H50)].
  { rewrite Hnil in Hlen. unfold len in Hlen. simpl in Hlen. lia. }
  set (r := text_filter content) in *.
  assert (Hq : forall q, (q = dquote \/ q = squote) -> strip_chars [q] r = r).
  { intros q Hq. apply PyStrFacts.strip_chars_fixed.
    - intros c Hc. destruct (Hhead c Hc) as [H1 H2].
      unfold mem. simpl. rewrite orb_false_r. apply Z.eqb_neq.
      destruct Hq; subst; assumption.
    - intros c Hc. rewrite PyStrFacts.head_rev_last in Hc.
      destruct (Hlast c Hc) as [H1 H2].
      unfold mem. simpl. rewrite orb_false_r. apply Z.eqb_neq.
      destruct Hq; subst; assumption. }
  unfold text_filter at 1. rewrite Hstrip, Hph.
  replace (50 <? len r) with false by (symmetry; apply Z.ltb_ge; exact H50).
  rewrite (Hq dquote) by (left; reflexivity).
  rewrite (Hq squote) by (right; reflexivity).
  replace (len r =? 0) with false by (symmetry; apply Z.eqb_neq; lia).
  replace (1 <? len r) with true by (symmetry; apply Z.ltb_lt; lia).
  simpl. exact Hstrip.
Qed.

Lemma text_filter_idempotent_unquoted_witness :
  text_filter (text_filter ([dquote] ++ of_string "ab" ++ [dquote]))
  = text_filter ([dquote] ++ of_string "ab" ++ [dquote]).
Proof.
  apply (text_filter_idempotent_unquoted ([dquote] ++ of_string "ab" ++ [dquote])).
  - vm_compute. intros H. discriminate H.
  - vm_compute. intros c H. inversion H; subst. split; intros H'; discriminate H'.
  - vm_compute. intros c H. inversion H; subst. split; intros H'; discriminate H'.
Defined.

(** C8 as stated fails: a string in single quotes around double quotes
    loses one layer of quotes at each pass, and quotes around a padded
    character give a one-character result that the next pass rejects. *)
Lemma text_filter_not_idempotent :
  let nested := [squote; dquote] ++ of_string "ab" ++ [dquote; squote] in
  let padded := [dquote] ++ of_string " a " ++ [dquote] in
  text_filter nested = [dquote] ++ of_string "ab" ++ [dquote] /\
  text_filter (text_filter nested) = of_string "ab" /\
  text_filter padded = of_string "a" /\
  text_filter (text_filter padded) = [].
Proof. vm_compute. repeat split; reflexivity. Qed.

(* ===================================================================== *)
(** * Properties of the retried recognition *)
(* ===================================================================== *)



(* ===================================================================== *)
(** * Properties of [extract_subtitles] *)
(* ===================================================================== *)

Lemma sample_interval_fps v interval_seconds :
  sample_interval v interval_seconds <> 0 -> py_int (cap_fps v) <> 0.
Proof.
  unfold sample_interval. intros H Hfps. apply H. rewrite Hfps.
  apply FloatFacts.mul_0_l. reflexivity.
Qed.

(** With a sampling interval that is not zero, one turn of the loop never
    raises: it keeps the entries and appends one at most. *)
Lemma sample_step_total fps interval frame_count subtitles f :
  interval <> 0 -> fps <> 0 ->
  exists frame_count' tail,
    sample_step fps interval (frame_count, subtitles) f
    = Ok (frame_count', subtitles ++ tail).
Proof.
  intros Hi Hf. unfold sample_step.
  apply Z.eqb_neq in Hi, Hf. rewrite Hi, Hf.
  destruct (frame_count mod interval =? 0).
  - destruct (extract_text_from_frame f) as [text|e].
    + destruct (len text =? 0).
      * exists (frame_count + 1), []. rewrite app_nil_r. reflexivity.
      * eexists _, _. reflexivity.
    + exists frame_count, []. rewrite app_nil_r. reflexivity.
  - exists (frame_count + 1), []. rewrite app_nil_r. reflexivity.
Qed.

Lemma sample_loop_total fps interval l :
  interval <> 0 -> fps <> 0 ->
  forall frame_count subtitles,
  exists frame_count' tail,
    sample_loop fps interval l (frame_count, subtitles)
    = Ok (frame_count', subtitles ++ tail).
Proof.
  intros Hi Hf. induction l as [|f l IH]; intros frame_count subtitles;
    cbn [sample_loop].
  - exists frame_count, []. rewrite app_nil_r. reflexivity.
  - destruct (sample_step_total fps interval frame_count subtitles f Hi Hf)
      as (fc1 & t1 & ->).
    destruct (IH fc1 (subtitles ++ t1)) as (fc2 & t2 & ->).
    exists fc2, (t1 ++ t2). rewrite app_assoc. reflexivity.
Qed.

Lemma sample_loop_app fps interval l1 l2 st :
  sample_loop fps interval (l1 ++ l2) st
  = match sample_loop fps interval l1 st with
    | Ok st' => sample_loop fps interval l2 st'
    | Raise e => Raise e
    end.
Proof.
  revert st. induction l1 as [|f l1 IH]; intros st; cbn [app sample_loop];
    [reflexivity|].
  destruct (sample_step fps interval st f); [apply IH|reflexivity].
Qed.

Lemma sampled_entries_cons fps interval first f l :
  sampled_entries fps interval first (f :: l)
  = match entry_of_frame fps interval (first, f) with
    | Some e => [e]
    | None => []
    end ++ sampled_entries fps interval (first + 1) l.
Proof.
  unfold sampled_entries. cbn [indexed].
  change (omap ?g ((first, f) :: ?l'))
    with (match g (first, f) with Some e => e :: omap g l' | None => omap g l' end).
  destruct (entry_of_frame fps interval (first, f)); reflexivity.
Qed.

Lemma sample_step_sampled fps interval frame_count subtitles f :
  interval <> 0 -> fps <> 0 ->
  (frame_count mod interval = 0 -> exists text, extract_text_from_frame f = Ok text) ->
  sample_step fps interval (frame_count, subtitles) f
  = Ok (frame_count + 1,
        subtitles ++ match entry_of_frame fps interval (frame_count, f) with
                     | Some e => [e]
                     | None => []
                     end).
Proof.
  intros Hi Hf Hok. unfold sample_step, entry_of_frame. cbn [fst snd].
  apply Z.eqb_neq in Hi, Hf. rewrite Hi, Hf.
  destruct (frame_count mod interval =? 0) eqn:Hmod.
  - apply Z.eqb_eq in Hmod. destruct (Hok Hmod) as [text ->].
    destruct (len text =? 0); [rewrite app_nil_r|]; reflexivity.
  - rewrite app_nil_r. reflexivity.
Qed.

Lemma sample_loop_sampled fps interval l :
  interval <> 0 -> fps <> 0 ->
  forall first subtitles,
    0 <= first ->
    (forall (i : nat) f, l !! i = Some f ->
                         (first + Z.of_nat i) mod interval = 0 ->
                         exists text, extract_text_from_frame f = Ok text) ->
    sample_loop fps interval l (first, subtitles)
    = Ok (first + Z.of_nat (length l),
          subtitles ++ sampled_entries fps interval first l).
Proof.
  intros Hi Hf. induction l as [|f l IH]; intros first subtitles Hfirst Hall.
  - cbn [sample_loop length].
    change (sampled_entries fps interval first []) with (@nil entry).
    rewrite Z.add_0_r, app_nil_r. reflexivity.
  - cbn [sample_loop]. rewrite sampled_entries_cons.
    assert (Hstep : sample_step fps interval (first, subtitles) f
                    = Ok (first + 1,
                          subtitles ++ match entry_of_frame fps interval (first, f) with
                                       | Some e => [e]
                                       | None => []
                                       end)).
    { apply sample_step_sampled; [exact Hi|exact Hf|].
      intros Hmod. apply (Hall 0%nat f eq_refl). rewrite Z.add_0_r. exact Hmod. }
    rewrite Hstep, IH.
    + cbn [length].
      replace (first + Z.of_nat (S (length l)))
        with (first + 1 + Z.of_nat (length l)) by lia.
      rewrite app_assoc. reflexivity.
    + lia.
    + intros i g Hg Hmod. apply (Hall (S i) g Hg).
      replace (first + Z.of_nat (S i)) with (first + 1 + Z.of_nat i) by lia.
      exact Hmod.
Qed.

(** C7: a frame whose recognition fails even after the retries is
    skipped, and the sampling goes on with the frames after it.  The loop
    reaches the frame; its turn for the frame raises nothing and adds no
    entry (and, the frame being sampled, leaves [frame_count] as it is);
    the loop runs over the remaining frames, and the extraction returns
    the entries, those found before the frame among them.  When the
    frame is the only sampled one whose recognition fails, the entries
    returned are those of the sampled frames before it, followed by those
    of the frames after it, sampled from the count of the failed frame
    on: the frame next to it is sampled in its place. *)
Theorem bad_frame_skipped (v : video) (interval_seconds : Q)
    (pre post : list frame) (bad : frame) (e : exn) :
  frames v = pre ++ bad :: post ->
  sample_interval v interval_seconds <> 0 ->
  extract_text_from_frame bad = Raise e ->
  let fps := py_int (cap_fps v) in
  let interval := sample_interval v interval_seconds in
  exists frame_count subtitles final_count final,
    sample_loop fps interval pre (0, []) = Ok (frame_count, subtitles) /\
    sample_step fps interval (frame_count, subtitles) bad
    = Ok (if frame_count mod interval =? 0 then frame_count else frame_count + 1,
          subtitles) /\
    sample_loop fps interval post
      (if frame_count mod interval =? 0 then frame_count else frame_count + 1,
       subtitles)
    = Ok (final_count, final) /\
    extract_subtitles v interval_seconds = Ok final /\
    subtitles `prefix_of` final /\
    ((forall (i : nat) f, pre !! i = Some f -> Z.of_nat i mod interval = 0 ->
                          exists text, extract_text_from_frame f = Ok text) ->
     Z.of_nat (length pre) mod interval = 0 ->
     (forall (i : nat) f, post !! i = Some f ->
                          (Z.of_nat (length pre) + Z.of_nat i) mod interval = 0 ->
                          exists text, extract_text_from_frame f = Ok text) ->
     frame_count = Z.of_nat (length pre) /\
     final = sampled_entries fps interval 0 pre
             ++ sampled_entries fps interval (Z.of_nat (length pre)) post).
Proof.
  intros Hframes Hi Hbad fps interval.
  pose proof (sample_interval_fps v interval_seconds Hi) as Hf.
  fold fps in Hf. fold interval in Hi.
  destruct (sample_loop_total fps interval pre Hi Hf 0 []) as (fc & subs & Hpre).
  rewrite app_nil_l in Hpre.
  assert (Hstep : sample_step fps interval (fc, subs) bad
                  = Ok (if fc mod interval =? 0 then fc else fc + 1, subs)).
  { unfold sample_step. rewrite Hbad.
    rewrite (proj2 (Z.eqb_neq _ _) Hi), (proj2 (Z.eqb_neq _ _) Hf).
    destruct (fc mod interval =? 0); reflexivity. }
  set (fc' := if fc mod interval =? 0 then fc else fc + 1) in *.
  destruct (sample_loop_total fps interval post Hi Hf fc' subs) as (fc2 & tail & Hpost).
  assert (Hfinal : extract_subtitles v interval_seconds = Ok (subs ++ tail)).
  { unfold extract_subtitles. fold fps interval.
    rewrite Hframes, sample_loop_app, Hpre. cbn [sample_loop].
    rewrite Hstep, Hpost. reflexivity. }
  exists fc, subs, fc2, (subs ++ tail).
  split; [exact Hpre|]. split; [exact Hstep|]. split; [exact Hpost|].
  split; [exact Hfinal|]. split; [exists tail; reflexivity|].
  intros Hgood_pre Hsampled Hgood_post.
  rewrite (sample_loop_sampled fps interval pre Hi Hf 0 []) in Hpre;
    [|lia|intros i f Hl Hm; apply (Hgood_pre i f Hl); exact Hm].
  rewrite Z.add_0_l, app_nil_l in Hpre. injection Hpre as Hfc Hsubs.
  split; [symmetry; exact Hfc|].
  assert (Hfc' : fc' = Z.of_nat (length pre)).
  { unfold fc'. rewrite <- Hfc, Hsampled. reflexivity. }
  rewrite Hfc' in Hpost.
  rewrite (sample_loop_sampled fps interval post Hi Hf _ subs) in Hpost;
    [|lia|exact Hgood_post].
  injection Hpost as Hcount Htail. rewrite <- Htail, <- Hsubs. reflexivity.
Qed.

Lemma bad_frame_skipped_witness :
  let bad : frame := fun _ => Reply 500 [] in
  extract_subtitles (Video 2 [captioned "ab"; captioned "cd"; bad;
                              captioned "ef"; captioned "gh"]) 1
  = Ok [(0 # 2, of_string "ab"); (2 # 2, of_string "ef")]%Q.
Proof.
  intros bad.
  destruct (bad_frame_skipped
              (Video 2 [captioned "ab"; captioned "cd"; bad;
                        captioned "ef"; captioned "gh"]) 1
              [captioned "ab"; captioned "cd"] [captioned "ef"; captioned "gh"]
              bad (ApiError 500))
    as (fc & subs & fc2 & final & _ & _ & _ & Hfinal & _ & Hexact).
  - reflexivity.
  - vm_compute. intros H. discriminate H.
  - reflexivity.
  - assert (Hgood : forall (l : list frame) (i : nat) f,
               l = [captioned "ab"; captioned "cd"] \/
               l = [captioned "ef"; captioned "gh"] ->
               l !! i = Some f -> exists text, extract_text_from_frame f = Ok text).
    { intros l i f [-> | ->] Hl;
        (destruct i as [|[|i]]; cbn in Hl; inversion Hl; eexists; reflexivity). }
    assert (Hpre : forall (i : nat) f,
               [captioned "ab"; captioned "cd"] !! i = Some f ->
               Z.of_nat i mod sample_interval
                                (Video 2 [captioned "ab"; captioned "cd"; bad;
                                          captioned "ef"; captioned "gh"]) 1 = 0 ->
               exists text, extract_text_from_frame f = Ok text).
    { intros i f Hl _. apply (Hgood _ i f (or_introl eq_refl) Hl). }
    destruct (Hexact Hpre) as [_ Hex].
    + reflexivity.
    + intros i f Hl _. apply (Hgood _ i f (or_intror eq_refl) Hl).
    + rewrite Hfinal, Hex. vm_compute. reflexivity.
Defined.

(** The product [fps * interval_seconds] is the one of floats: at 90
    frames per second the precise mode gives an interval of 62 frames,
    where the exact product with 7/10 gives 63, and at 30 frames per
    second it gives 21, where the exact product with the float written
    0.7 gives 20. *)
Lemma sample_interval_float_product :
  sample_interval (Video 90 []) PRECISE = 62 /\
  py_int (90 * (7 # 10)) = 63 /\
  sample_interval (Video 30 []) PRECISE = 21 /\
  py_int (30 * PRECISE) = 20.
Proof. vm_compute. repeat split; reflexivity. Qed.




(* ===================================================================== *)
(** * Properties of the pipeline *)
(* ===================================================================== *)

Lemma split_on_cons sep s : exists w ws, split_on sep s = w :: ws.
Proof.
  destruct s as [|c s]; simpl; [eexists _, _; reflexivity|].
  destruct (c =? sep); [eexists _, _; reflexivity|].
  destruct (split_on sep s); eexists _, _; reflexivity.
Qed.

(** A text without the separator in front of a string goes to the first
    part of the split. *)
Lemma split_on_app sep p s :
  Forall (fun c => c <> sep) p ->
  split_on sep (p ++ s)
  = (p ++ default [] (head (split_on sep s))) :: tail (split_on sep s).
Proof.
  induction 1 as [|c p Hc _ IH]; cbn [app].
  - destruct (split_on_cons sep s) as (w & ws & ->). reflexivity.
  - cbn [split_on]. apply Z.eqb_neq in Hc. rewrite Hc, IH. reflexivity.
Qed.

Lemma parse_audio_line_skips py_float line :
  startswith (of_string "[") line = false -> parse_audio_line py_float line = None.
Proof. intros H. unfold parse_audio_line. rewrite H. reflexivity. Qed.

Lemma omap_all_none {X Y : Type} (g : X -> option Y) (l : list X) :
  Forall (fun x => g x = None) l -> omap g l = [].
Proof.
  induction 1 as [|x l Hx _ IH]; [reflexivity|].
  change (omap g (x :: l))
    with (match g x with Some y => y :: omap g l | None => omap g l end).
  rewrite Hx. exact IH.
Qed.

(** The message of a failed transcription gives no audio entry, as long as
    none of its lines, after the first, begins with a bracket. *)
Lemma parse_transcribe_error py_float e :
  Forall (fun line => startswith (of_string "[") line = false)
         (tail (split_on 10 (exn_str e))) ->
  parse_audio py_float (transcribe_audio (Raise e)) = [].
Proof.
  intros Hlines. unfold parse_audio, transcribe_audio.
  rewrite split_on_app.
  - apply omap_all_none. constructor.
    + apply parse_audio_line_skips. reflexivity.
    + eapply Forall_impl; [exact Hlines|].
      intros line Hl. apply parse_audio_line_skips, Hl.
  - unfold transcribe_error_prefix. repeat constructor; discriminate.
Qed.

(** C4, as amended: when the video branch has returned its entries and
    the transcription fails, [transcribe_audio] catches the failure; its
    message gives an empty audio stream (no line of it after the first
    beginning with a bracket) and the merge goes on with the video stream
    alone.  When the extraction of the audio fails, the failure is caught
    by the handler of the pipeline, and the request ends with the error
    message. *)
Theorem audio_failure_handling (py_float : str -> option Q) (v : video)
    (video_subtitles : list entry) (e : exn) :
  extract_subtitles v 1 = Ok video_subtitles ->
  (Forall (fun line => startswith (of_string "[") line = false)
          (tail (split_on 10 (exn_str e))) ->
   parse_audio py_float (transcribe_audio (Raise e)) = [] /\
   process_smart_subtitle py_float (Some v) (Ok tt) (Raise e)
   = format_subtitles (merge_subtitles video_subtitles [])) /\
  (forall transcription,
      process_smart_subtitle py_float (Some v) (Raise e) transcription
      = error_prefix ++ exn_str e).
Proof.
  intros Hvideo. split.
  - intros Hlines.
    pose proof (parse_transcribe_error py_float e Hlines) as Hparse.
    split; [exact Hparse|].
    unfold process_smart_subtitle. rewrite Hvideo, Hparse. reflexivity.
  - intros transcription. unfold process_smart_subtitle. rewrite Hvideo. reflexivity.
Qed.

Lemma audio_failure_handling_witness :
  let v := Video 1 [captioned "hello world"] in
  process_smart_subtitle (fun _ => None) (Some v) (Ok tt)
                         (Raise (Error (of_string "connection reset")))
  = of_string "[0s] hello world".
Proof.
  intros v.
  destruct (audio_failure_handling (fun _ => None) v [(0 # 1, of_string "hello world")]%Q
              (Error (of_string "connection reset"))) as [H _].
  - vm_compute. reflexivity.
  - destruct H as [_ H].
    + vm_compute. constructor.
    + rewrite H. vm_compute. reflexivity.
Defined.

(** C4 as stated fails: when the extraction of the audio fails, the
    request ends with the error message, and not with the subtitle of the
    video stream. *)
Lemma audio_extraction_failure_ends_request :
  let v := Video 1 [captioned "hello world"] in
  let failure := Error (of_string "FFmpeg failed") in
  extract_subtitles v 1 = Ok [(0 # 1, of_string "hello world")]%Q /\
  format_subtitles (merge_subtitles [(0 # 1, of_string "hello world")]%Q [])
  = of_string "[0s] hello world" /\
  process_smart_subtitle (fun _ => None) (Some v) (Raise failure) (Ok [])
  = error_prefix ++ of_string "FFmpeg failed" /\
  process_smart_subtitle (fun _ => None) (Some v) (Raise failure) (Ok [])
  <> format_subtitles (merge_subtitles [(0 # 1, of_string "hello world")]%Q []).
Proof. vm_compute. repeat split; try reflexivity. intros H. discriminate H. Qed.

(* ===================================================================== *)
(** * Further properties of [similar] *)
(* ===================================================================== *)

(** The ratio is twice the number of matched characters over the two
    lengths, and the matched characters are at most those of the shorter
    string. *)
Lemma similar_matches (a b : str) :
  exists m, 0 <= m /\ m <= len a /\ m <= len b /\
            similar a b = Difflib.calculate_ratio m (len a + len b).
Proof.
  destruct (DifflibFacts.ratio_spec a b) as (m & Hr & H0 & Ha & Hb).
  exists m. unfold similar. rewrite Hr. simpl. auto.
Qed.

Lemma len_nonneg (s : str) : 0 <= len s.
Proof. unfold len. lia. Qed.

Lemma len_zero (s : str) : len s = 0 <-> s = [].
Proof.
  unfold len. destruct s; simpl; split; intros H; try reflexivity; try lia.
  discriminate.
Qed.

(** The matched characters are at most those of the shorter string. *)
Lemma similar_le_lengths (a b : str) :
  0 < len a + len b ->
  (similar a b <= (2 * Z.min (len a) (len b)) # Z.to_pos (len a + len b))%Q.
Proof.
  intros Hpos. destruct (similar_matches a b) as (m & H0 & Ha & Hb & ->).
  unfold Difflib.calculate_ratio.
  replace (len a + len b =? 0) with false by (symmetry; apply Z.eqb_neq; lia).
  unfold Qle. cbn [Qnum Qden].
  apply Z.mul_le_mono_nonneg_r; lia.
Qed.

(** X1: the similarity of two strings is at most twice the length of the
    shorter one over the sum of the two lengths. *)
Theorem similar_length_bound (a b : str) :
  0 < len a + len b ->
  (similar a b <= (2 * Z.min (len a) (len b)) # Z.to_pos (len a + len b))%Q.
Proof. exact (similar_le_lengths a b). Qed.

Lemma similar_length_bound_witness :
  (similar (of_string "hello world") (of_string "hi") <= 4 # 13)%Q.
Proof.
  apply (similar_length_bound (of_string "hello world") (of_string "hi")).
  vm_compute. reflexivity.
Defined.

(** X2: a text that is 13/7 times as long as another one, or longer, is
    never dropped as its near-duplicate, in either order of comparison:
    their similarity is at most 0.7. *)
Theorem similar_needs_close_lengths (a b : str) :
  13 * len a <= 7 * len b ->
  a <> [] ->
  (similar a b <= 7 # 10)%Q /\ (similar b a <= 7 # 10)%Q.
Proof.
  intros Hlen Ha.
  assert (Hla : 0 < len a).
  { pose proof (len_nonneg a). destruct (Z.eq_dec (len a) 0) as [E|E]; [|lia].
    apply len_zero in E. contradiction. }
  assert (Hb : forall x y, len x = len a /\ len y = len b \/ len x = len b /\ len y = len a ->
                           (similar x y <= 7 # 10)%Q).
  { intros x y Hxy.
    eapply Qle_trans; [apply similar_le_lengths; lia|].
    unfold Qle. cbn [Qnum Qden]. rewrite Z2Pos.id by lia. lia. }
  split; apply Hb; [left|right]; split; reflexivity.
Qed.

Lemma similar_needs_close_lengths_witness :
  (similar (of_string "abcdefg") (of_string "abcdefgabcdef") <= 7 # 10)%Q.
Proof.
  apply (similar_needs_close_lengths (of_string "abcdefg") (of_string "abcdefgabcdef")).
  - vm_compute. intros H. discriminate H.
  - discriminate.
Defined.

(** Nothing of an empty string is matched. *)
Lemma similar_with_empty (a : str) :
  similar [] [] = 1%Q /\
  (a <> [] -> (similar a [] == 0)%Q /\ (similar [] a == 0)%Q).
Proof.
  split; [reflexivity|]. intros Ha.
  assert (Hla : 0 < len a).
  { pose proof (len_nonneg a). destruct (Z.eq_dec (len a) 0) as [E|E]; [|lia].
    apply len_zero in E. contradiction. }
  split.
  - destruct (similar_matches a []) as (m & H0 & _ & Hb & ->).
    change (len []) with 0 in *. assert (m = 0) by lia. subst m.
    unfold Difflib.calculate_ratio.
    replace (len a + 0 =? 0) with false by (symmetry; apply Z.eqb_neq; lia).
    reflexivity.
  - destruct (similar_matches [] a) as (m & H0 & Hb & _ & ->).
    change (len []) with 0 in *. assert (m = 0) by lia. subst m.
    unfold Difflib.calculate_ratio.
    replace (0 + len a =? 0) with false by (symmetry; apply Z.eqb_neq; lia).
    reflexivity.
Qed.

(** X3: the similarity with the empty string is 0 for a string that is not
    empty, in both orders, and two empty strings have the similarity 1. *)
Theorem similar_empty (a : str) :
  similar [] [] = 1%Q /\
  (a <> [] -> (similar a [] == 0)%Q /\ (similar [] a == 0)%Q).
Proof. exact (similar_with_empty a). Qed.

Lemma similar_empty_witness :
  (similar (of_string "caption") [] == 0)%Q.
Proof.
  destruct (similar_empty (of_string "caption")) as [_ H].
  destruct H as [H _]; [discriminate|exact H].
Defined.

(** ** The index of the second sequence *)

Module ChainFacts.
Import Difflib.

Lemma char_at_Some s i x :
  char_at s i = Some x <-> 0 <= i /\ s !! Z.to_nat i = Some x.
Proof.
  unfold char_at. destruct (0 <=? i) eqn:E.
  - apply Z.leb_le in E. split; [intros H; split; assumption|intros [_ H]; exact H].
  - apply Z.leb_gt in E. split; [discriminate|intros [H _]; lia].
Qed.

Lemma char_at_elem s i x : char_at s i = Some x -> x ∈ s.
Proof.
  intros H. apply char_at_Some in H as [_ H].
  apply list_elem_of_lookup. eauto.
Qed.

Lemma char_at_lt s i x : char_at s i = Some x -> 0 <= i < len s.
Proof.
  intros H. apply char_at_Some in H as [H0 H].
  apply lookup_lt_Some in H. unfold len. lia.
Qed.

Lemma same_char_true a b i j :
  same_char a b i j = true <->
  exists x, char_at a i = Some x /\ char_at b j = Some x.
Proof.
  unfold same_char. destruct (char_at a i) as [x|], (char_at b j) as [y|].
  - rewrite Z.eqb_eq. split.
    + intros ->. exists y. split; reflexivity.
    + intros (z & H1 & H2). congruence.
  - split; [discriminate|]. intros (z & _ & H). discriminate.
  - split; [discriminate|]. intros (z & H & _). discriminate.
  - split; [discriminate|]. intros (z & H & _). discriminate.
Qed.

Lemma enumerate_from_cons first c b :
  enumerate_from first (c :: b) = (Z.of_nat first, c) :: enumerate_from (S first) b.
Proof. reflexivity. Qed.

Lemma enumerate_from_elem b :
  forall first j c,
    (j, c) ∈ enumerate_from first b <->
    exists i : nat, j = Z.of_nat (first + i) /\ b !! i = Some c.
Proof.
  induction b as [|c0 b IH]; intros first j c.
  - split; [intros H; inversion H|]. intros (i & _ & H). discriminate.
  - rewrite enumerate_from_cons, elem_of_cons, IH. split.
    + intros [H|(i & -> & Hi)].
      * inversion H; subst. exists 0%nat. split; [f_equal; lia|reflexivity].
      * exists (S i). split; [f_equal; lia|exact Hi].
    + intros ([|i] & -> & Hi).
      * left. simpl in Hi. inversion Hi; subst. f_equal. f_equal. lia.
      * right. exists i. split; [f_equal; lia|exact Hi].
Qed.

Lemma enumerate_from_sorted b :
  forall first,
    StronglySorted (fun p q : Z * Z => fst p < fst q) (enumerate_from first b).
Proof.
  induction b as [|c b IH]; intros first; [constructor|].
  rewrite enumerate_from_cons. constructor; [apply IH|].
  rewrite Forall_forall. intros [j x] Hjx.
  apply enumerate_from_elem in Hjx as (i & -> & _). simpl. lia.
Qed.

Lemma enumerate_snoc b c :
  enumerate (b ++ [c]) = enumerate b ++ [(len b, c)].
Proof.
  unfold enumerate, len. change (zip ?x ?y) with (zip_with pair x y).
  rewrite length_app, seq_app, map_app. simpl.
  rewrite zip_with_app by (rewrite length_map, length_seq; reflexivity).
  reflexivity.
Qed.

Lemma positions_app x l1 l2 :
  positions x (l1 ++ l2) = positions x l1 ++ positions x l2.
Proof. unfold positions. rewrite filter_app, map_app. reflexivity. Qed.

Lemma positions_elem x l j : j ∈ positions x l <-> (j, x) ∈ l.
Proof.
  unfold positions. rewrite list_elem_of_fmap. split.
  - intros ([j' c] & -> & H). apply list_elem_of_filter in H as [Hc H].
    simpl in Hc. subst c. exact H.
  - intros H. exists (j, x). split; [reflexivity|].
    apply list_elem_of_filter. split; [reflexivity|exact H].
Qed.

Lemma positions_sorted x l :
  StronglySorted (fun p q : Z * Z => fst p < fst q) l ->
  StronglySorted Z.lt (positions x l).
Proof.
  unfold positions. induction 1 as [|p l Hs IH Hall]; [constructor|].
  rewrite filter_cons. destruct (decide (snd p = x)); [|exact IH].
  cbn [map]. constructor; [exact IH|].
  apply Forall_forall. intros j Hj.
  apply list_elem_of_fmap in Hj as (q & -> & Hq).
  apply list_elem_of_filter in Hq as [_ Hq].
  apply (proj1 (Forall_forall _ _) Hall q Hq).
Qed.

(** The dictionary built by the first loop of [__chain_b] holds, for an
    element, the indices at which it stands. *)
Lemma chain_fold_spec l :
  forall (m : gmap Z (list Z)) (done : list (Z * Z)),
    (forall x, m !! x = match positions x done with
                        | [] => None
                        | js => Some js
                        end) ->
    forall x,
      fold_left (fun (m : gmap Z (list Z)) '(i, elt) =>
                   <[elt := default [] (m !! elt) ++ [i]]> m) l m !! x
      = match positions x (done ++ l) with
        | [] => None
        | js => Some js
        end.
Proof.
  induction l as [|[i elt] l IH]; intros m done Hm x.
  - simpl. rewrite app_nil_r. apply Hm.
  - cbn [fold_left].
    replace (done ++ (i, elt) :: l) with ((done ++ [(i, elt)]) ++ l)
      by (rewrite <- app_assoc; reflexivity).
    apply IH. intros y. rewrite positions_app.
    unfold positions at 2. rewrite filter_cons, filter_nil. cbn [snd].
    destruct (decide (elt = y)) as [->|Hne].
    + rewrite lookup_insert_eq, Hm. cbn [map fst].
      destruct (positions y done); reflexivity.
    + rewrite lookup_insert_ne by exact Hne. rewrite Hm. cbn [map].
      rewrite app_nil_r. reflexivity.
Qed.

(** An entry of the index of [b] lists the positions of its element in
    [b], in increasing order. *)
Lemma chain_b_lookup b x js :
  chain_b b !! x = Some js ->
  js = positions x (enumerate b) /\ js <> [].
Proof.
  unfold chain_b.
  set (b2j := fold_left _ (enumerate b) ∅).
  assert (Hb2j : b2j !! x = match positions x (enumerate b) with
                            | [] => None
                            | js => Some js
                            end).
  { apply (chain_fold_spec (enumerate b) ∅ [] ). intros y. apply lookup_empty. }
  intros H.
  assert (H' : b2j !! x = Some js).
  { destruct (200 <=? len b); [|exact H].
    apply map_lookup_filter_Some in H as [H _]. exact H. }
  rewrite Hb2j in H'. destruct (positions x (enumerate b)); [discriminate|].
  inversion H'; subst. split; [reflexivity|discriminate].
Qed.

Lemma enumerate_elem b j x : (j, x) ∈ enumerate b <-> char_at b j = Some x.
Proof.
  change (enumerate b) with (enumerate_from 0 b).
  rewrite enumerate_from_elem, char_at_Some. split.
  - intros (i & -> & Hi). split; [lia|]. rewrite Nat.add_0_l, Nat2Z.id. exact Hi.
  - intros [H0 Hi]. exists (Z.to_nat j). split; [lia|exact Hi].
Qed.

Lemma chain_b_elem b x js j :
  chain_b b !! x = Some js -> (j ∈ js <-> char_at b j = Some x).
Proof.
  intros H. apply chain_b_lookup in H as [-> _].
  rewrite positions_elem. apply enumerate_elem.
Qed.

Lemma chain_b_sorted b x js :
  chain_b b !! x = Some js -> StronglySorted Z.lt js.
Proof.
  intros H. apply chain_b_lookup in H as [-> _].
  apply positions_sorted. apply (enumerate_from_sorted b 0).
Qed.

Lemma chain_b_stands b x js : chain_b b !! x = Some js -> x ∈ b.
Proof.
  intros H. pose proof (chain_b_lookup b x js H) as [_ Hne].
  destruct js as [|j js]; [contradiction|].
  assert (Hj : j ∈ j :: js) by left.
  apply (chain_b_elem b x _ j H) in Hj. eapply char_at_elem, Hj.
Qed.

End ChainFacts.

(** ** Strings without a common character *)

Module DisjointFacts.
Import Difflib.

Lemma same_char_disjoint a b i j : disjoint a b -> same_char a b i j = false.
Proof.
  intros Hd. destruct (same_char a b i j) eqn:E; [|reflexivity].
  apply ChainFacts.same_char_true in E as (x & Ha & Hb).
  exfalso. eapply Hd; eapply ChainFacts.char_at_elem; eassumption.
Qed.

Lemma scan_rows_disjoint a b rows :
  disjoint a b ->
  forall blo bhi j2len best, scan_rows a b rows blo bhi j2len best = best.
Proof.
  intros Hd. induction rows as [|i rows IH]; intros blo bhi j2len best;
    cbn [scan_rows]; [reflexivity|].
  assert (Hjs : match char_at a i with
                | Some elt => default [] (chain_b b !! elt)
                | None => []
                end = []).
  { destruct (char_at a i) as [elt|] eqn:Hc; [|reflexivity].
    destruct (chain_b b !! elt) as [js|] eqn:Hl; [|reflexivity].
    exfalso. apply ChainFacts.chain_b_stands in Hl.
    eapply Hd; [eapply ChainFacts.char_at_elem, Hc|exact Hl]. }
  rewrite Hjs. cbn [scan_row]. apply IH.
Qed.

Lemma find_longest_match_disjoint a b alo ahi blo bhi :
  disjoint a b -> find_longest_match a b alo ahi blo bhi = (alo, blo, 0).
Proof.
  intros Hd. unfold find_longest_match.
  rewrite scan_rows_disjoint by exact Hd. cbn [fst].
  rewrite Z.sub_diag. change (Z.to_nat 0) with 0%nat. cbn [extend_left fst].
  destruct (Z.to_nat _); cbn [extend_right]; [reflexivity|].
  rewrite same_char_disjoint by exact Hd. rewrite !andb_false_r. reflexivity.
Qed.

Lemma blocks_loop_done a b fuel acc : blocks_loop a b fuel [] acc = Some acc.
Proof. destruct fuel; reflexivity. Qed.

End DisjointFacts.

(** X4: two strings without a common character, not both empty, have the
    similarity 0: the matcher finds no block. *)
Theorem similar_disjoint (a b : str) :
  (forall c, c ∈ a -> c ∉ b) ->
  a <> [] \/ b <> [] ->
  (similar a b == 0)%Q.
Proof.
  intros Hd Hne. unfold similar, Difflib.ratio, Difflib.get_matching_blocks.
  cbn [Difflib.blocks_loop].
  rewrite (DisjointFacts.find_longest_match_disjoint a b) by exact Hd.
  cbn [Z.eqb]. rewrite DisjointFacts.blocks_loop_done.
  cbn. unfold Difflib.calculate_ratio.
  replace (len a + len b =? 0) with false; [reflexivity|].
  symmetry. apply Z.eqb_neq.
  pose proof (len_nonneg a). pose proof (len_nonneg b).
  destruct Hne as [Hne|Hne]; intros Hz; apply Hne, len_zero; lia.
Qed.

Lemma similar_disjoint_witness :
  (similar (of_string "foo") (of_string "bar") == 0)%Q.
Proof.
  apply (similar_disjoint (of_string "foo") (of_string "bar")).
  - intros c Hc Hb. vm_compute in Hc, Hb.
    repeat (apply elem_of_cons in Hc as [->|Hc];
            [repeat (apply elem_of_cons in Hb as [Hb|Hb]; [discriminate Hb|]);
             inversion Hb|]).
    inversion Hc.
  - left. discriminate.
Defined.

(** ** A string against itself *)

Module ReflFacts.
Import Difflib.

Lemma run_upto_nonneg a n : 0 <= run_upto a n.
Proof.
  induction n as [|n IH]; simpl; [lia|].
  destruct (a !! n) as [x|]; [|lia]. destruct (indexed_char a x); lia.
Qed.

Lemma run_at_nonneg a j : 0 <= run_at a j.
Proof. apply run_upto_nonneg. Qed.

Lemma run_at_before a j : j < 0 -> run_at a j = 0.
Proof.
  intros H. unfold run_at. replace (Z.to_nat (j + 1)) with 0%nat by lia. reflexivity.
Qed.

Lemma run_at_step a j x :
  char_at a j = Some x ->
  run_at a j = if indexed_char a x then run_at a (j - 1) + 1 else 0.
Proof.
  intros H. apply ChainFacts.char_at_Some in H as [H0 H].
  unfold run_at. replace (Z.to_nat (j + 1)) with (S (Z.to_nat j)) by lia.
  cbn [run_upto]. rewrite H.
  replace (Z.to_nat (j - 1 + 1)) with (Z.to_nat j) by lia. reflexivity.
Qed.

Lemma indexed_char_true a x js : chain_b a !! x = Some js -> indexed_char a x = true.
Proof. intros H. unfold indexed_char. apply bool_decide_eq_true. eauto. Qed.

Lemma indexed_char_false a x : chain_b a !! x = None -> indexed_char a x = false.
Proof.
  intros H. unfold indexed_char. apply bool_decide_eq_false.
  rewrite H. intros [y Hy]. discriminate.
Qed.

(** The scan of one row, from the indices [js] on. *)
Lemma scan_row_diag a i x j2len :
  let n := len a in
  row_inv a (i - 1) j2len ->
  char_at a i = Some x ->
  indexed_char a x = true ->
  forall js newj2len best,
    StronglySorted Z.lt js ->
    Forall (fun j => char_at a j = Some x) js ->
    (forall j k, newj2len !! j = Some k ->
                 (j < i -> k <= run_at a j) /\
                 (i < j -> k <= run_at a i) /\
                 (j = i -> k = run_at a i)) ->
    best_diag a i best ->
    (i ∈ js \/ (newj2len !! i = Some (run_at a i) /\ run_at a i <= msize best)) ->
    row_inv a i (fst (scan_row js i 0 n j2len newj2len best)) /\
    best_diag a (i + 1) (snd (scan_row js i 0 n j2len newj2len best)).
Proof.
  intros n [Hrow Hrow0] Hi Hx js.
  pose proof (run_at_step a i x Hi) as Di. rewrite Hx in Di.
  induction js as [|j js IH]; intros newm best Hsort Hall Hnew Hbest Hdone;
    cbn [scan_row fst snd].
  - destruct Hdone as [Hin|[Hlk Hle]]; [inversion Hin|].
    split.
    + split; [exact Hnew|]. intros Hnone. congruence.
    + destruct best as [[bi bj] bs]. destruct Hbest as (Hd & H0 & Hb).
      repeat split; try assumption. intros j Hj.
      destruct (Z.eq_dec j i) as [->|Hne]; [exact Hle|apply Hb; lia].
  - inversion Hsort as [|? ? Hsort' Hlt]; subst.
    inversion Hall as [|? ? Hj Hall']; subst.
    pose proof (ChainFacts.char_at_lt a j x Hj) as Hjn. fold n in Hjn.
    replace (j <? 0) with false by (symmetry; apply Z.ltb_ge; lia).
    replace (n <=? j) with false by (symmetry; apply Z.leb_gt; lia).
    pose proof (run_at_step a j x Hj) as Dj. rewrite Hx in Dj.
    pose proof (run_at_nonneg a (j - 1)) as Dj0.
    pose proof (run_at_nonneg a (i - 1)) as Di0.
    destruct best as [[bi bj] bs]. destruct Hbest as (Hd & H0 & Hb).
    cbn [msize snd] in *.
    set (k := default 0 (j2len !! (j - 1)) + 1).
    destruct (Z.lt_trichotomy j i) as [Hji|[Hji|Hji]].
    + (* left of the diagonal *)
      assert (Hk : k <= run_at a j).
      { unfold k. destruct (j2len !! (j - 1)) as [k'|] eqn:Hlk; simpl.
        - destruct (Hrow _ _ Hlk) as (H1 & _ & _). specialize (H1 ltac:(lia)). lia.
        - lia. }
      assert (Hno : (bs <? k) = false).
      { apply Z.ltb_ge. specialize (Hb j Hji). lia. }
      unfold msize. cbn [snd]. rewrite Hno.
      apply IH; try assumption.
      * intros j' k' Hlk'. destruct (Z.eq_dec j j') as [<-|Hne].
        -- rewrite lookup_insert_eq in Hlk'. inversion Hlk'; subst k'.
           repeat split; intros; try lia.
        -- rewrite lookup_insert_ne in Hlk' by exact Hne. apply Hnew, Hlk'.
      * repeat split; assumption.
      * destruct Hdone as [Hin|[Hlk Hle]].
        -- left. apply elem_of_cons in Hin as [->|Hin]; [lia|exact Hin].
        -- right. rewrite lookup_insert_ne by lia. split; assumption.
    + (* on the diagonal *)
      subst j.
      assert (Hk : k = run_at a i).
      { unfold k. destruct (j2len !! (i - 1)) as [k'|] eqn:Hlk; simpl.
        - destruct (Hrow _ _ Hlk) as (_ & _ & H3). rewrite (H3 eq_refl). lia.
        - rewrite (Hrow0 eq_refl) in Di. lia. }
      unfold msize. cbn [snd].
      destruct (bs <? k) eqn:Hup.
      * apply Z.ltb_lt in Hup. apply IH; try assumption.
        -- intros j' k' Hlk'. destruct (Z.eq_dec i j') as [<-|Hne].
           ++ rewrite lookup_insert_eq in Hlk'. inversion Hlk'; subst k'.
              repeat split; intros; lia.
           ++ rewrite lookup_insert_ne in Hlk' by exact Hne. apply Hnew, Hlk'.
        -- repeat split; [lia|]. intros j Hj'. specialize (Hb j Hj'). lia.
        -- right. rewrite lookup_insert_eq, Hk. split; [reflexivity|].
           unfold msize. cbn [snd]. lia.
      * apply Z.ltb_ge in Hup. apply IH; try assumption.
        -- intros j' k' Hlk'. destruct (Z.eq_dec i j') as [<-|Hne].
           ++ rewrite lookup_insert_eq in Hlk'. inversion Hlk'; subst k'.
              repeat split; intros; lia.
           ++ rewrite lookup_insert_ne in Hlk' by exact Hne. apply Hnew, Hlk'.
        -- repeat split; assumption.
        -- right. rewrite lookup_insert_eq, Hk. split; [reflexivity|].
           unfold msize. cbn [snd]. lia.
    + (* right of the diagonal *)
      assert (Hle : newm !! i = Some (run_at a i) /\ run_at a i <= bs).
      { destruct Hdone as [Hin|H]; [|exact H].
        exfalso. apply elem_of_cons in Hin as [->|Hin]; [lia|].
        apply (proj1 (Forall_forall _ _) Hlt) in Hin. lia. }
      destruct Hle as [Hlki Hle].
      assert (Hk : k <= run_at a i).
      { unfold k. destruct (j2len !! (j - 1)) as [k'|] eqn:Hlk; simpl.
        - destruct (Hrow _ _ Hlk) as (_ & H2 & H3).
          destruct (Z.eq_dec (j - 1) (i - 1)) as [E|E].
          + rewrite (H3 E). lia.
          + specialize (H2 ltac:(lia)). lia.
        - lia. }
      assert (Hno : (bs <? k) = false) by (apply Z.ltb_ge; lia).
      unfold msize. cbn [snd]. rewrite Hno.
      apply IH; try assumption.
      * intros j' k' Hlk'. destruct (Z.eq_dec j j') as [<-|Hne].
        -- rewrite lookup_insert_eq in Hlk'. inversion Hlk'; subst k'.
           repeat split; intros; lia.
        -- rewrite lookup_insert_ne in Hlk' by exact Hne. apply Hnew, Hlk'.
      * repeat split; assumption.
      * right. rewrite lookup_insert_ne by lia. split; assumption.
Qed.

Lemma py_range_cons lo hi : lo < hi -> py_range lo hi = lo :: py_range (lo + 1) hi.
Proof.
  intros H. unfold py_range.
  replace (Z.to_nat (hi - lo)) with (S (Z.to_nat (hi - (lo + 1)))) by lia.
  cbn [seq map]. f_equal; [lia|].
  rewrite <- seq_shift, map_map. apply map_ext. intros n. lia.
Qed.

Lemma py_range_nil lo hi : hi <= lo -> py_range lo hi = [].
Proof.
  intros H. unfold py_range. replace (Z.to_nat (hi - lo)) with 0%nat by lia.
  reflexivity.
Qed.

(** The scan of the rows from [i] on. *)
Lemma scan_rows_diag a cnt :
  forall i j2len best,
    0 <= i -> Z.of_nat cnt = len a - i ->
    row_inv a (i - 1) j2len -> best_diag a i best ->
    best_diag a (len a) (scan_rows a a (py_range i (len a)) 0 (len a) j2len best).
Proof.
  induction cnt as [|cnt IH]; intros i j2len best Hi Hcnt Hrow Hbest.
  - rewrite py_range_nil by lia. cbn [scan_rows].
    replace (len a) with i by lia. exact Hbest.
  - rewrite py_range_cons by lia. cbn [scan_rows].
    assert (Hin : exists x, char_at a i = Some x).
    { unfold char_at. replace (0 <=? i) with true by (symmetry; apply Z.leb_le; lia).
      apply lookup_lt_is_Some. unfold len in Hcnt. lia. }
    destruct Hin as [x Hx]. rewrite Hx.
    destruct (chain_b a !! x) as [js|] eqn:Hjs.
    + change (default [] (Some js)) with js.
      pose proof (scan_row_diag a i x j2len Hrow Hx (indexed_char_true a x js Hjs)
                    js ∅ best (ChainFacts.chain_b_sorted a x js Hjs)) as Hscan.
      destruct Hscan as [Hr Hb].
      * apply Forall_forall. intros j Hj.
        apply (ChainFacts.chain_b_elem a x js j Hjs), Hj.
      * intros j k Hlk. rewrite lookup_empty in Hlk. discriminate.
      * exact Hbest.
      * left. apply (ChainFacts.chain_b_elem a x js i Hjs), Hx.
      * destruct (scan_row js i 0 (len a) j2len ∅ best) as [newj2len best'].
        cbn [fst snd] in Hr, Hb.
        apply IH; try assumption; try lia.
        replace (i + 1 - 1) with i by lia. exact Hr.
    + change (default [] (@None (list Z))) with (@nil Z). cbn [scan_row].
      pose proof (run_at_step a i x Hx) as Di.
      rewrite (indexed_char_false a x Hjs) in Di.
      apply IH; try lia.
      * replace (i + 1 - 1) with i by lia. split.
        -- intros j k Hlk. rewrite lookup_empty in Hlk. discriminate.
        -- intros _. exact Di.
      * destruct best as [[bi bj] bs]. destruct Hbest as (Hd & H0 & Hb).
        repeat split; try assumption. intros j Hj.
        destruct (Z.eq_dec j i) as [->|Hne]; [lia|apply Hb; lia].
Qed.

Lemma same_char_refl a i : 0 <= i < len a -> same_char a a i i = true.
Proof.
  intros Hi. apply ChainFacts.same_char_true.
  assert (Hin : is_Some (a !! Z.to_nat i)).
  { apply lookup_lt_is_Some. unfold len in Hi. lia. }
  destruct Hin as [x Hx]. exists x.
  assert (char_at a i = Some x) by (apply ChainFacts.char_at_Some; split; [lia|exact Hx]).
  split; assumption.
Qed.

Lemma extend_left_diag a fuel :
  forall i k, Z.of_nat fuel = i -> 0 <= k -> i + k <= len a ->
              extend_left a a fuel 0 0 (i, i, k) = (0, 0, k + i).
Proof.
  induction fuel as [|fuel IH]; intros i k Hf Hk Hik; cbn [extend_left].
  - f_equal; [f_equal|]; lia.
  - replace (0 <? i) with true by (symmetry; apply Z.ltb_lt; lia).
    rewrite same_char_refl by lia. cbn [andb].
    rewrite IH by lia. f_equal. lia.
Qed.

Lemma extend_right_diag a fuel :
  forall k, 0 <= k -> Z.of_nat fuel = len a - k ->
            extend_right a a fuel (len a) (len a) (0, 0, k) = (0, 0, len a).
Proof.
  induction fuel as [|fuel IH]; intros k Hk Hf; cbn [extend_right].
  - f_equal. lia.
  - rewrite !Z.add_0_l.
    replace (k <? len a) with true by (symmetry; apply Z.ltb_lt; lia).
    rewrite same_char_refl by lia. cbn [andb].
    apply IH; lia.
Qed.

(** The longest match of a string with itself is the whole string. *)
Lemma find_longest_match_refl a :
  find_longest_match a a 0 (len a) 0 (len a) = (0, 0, len a).
Proof.
  unfold find_longest_match.
  pose proof (len_nonneg a) as Hn.
  pose proof (scan_rows_diag a (length a) 0 ∅ (0, 0, 0) ltac:(lia)
                ltac:(unfold len; lia)) as Hdiag.
  pose proof (DifflibFacts.scan_rows_box a a 0 (len a) 0 (len a)
                (py_range 0 (len a)) 0 ∅ (0, 0, 0)
                (DifflibFacts.py_range_sorted _ _) (DifflibFacts.py_range_bounds _ _)
                ltac:(lia) (DifflibFacts.row_ok_empty _ _ _)) as Hbox.
  destruct (scan_rows a a (py_range 0 (len a)) 0 (len a) ∅ (0, 0, 0))
    as [[bi bj] bs].
  destruct Hdiag as (Hd & _ & _).
  { split.
    - intros j k Hlk. rewrite lookup_empty in Hlk. discriminate.
    - intros _. apply run_at_before. lia. }
  { repeat split; try lia. intros j Hj. rewrite run_at_before by lia. lia. }
  destruct Hbox as (Hb1 & _ & Hb3 & Hb4 & _).
  { unfold in_box. lia. }
  subst bj. cbn [fst].
  rewrite Z.sub_0_r, (extend_left_diag a (Z.to_nat bi) bi bs) by lia.
  cbn [fst]. unfold msize. cbn [snd]. rewrite Z.add_0_l.
  apply extend_right_diag; lia.
Qed.

End ReflFacts.

(** A string is matched with itself as a whole. *)
Lemma similar_same (a : str) : (similar a a == 1)%Q.
Proof.
  unfold similar, Difflib.ratio, Difflib.get_matching_blocks.
  cbn [Difflib.blocks_loop]. rewrite ReflFacts.find_longest_match_refl.
  pose proof (len_nonneg a) as Hn.
  destruct (len a =? 0) eqn:Hz.
  - rewrite DisjointFacts.blocks_loop_done. apply Z.eqb_eq in Hz.
    cbn. unfold Difflib.calculate_ratio. rewrite Hz. reflexivity.
  - apply Z.eqb_neq in Hz.
    change (0 <? 0) with false. cbn [andb].
    rewrite Z.add_0_l, Z.ltb_irrefl. cbn [andb].
    rewrite DisjointFacts.blocks_loop_done.
    cbn [app Difflib.sort_matches fold_right Difflib.insert_match Difflib.collapse].
    change (0 + 0 =? 0) with true. cbn [andb Difflib.collapse].
    rewrite Z.add_0_l. rewrite (proj2 (Z.eqb_neq _ _) Hz).
    cbn [app mbind option_bind]. unfold Difflib.matches. cbn [fold_left].
    unfold Difflib.msize. cbn [snd default]. unfold Difflib.calculate_ratio.
    replace (len a + len a =? 0) with false by (symmetry; apply Z.eqb_neq; lia).
    unfold Qeq, id. cbn [Qnum Qden]. rewrite Z2Pos.id by lia. lia.
Qed.

(** X5: every string has the similarity 1 with itself. *)
Theorem similar_refl (a : str) : (similar a a == 1)%Q.
Proof. exact (similar_same a). Qed.

(* ===================================================================== *)
(** * Further properties of [merge_subtitles] *)
(* ===================================================================== *)

Lemma sorted_distinct_texts (l : list entry) :
  StronglySorted ordered_distinct l -> NoDup (map snd l).
Proof.
  induction 1 as [|e l Hs IH Hall]; cbn [map]; [constructor|].
  constructor; [|exact IH].
  intros Hin. apply list_elem_of_fmap in Hin as (e' & Heq & He').
  apply (proj1 (Forall_forall _ _) Hall) in He' as [_ Hsim].
  apply Hsim. rewrite <- Heq.
  apply Qlt_le_trans with 1%Q; [reflexivity|].
  rewrite (similar_same (snd e)). apply Qle_refl.
Qed.

(** X6: no two entries of the output of [merge_subtitles] have the same
    text. *)
Theorem merge_subtitles_distinct_texts (video_subs audio_subs : list entry) :
  NoDup (map snd (merge_subtitles video_subs audio_subs)).
Proof.
  apply sorted_distinct_texts. unfold merge_subtitles.
  apply dedup_walk_sorted, sort_by_time_sorted.
Qed.

Lemma dedup_walk_kept l x :
  x ∈ dedup_walk l ->
  2 <= len (snd x) /\ exists y, y ∈ l /\ x = (fst y, clean (snd y)).
Proof.
  induction l as [|e l IH] using rev_ind; intros Hx.
  - inversion Hx.
  - rewrite dedup_walk_snoc in Hx. apply elem_of_app in Hx as [Hx|Hx].
    + destruct (IH Hx) as (Hlen & y & Hy & Hxy). split; [exact Hlen|].
      exists y. split; [apply elem_of_app; left; exact Hy|exact Hxy].
    + destruct (kept_after (dedup_walk l) (clean (snd e))) eqn:Hk; [|inversion Hx].
      apply list_elem_of_singleton in Hx as ->. cbn [snd]. split.
      * unfold kept_after in Hk. apply andb_prop in Hk as [Hk _].
        apply Z.leb_le, Hk.
      * exists e. split; [apply elem_of_app; right; apply list_elem_of_singleton|];
          reflexivity.
Qed.

Lemma dedup_walk_length l : (length (dedup_walk l) <= length l)%nat.
Proof.
  induction l as [|e l IH] using rev_ind; [simpl; lia|].
  rewrite dedup_walk_snoc, !length_app.
  destruct (kept_after _ _); simpl; lia.
Qed.

Lemma insert_by_time_length x l : length (insert_by_time x l) = S (length l).
Proof.
  induction l as [|y l IH]; simpl; [reflexivity|].
  destruct (Qle_bool (fst x) (fst y)); simpl; [reflexivity|]. rewrite IH. reflexivity.
Qed.

Lemma sort_by_time_length l : length (sort_by_time l) = length l.
Proof.
  induction l as [|x l IH]; simpl; [reflexivity|].
  rewrite insert_by_time_length, IH. reflexivity.
Qed.

(** X7: every text of the output of [merge_subtitles] has two characters
    or more and no white space at its ends. *)
Theorem merge_subtitles_clean_texts (video_subs audio_subs : list entry) :
  Forall (fun e : entry => 2 <= len (snd e) /\ strip (snd e) = snd e)
         (merge_subtitles video_subs audio_subs).
Proof.
  apply Forall_forall. intros x Hx. unfold merge_subtitles in Hx.
  apply dedup_walk_kept in Hx as (Hlen & y & _ & ->). cbn [snd] in *.
  split; [exact Hlen|]. unfold clean at 2. unfold strip at 1 2.
  apply PyStrFacts.strip_chars_idempotent.
Qed.

Lemma audio_dict_text audio_subs t a_text :
  audio_dict_of audio_subs !! t = Some a_text -> a_text ∈ map snd audio_subs.
Proof.
  rewrite audio_dict_of_last. intros H.
  apply last_Some_elem_of in H.
  apply list_elem_of_fmap in H as (e & -> & He).
  unfold at_second in He. apply list_elem_of_filter in He as [_ He].
  apply list_elem_of_fmap. exists e. split; [reflexivity|exact He].
Qed.

Lemma emit_from used seen l time text (P : entry -> Prop) :
  Forall P l -> P (time, text) ->
  Forall P (merged (emit used seen l time text)) /\
  (length (merged (emit used seen l time text)) <= S (length l))%nat.
Proof.
  intros Hl Hp. rewrite emit_merged. destruct (decide (text ∈ seen)).
  - rewrite app_nil_r. split; [exact Hl|lia].
  - split; [apply Forall_app; split; [exact Hl|repeat constructor; exact Hp]|].
    rewrite length_app. simpl. lia.
Qed.

Lemma video_fold_from audio_subs all_video video_subs :
  forall st,
    (forall v, v ∈ video_subs -> v ∈ all_video) ->
    Forall (from_inputs all_video audio_subs) (merged st) ->
    Forall (from_inputs all_video audio_subs)
           (merged (fold_left (video_step (audio_dict_of audio_subs)) video_subs st)) /\
    (length (merged (fold_left (video_step (audio_dict_of audio_subs)) video_subs st))
     <= length (merged st) + length video_subs)%nat.
Proof.
  induction video_subs as [|v rest IH]; intros st Hsub Hst; cbn [fold_left].
  - split; [exact Hst|lia].
  - assert (Hv : v ∈ all_video) by (apply Hsub; left).
    assert (Hstep : Forall (from_inputs all_video audio_subs)
                           (merged (video_step (audio_dict_of audio_subs) st v)) /\
                    (length (merged (video_step (audio_dict_of audio_subs) st v))
                     <= S (length (merged st)))%nat).
    { destruct v as [v_time v_text]. unfold video_step.
      assert (Ht : v_time ∈ map fst all_video).
      { apply list_elem_of_fmap. exists (v_time, v_text). split; [reflexivity|exact Hv]. }
      assert (Hx : v_text ∈ map snd all_video).
      { apply list_elem_of_fmap. exists (v_time, v_text). split; [reflexivity|exact Hv]. }
      destruct (matched _) as [[best_match matched_time]|] eqn:Hm.
      - apply emit_from; [exact Hst|]. split; cbn [fst snd]; [left; exact Ht|].
        unfold longer. destruct (len v_text <? len best_match); [|left; exact Hx].
        right. apply find_best_spec in Hm as (_ & Hlk & _).
        eapply audio_dict_text, Hlk.
      - apply emit_from; [exact Hst|]. split; cbn [fst snd]; left; assumption. }
    destruct Hstep as [Hs1 Hs2].
    destruct (IH (video_step (audio_dict_of audio_subs) st v)) as [H1 H2].
    + intros v' Hv'. apply Hsub. right. exact Hv'.
    + exact Hs1.
    + split; [exact H1|]. cbn [length]. lia.
Qed.

Lemma audio_fold_length l :
  forall st, (length (merged (fold_left audio_step l st))
              <= length (merged st) + length l)%nat.
Proof.
  induction l as [|a l IH]; intros st; cbn [fold_left length]; [lia|].
  specialize (IH (audio_step st a)).
  destruct (audio_step_spec st a) as [(_ & _ & _ & Heq)|[_ Heq]];
    rewrite Heq in IH |- *; cbn [merged] in *;
    rewrite ?length_app in IH; simpl in IH; lia.
Qed.

(** X8: [merge_subtitles] invents nothing: an entry of its output has the
    timestamp of an input entry and the cleaned text of an input entry,
    and the output has at most as many entries as the two inputs
    together. *)
Theorem merge_subtitles_from_inputs (video_subs audio_subs : list entry) :
  Forall (fun e : entry =>
            exists text,
              snd e = clean text /\
              (fst e ∈ map fst video_subs \/ fst e ∈ map fst audio_subs) /\
              (text ∈ map snd video_subs \/ text ∈ map snd audio_subs))
         (merge_subtitles video_subs audio_subs) /\
  (length (merge_subtitles video_subs audio_subs)
   <= length video_subs + length audio_subs)%nat.
Proof.
  destruct (video_fold_from audio_subs video_subs video_subs (MergeState ∅ ∅ []))
    as [Hv1 Hv2]; [auto|constructor|].
  fold (step1 video_subs audio_subs) in Hv1, Hv2. cbn [merged length] in Hv2.
  destruct (audio_fold_spec audio_subs (step1 video_subs audio_subs))
    as (added & Hm & Hall & _).
  fold (step2 video_subs audio_subs) in Hm.
  pose proof (audio_fold_length audio_subs (step1 video_subs audio_subs)) as Hlen.
  fold (step2 video_subs audio_subs) in Hlen.
  split.
  - apply Forall_forall. intros x Hx. unfold merge_subtitles in Hx.
    apply dedup_walk_kept in Hx as (_ & y & Hy & ->).
    apply (proj1 (sort_by_time_elem y _)) in Hy. rewrite Hm in Hy.
    exists (snd y). cbn [fst snd]. split; [reflexivity|].
    apply elem_of_app in Hy as [Hy|Hy].
    + apply (proj1 (Forall_forall _ _) Hv1) in Hy. exact Hy.
    + apply (proj1 (Forall_forall _ _) Hall) in Hy as [Hy _].
      split; right; apply list_elem_of_fmap; exists y; split; trivial.
  - unfold merge_subtitles.
    pose proof (dedup_walk_length (sort_by_time (merged (step2 video_subs audio_subs)))).
    rewrite sort_by_time_length in H. lia.
Qed.

Lemma similar_empty_low (a_text : str) :
  (3 # 10 < similar [] a_text)%Q -> a_text = [].
Proof.
  intros H. destruct a_text as [|c s]; [reflexivity|]. exfalso.
  destruct (similar_with_empty (c :: s)) as [_ Hz].
  destruct Hz as [_ Hz]; [discriminate|].
  rewrite Hz in H. revert H. apply Qle_not_lt. discriminate.
Qed.

Lemma find_best_empty_text audio_dict used ts :
  forall acc,
    (forall a_text t, fst acc = Some (a_text, t) -> a_text = []) ->
    forall a_text t,
      fst (fold_left (best_step audio_dict used []) ts acc) = Some (a_text, t) ->
      a_text = [].
Proof.
  induction ts as [|t0 ts IH]; intros acc Hacc; cbn [fold_left]; [exact Hacc|].
  apply IH. destruct acc as [best score]. unfold best_step.
  destruct (audio_dict !! t0) as [a0|]; [|exact Hacc].
  destruct (decide (t0 ∈ used)); [exact Hacc|].
  destruct (Qltb score (similar [] a0) && Qltb (3 # 10) (similar [] a0)) eqn:Hc;
    [|exact Hacc].
  apply andb_prop in Hc as [_ Hc]. apply Qltb_lt in Hc.
  intros a_text t H. cbn [fst] in H. inversion H; subst.
  apply similar_empty_low, Hc.
Qed.

(** X9: step 1 never matches an empty text.  A video entry with an empty
    text consumes no audio entry, whatever the audio stream: only an
    empty audio text scores above 0.3 against it ([similar] of two empty
    texts is 1), and an empty best match counts as no match
    ([if best_match]).  And neither the audio text nor the video text of
    a match is empty. *)
Theorem empty_text_never_matched (audio_dict : gmap Z str) (st : merge_state)
    (v_time : Q) :
  used_audio (video_step audio_dict st (v_time, [])) = used_audio st /\
  forall v_text a_text t,
    matched (fst (find_best audio_dict (used_audio st) (py_int v_time) v_text))
    = Some (a_text, t) ->
    a_text <> [] /\ v_text <> [].
Proof.
  assert (Hempty : matched (fst (find_best audio_dict (used_audio st)
                                           (py_int v_time) [])) = None).
  { destruct (matched _) as [[a_text t]|] eqn:Hm; [|reflexivity].
    apply matched_Some in Hm as [Hm Hne]. exfalso. apply Hne.
    unfold find_best in Hm.
    eapply find_best_empty_text; [|exact Hm].
    intros a0 t0 H. discriminate H. }
  split.
  - rewrite video_step_used. cbn [fst snd]. rewrite Hempty. reflexivity.
  - intros v_text a_text t Hm. split.
    + apply matched_Some in Hm as [_ Hne]. exact Hne.
    + intros ->. rewrite Hempty in Hm. discriminate.
Qed.

Lemma empty_text_never_matched_witness :
  let audio_dict := audio_dict_of [(5%Q, []); (6%Q, of_string "hello")] in
  (3 # 10 < similar [] [])%Q /\
  used_audio (video_step audio_dict (MergeState ∅ ∅ []) (5%Q, [])) = ∅ /\
  (matched (fst (find_best audio_dict ∅ 5 (of_string "hello")))
   = Some (of_string "hello", 6) /\
   of_string "hello" <> []).
Proof.
  intros audio_dict.
  destruct (empty_text_never_matched audio_dict (MergeState ∅ ∅ []) 5%Q)
    as [Hused Hmatch].
  split; [reflexivity|]. split; [exact Hused|].
  assert (Hm : matched (fst (find_best audio_dict ∅ 5 (of_string "hello")))
               = Some (of_string "hello", 6)) by (vm_compute; reflexivity).
  split; [exact Hm|].
  apply (Hmatch (of_string "hello") (of_string "hello") 6 Hm).
Defined.

Lemma StronglySorted_weaken {X : Type} (R1 R2 : X -> X -> Prop) (l : list X) :
  (forall x y, R1 x y -> R2 x y) -> StronglySorted R1 l -> StronglySorted R2 l.
Proof.
  intros Himp. induction 1 as [|x l Hs IH Hall]; constructor; [exact IH|].
  eapply Forall_impl; [exact Hall|]. intros y. apply Himp.
Qed.

Lemma audio_fold_far l :
  forall st, exists added,
    merged (fold_left audio_step l st) = merged st ++ added /\
    (forall m e, m ∈ merged st -> e ∈ added -> far_apart m e) /\
    StronglySorted far_apart added.
Proof.
  induction l as [|a l IH] using rev_ind; intros st.
  - exists []. simpl. rewrite app_nil_r. split; [reflexivity|]. split.
    + intros m e _ He. inversion He.
    + constructor.
  - destruct (IH st) as (added & Hm & Hst & Hfar).
    rewrite fold_left_app. cbn [fold_left].
    destruct (audio_step_spec (fold_left audio_step l st) a)
      as [(_ & _ & Hover & ->)|[_ ->]].
    + exists (added ++ [a]). cbn [merged]. rewrite Hm, <- app_assoc.
      split; [reflexivity|].
      rewrite Hm, Forall_app in Hover. destruct Hover as [Hover1 Hover2].
      split.
      * intros m e Hin He. apply elem_of_app in He as [He|He].
        -- apply Hst; assumption.
        -- apply list_elem_of_singleton in He as ->.
           apply (proj1 (Forall_forall _ _) Hover1), Hin.
      * apply StronglySorted_app_2; [|exact Hfar|repeat constructor].
        intros x1 x2 Hx1 Hx2. apply list_elem_of_singleton in Hx2 as ->.
        apply (proj1 (Forall_forall _ _) Hover2), Hx1.
    + exists added. repeat split; assumption.
Qed.

(** X10: the audio entries that step 2 adds are 2 seconds or more away
    from every entry of step 1 and from one another, for the difference
    of floats that the code computes: [abs(m_time - a_time)] is 2 or
    more. *)
Theorem audio_leftovers_apart (video_subs audio_subs : list entry) :
  exists added,
    merged (step2 video_subs audio_subs)
    = merged (step1 video_subs audio_subs) ++ added /\
    (forall m e, m ∈ merged (step1 video_subs audio_subs) -> e ∈ added ->
                 (2 <= Qabs (Float.sub (fst m) (fst e)))%Q) /\
    StronglySorted
      (fun e1 e2 : entry => (2 <= Qabs (Float.sub (fst e1) (fst e2)))%Q) added.
Proof.
  destruct (audio_fold_far audio_subs (step1 video_subs audio_subs))
    as (added & Hm & Hst & Hfar).
  exists added. split; [exact Hm|]. split.
  - intros m e Hin He. apply Qnot_lt_le. apply (Hst m e Hin He).
  - eapply StronglySorted_weaken; [|exact Hfar].
    intros e1 e2 H. apply Qnot_lt_le, H.
Qed.

(* ===================================================================== *)
(** * The transcription, written and parsed back *)
(* ===================================================================== *)

Module RoundTrip.

Lemma uint_codes_digits d : Forall (fun c => 48 <= c <= 57) (uint_codes d).
Proof. induction d; simpl; constructor; (lia || assumption). Qed.

(** The characters of [str(n)] are digits or the minus sign. *)
Lemma str_of_int_chars n : Forall (fun c => c = 45 \/ 48 <= c <= 57) (str_of_int n).
Proof.
  unfold str_of_int. destruct (Z.to_int n) as [d|d].
  - eapply Forall_impl; [apply uint_codes_digits|]. intros c H. right. exact H.
  - constructor; [left; reflexivity|].
    eapply Forall_impl; [apply uint_codes_digits|]. intros c H. right. exact H.
Qed.

Lemma split_on_nosep sep p : Forall (fun c => c <> sep) p -> split_on sep p = [p].
Proof.
  intros H. rewrite <- (app_nil_r p) at 1. rewrite split_on_app by exact H.
  simpl. rewrite app_nil_r. reflexivity.
Qed.

(** Lines without a line break, joined and split, are the same lines. *)
Lemma split_join (lines : list str) :
  lines <> [] ->
  Forall (Forall (fun c => c <> 10)) lines ->
  split_on 10 (join [10] lines) = lines.
Proof.
  induction lines as [|p lines IH]; intros Hne Hall; [contradiction|].
  inversion Hall as [|? ? Hp Hrest]; subst.
  destruct lines as [|q lines].
  - simpl. apply split_on_nosep, Hp.
  - change (join [10] (p :: q :: lines)) with (p ++ 10 :: join [10] (q :: lines)).
    rewrite split_on_app by exact Hp.
    cbn [split_on]. rewrite Z.eqb_refl. cbn [head tail default].
    rewrite app_nil_r, IH; [reflexivity|discriminate|exact Hrest].
Qed.

(** The first occurrence of a string whose first character does not stand
    before it. *)
Lemma find_after x sub p s :
  Forall (fun c => c <> x) p ->
  find (x :: sub) (p ++ (x :: sub) ++ s) = Some (length p).
Proof.
  induction 1 as [|c p Hc _ IH].
  - cbn [app length find].
    assert (H : startswith (x :: sub) ((x :: sub) ++ s) = true).
    { apply PyStrFacts.startswith_spec. exists s. reflexivity. }
    cbn [app] in H. rewrite H. reflexivity.
  - cbn [app length find startswith].
    replace (x =? c) with false by (symmetry; apply Z.eqb_neq; congruence).
    cbn [andb]. cbn [app] in IH. rewrite IH. reflexivity.
Qed.

Lemma strip_space text : strip (32 :: text) = strip text.
Proof. reflexivity. Qed.

Lemma format_line_no_break n text :
  Forall (fun c => c <> 10) text -> Forall (fun c => c <> 10) (format_line n text).
Proof.
  intros Ht. unfold format_line. repeat (apply Forall_app; split).
  - repeat constructor; discriminate.
  - eapply Forall_impl; [apply str_of_int_chars|]. intros c [->|H]; [discriminate|lia].
  - repeat constructor; discriminate.
  - exact Ht.
Qed.

(** A line [[Ns] text] is parsed back to the number that [float] reads
    from [N], and to the text. *)
Lemma parse_format_line py_float n text :
  strip text = text ->
  parse_audio_line py_float (format_line n text)
  = match py_float (str_of_int n) with
    | Some t => Some (t, text)
    | None => None
    end.
Proof.
  intros Hstrip. unfold parse_audio_line, format_line.
  set (d := str_of_int n).
  pose proof (str_of_int_chars n) as Hd. fold d in Hd.
  change (of_string "[") with [91]. change (of_string "s] ") with [115; 93; 32].
  change (of_string "s]") with [115; 93]. change (of_string "]") with [93].
  cbn [app startswith Z.eqb Pos.eqb andb PyStr.contains orb].
  assert (Hf1 : find [115; 93] (91 :: d ++ 115 :: 93 :: 32 :: text)
                = Some (S (length d))).
  { pose proof (find_after 115 [93] (91 :: d) (32 :: text)) as H.
    cbn [app length] in H. apply H.
    constructor; [discriminate|].
    eapply Forall_impl; [exact Hd|]. intros c [->|Hc]; [discriminate|lia]. }
  assert (Hf2 : find [93] (91 :: d ++ 115 :: 93 :: 32 :: text)
                = Some (S (S (length d)))).
  { pose proof (find_after 93 [] (91 :: d ++ [115]) (32 :: text)) as H.
    cbn [app length] in H. rewrite <- !app_assoc in H. cbn [app] in H.
    rewrite length_app in H. cbn [length] in H.
    replace (length d + 1)%nat with (S (length d)) in H by lia.
    apply H. constructor; [discriminate|]. apply Forall_app. split.
    - eapply Forall_impl; [exact Hd|]. intros c [->|Hc]; [discriminate|lia].
    - repeat constructor; discriminate. }
  assert (Hc : PyStr.contains [93] (d ++ 115 :: 93 :: 32 :: text) = true).
  { apply PyStrFacts.contains_spec. exists (d ++ [115]), (32 :: text).
    rewrite <- !app_assoc. reflexivity. }
  rewrite Hc, Hf1, Hf2. cbn [orb].
  replace (S (length d) - 1)%nat with (length d) by lia.
  cbn [drop]. rewrite drop_0, take_app_length.
  replace (S (S (length d)) + 1)%nat with (S (length d + 2)) by lia.
  cbn [drop]. rewrite <- drop_drop, drop_app_length. cbn [drop].
  change (drop 0 (32 :: text)) with (32 :: text).
  rewrite strip_space, Hstrip. reflexivity.
Qed.

End RoundTrip.

(** X11: the text that [transcribe_audio] writes is parsed back by
    [process_smart_subtitle] to the segments it was written from: one
    entry for each segment with a text, with the start of the segment
    truncated to the second and its text stripped -- as long as no text
    holds a line break and [float] reads the seconds written. *)
Theorem transcription_round_trip (py_float : str -> option Q)
    (segments : list segment) :
  Forall (fun sg : segment => Forall (fun c => c <> 10) (strip (snd sg))) segments ->
  Forall (fun sg : segment =>
            py_float (str_of_int (py_int (fst sg)))
            = Some (inject_Z (py_int (fst sg)))) segments ->
  parse_audio py_float (transcribe_audio (Ok segments))
  = omap (fun sg : segment =>
            if len (strip (snd sg)) =? 0 then None
            else Some (inject_Z (py_int (fst sg)), strip (snd sg)))
         segments.
Proof.
  intros Hbreak Hfloat. unfold parse_audio, transcribe_audio.
  set (fmt := fun sg : segment =>
                let start_time := py_int (fst sg) in
                let text := strip (snd sg) in
                if len text =? 0 then None
                else Some (format_line start_time text)).
  set (back := fun sg : segment =>
                 if len (strip (snd sg)) =? 0 then None
                 else Some (inject_Z (py_int (fst sg)), strip (snd sg))).
  assert (Hlines : Forall (Forall (fun c => c <> 10)) (omap fmt segments)).
  { clear Hfloat. induction Hbreak as [|sg l Hsg _ IH]; [constructor|].
    change (omap fmt (sg :: l))
      with (match fmt sg with Some y => y :: omap fmt l | None => omap fmt l end).
    unfold fmt at 1. cbv zeta.
    destruct (len (strip (snd sg)) =? 0); [exact IH|].
    constructor; [apply RoundTrip.format_line_no_break, Hsg|exact IH]. }
  assert (Hback : omap (parse_audio_line py_float) (omap fmt segments)
                  = omap back segments).
  { clear Hlines Hbreak. induction Hfloat as [|sg l Hsg _ IH]; [reflexivity|].
    change (omap fmt (sg :: l))
      with (match fmt sg with Some y => y :: omap fmt l | None => omap fmt l end).
    change (omap back (sg :: l))
      with (match back sg with Some y => y :: omap back l | None => omap back l end).
    unfold fmt at 1, back at 1. cbv zeta.
    destruct (len (strip (snd sg)) =? 0); [exact IH|].
    change (omap ?g (?y :: ?l'))
      with (match g y with Some z => z :: omap g l' | None => omap g l' end).
    rewrite RoundTrip.parse_format_line
      by (unfold strip; apply PyStrFacts.strip_chars_idempotent).
    rewrite Hsg, IH. reflexivity. }
  destruct (omap fmt segments) as [|line lines] eqn:Hfmt.
  - rewrite <- Hback. reflexivity.
  - rewrite RoundTrip.split_join; [exact Hback|discriminate|exact Hlines].
Qed.

Lemma transcription_round_trip_witness :
  let py_float := fun s : str =>
    if decide (s = of_string "2") then Some 2%Q
    else if decide (s = of_string "7") then Some 7%Q else None in
  parse_audio py_float
    (transcribe_audio (Ok [((5 # 2)%Q, of_string " hi there "); (7%Q, of_string "  ");
                           ((71 # 10)%Q, of_string "bye")]))
  = [(2%Q, of_string "hi there"); (7%Q, of_string "bye")].
Proof.
  intros py_float.
  rewrite transcription_round_trip.
  - vm_compute. reflexivity.
  - repeat constructor; discriminate.
  - repeat constructor.
Defined.

(* ===================================================================== *)
(** * [_similar_text] and [process_video] *)
(* ===================================================================== *)

Module SimilarTextFacts.

Lemma same_chars_sym a b : same_chars a b = same_chars b a.
Proof.
  revert b. induction a as [|x a IH]; intros [|y b]; cbn [same_chars];
    try reflexivity.
  rewrite IH, (Z.eqb_sym x y). reflexivity.
Qed.

Lemma same_chars_refl a : same_chars a a = len a.
Proof.
  induction a as [|x a IH]; [reflexivity|].
  cbn [same_chars]. rewrite Z.eqb_refl, IH. unfold len. cbn [length]. lia.
Qed.

Lemma similar_text_total a b :
  a <> [] -> exists r, _similar_text a b = Ok r.
Proof.
  intros Ha. unfold _similar_text.
  destruct (5 <? _); [eexists; reflexivity|].
  destruct (Z.max (len a) (len b) =? 0) eqn:E; [|eexists; reflexivity].
  apply Z.eqb_eq in E. exfalso. apply Ha, len_zero.
  pose proof (len_nonneg a). pose proof (len_nonneg b). lia.
Qed.

(** The loop over the sentences seen: it finds a similar one, or all of
    them are not similar. *)
Lemma any_similar_spec sentence seen :
  sentence <> [] ->
  any_similar sentence seen = Ok true \/
  (any_similar sentence seen = Ok false /\
   Forall (fun s => _similar_text sentence s = Ok false) seen).
Proof.
  intros Hne. induction seen as [|s seen IH]; cbn [any_similar].
  - right. split; [reflexivity|constructor].
  - destruct (similar_text_total sentence s Hne) as [[|] Hr]; rewrite Hr.
    + left. reflexivity.
    + destruct IH as [IH|[IH Hall]]; [left; exact IH|].
      right. split; [exact IH|]. constructor; assumption.
Qed.

(** One sentence: it is passed over, or kept after the ones kept so far,
    from each of which it is apart. *)
Lemma sentence_step_spec timestamp st kept sentence :
  kept_inv st kept ->
  exists st' kept',
    sentence_step timestamp st sentence = Ok st' /\
    kept_inv st' (kept ++ kept') /\
    (kept' = [] \/
     kept' = [(timestamp, sentence)] /\ 2 <= len sentence /\
     Forall (fun e => kept_apart e (timestamp, sentence)) kept).
Proof.
  destruct st as [seen result]. intros [Hseen Hres]. cbn [fst snd] in *.
  unfold sentence_step.
  assert (Hsame : exists st' kept',
             @Ok (gset str * list str) (seen, result) = Ok st' /\
             kept_inv st' (kept ++ kept') /\
             (kept' = [] \/
              kept' = [(timestamp, sentence)] /\ 2 <= len sentence /\
              Forall (fun e => kept_apart e (timestamp, sentence)) kept)).
  { exists (seen, result), []. rewrite app_nil_r.
    split; [reflexivity|]. split; [split; assumption|left; reflexivity]. }
  destruct (len sentence <? 2) eqn:Hlen; [exact Hsame|].
  apply Z.ltb_ge in Hlen.
  destruct (decide (sentence ∈ seen)) as [|Hnew]; [exact Hsame|].
  assert (Hne : sentence <> []).
  { intros ->. unfold len in Hlen. cbn in Hlen. lia. }
  destruct (any_similar_spec sentence (elements seen) Hne) as [Hr|[Hr Hall]];
    rewrite Hr; [exact Hsame|].
  exists ({[sentence]} ∪ seen,
          result ++ [format_line (py_int timestamp) sentence]),
         [(timestamp, sentence)].
  split; [reflexivity|]. split; [split|].
  - cbn [fst]. intros s. rewrite elem_of_union, elem_of_singleton, map_app,
      elem_of_app, Hseen. cbn [map snd]. rewrite list_elem_of_singleton. tauto.
  - cbn [snd]. rewrite map_app, Hres. reflexivity.
  - right. split; [reflexivity|]. split; [exact Hlen|].
    apply Forall_forall. intros e He. split; cbn [snd].
    + intros Heq. apply Hnew, Hseen. rewrite <- Heq.
      apply list_elem_of_fmap. exists e. split; [reflexivity|exact He].
    + apply (proj1 (Forall_forall _ _) Hall).
      apply elem_of_elements, Hseen.
      apply list_elem_of_fmap. exists e. split; [reflexivity|exact He].
Qed.

(** The sentences of one subtitle. *)
Lemma sentences_fold timestamp sentences :
  forall st kept,
  kept_inv st kept -> StronglySorted kept_apart kept ->
  exists st' kept',
    fold_outcome (sentence_step timestamp) sentences st = Ok st' /\
    kept_inv st' (kept ++ kept') /\
    StronglySorted kept_apart (kept ++ kept') /\
    Forall (fun e => fst e = timestamp /\ snd e ∈ sentences /\ 2 <= len (snd e))
           kept'.
Proof.
  induction sentences as [|s sentences IH]; intros st kept Hinv Hsorted;
    cbn [fold_outcome].
  - exists st, []. rewrite app_nil_r.
    split; [reflexivity|]. split; [exact Hinv|]. split; [exact Hsorted|constructor].
  - destruct (sentence_step_spec timestamp st kept s Hinv)
      as (st1 & kept1 & Hstep & Hinv1 & Hkept1).
    rewrite Hstep.
    assert (Hsorted1 : StronglySorted kept_apart (kept ++ kept1)).
    { destruct Hkept1 as [->|(-> & _ & Hall)]; [rewrite app_nil_r; exact Hsorted|].
      apply StronglySorted_app_2; [|exact Hsorted|repeat constructor].
      intros x1 x2 H1 H2. apply list_elem_of_singleton in H2. subst x2.
      apply (proj1 (Forall_forall _ _) Hall x1 H1). }
    destruct (IH st1 (kept ++ kept1) Hinv1 Hsorted1)
      as (st2 & kept2 & Hfold & Hinv2 & Hsorted2 & Hkept2).
    exists st2, (kept1 ++ kept2). rewrite app_assoc.
    split; [exact Hfold|]. split; [exact Hinv2|]. split; [exact Hsorted2|].
    apply Forall_app. split.
    + destruct Hkept1 as [->|(-> & Hlen & _)]; [constructor|].
      constructor; [|constructor]. cbn [fst snd].
      split; [reflexivity|]. split; [left|exact Hlen].
    + eapply Forall_impl; [exact Hkept2|].
      intros e (Ht & Hin & Hlen). split; [exact Ht|].
      split; [right; exact Hin|exact Hlen].
Qed.

(** All the subtitles. *)
Lemma subtitles_fold subtitles :
  forall st kept,
  kept_inv st kept -> StronglySorted kept_apart kept ->
  exists st' kept',
    fold_outcome subtitle_step subtitles st = Ok st' /\
    kept_inv st' (kept ++ kept') /\
    StronglySorted kept_apart (kept ++ kept') /\
    Forall (fun e => 2 <= len (snd e) /\
                     exists text, (fst e, text) ∈ subtitles /\
                                  snd e ∈ sentences_of (clean text))
           kept'.
Proof.
  induction subtitles as [|[timestamp text] subtitles IH];
    intros st kept Hinv Hsorted; cbn [fold_outcome].
  - exists st, []. rewrite app_nil_r.
    split; [reflexivity|]. split; [exact Hinv|]. split; [exact Hsorted|constructor].
  - assert (H1 : exists st1 kept1,
               subtitle_step st (timestamp, text) = Ok st1 /\
               kept_inv st1 (kept ++ kept1) /\
               StronglySorted kept_apart (kept ++ kept1) /\
               Forall (fun e => fst e = timestamp /\
                                snd e ∈ sentences_of (clean text) /\
                                2 <= len (snd e)) kept1).
    { unfold subtitle_step. destruct (len (clean text) =? 0).
      - exists st, []. rewrite app_nil_r.
        split; [reflexivity|]. split; [exact Hinv|].
        split; [exact Hsorted|constructor].
      - apply sentences_fold; assumption. }
    destruct H1 as (st1 & kept1 & Hstep & Hinv1 & Hsorted1 & Hkept1).
    rewrite Hstep.
    destruct (IH st1 (kept ++ kept1) Hinv1 Hsorted1)
      as (st2 & kept2 & Hfold & Hinv2 & Hsorted2 & Hkept2).
    exists st2, (kept1 ++ kept2). rewrite app_assoc.
    split; [exact Hfold|]. split; [exact Hinv2|]. split; [exact Hsorted2|].
    apply Forall_app. split.
    + eapply Forall_impl; [exact Hkept1|].
      intros [t s] (Ht & Hin & Hlen). cbn [fst snd] in *. subst t.
      split; [exact Hlen|]. exists text. split; [left|exact Hin].
    + eapply Forall_impl; [exact Hkept2|].
      intros e (Hlen & text' & Hin & Hs). split; [exact Hlen|].
      exists text'. split; [right; exact Hin|exact Hs].
Qed.

End SimilarTextFacts.

(** X12: [_similar_text] does not depend on the order of its arguments
    (unlike [similar]). *)
Theorem similar_text_sym (text1 text2 : str) :
  _similar_text text1 text2 = _similar_text text2 text1.
Proof.
  unfold _similar_text.
  rewrite (SimilarTextFacts.same_chars_sym text1 text2),
    (Z.max_comm (len text1) (len text2)).
  replace (Z.abs (len text1 - len text2)) with (Z.abs (len text2 - len text1))
    by lia.
  reflexivity.
Qed.

(** X13: [_similar_text] raises (a division by zero) exactly when both
    texts are empty, and a text that is not empty is similar to itself. *)
Theorem similar_text_edge (text1 text2 : str) :
  ((exists e, _similar_text text1 text2 = Raise e) <-> text1 = [] /\ text2 = []) /\
  (text1 <> [] -> _similar_text text1 text1 = Ok true).
Proof.
  split; [split|].
  - intros [e He]. unfold _similar_text in He.
    destruct (5 <? _); [discriminate|].
    destruct (Z.max (len text1) (len text2) =? 0) eqn:E; [|discriminate].
    apply Z.eqb_eq in E.
    pose proof (len_nonneg text1). pose proof (len_nonneg text2).
    split; apply len_zero; lia.
  - intros [-> ->]. exists (ZeroDivisionError division_by_zero). reflexivity.
  - intros Hne. unfold _similar_text.
    rewrite Z.sub_diag. cbn [Z.abs Z.ltb Z.compare].
    rewrite Z.max_id, SimilarTextFacts.same_chars_refl.
    assert (Hpos : 0 < len text1).
    { pose proof (len_nonneg text1).
      destruct (Z.eq_dec (len text1) 0) as [E|E]; [|lia].
      apply len_zero in E. contradiction. }
    replace (len text1 =? 0) with false by (symmetry; apply Z.eqb_neq; lia).
    f_equal. apply Qltb_lt. unfold Qlt. cbn [Qnum Qden].
    rewrite Z2Pos.id by exact Hpos. lia.
Qed.

Lemma similar_text_edge_witness :
  _similar_text (of_string "ab") (of_string "ab") = Ok true.
Proof. apply (similar_text_edge (of_string "ab") []). discriminate. Defined.

(** Once the subtitles are extracted, [process_video] returns the lines
    of the sentences that its loops keep. *)
Lemma process_video_kept (v : video) (interval_seconds : Q)
    (subtitles : list entry) :
  extract_subtitles v interval_seconds = Ok subtitles ->
  subtitles <> [] ->
  exists kept,
    process_video (Some v) interval_seconds = lines_of kept /\
    StronglySorted kept_apart kept /\
    Forall (fun e => 2 <= len (snd e) /\
                     exists text, (fst e, text) ∈ subtitles /\
                                  snd e ∈ sentences_of (clean text))
           kept.
Proof.
  intros Hsubs Hne. unfold process_video. rewrite Hsubs.
  destruct (SimilarTextFacts.subtitles_fold subtitles (∅, []) [])
    as (st & kept & Hfold & [_ Hres] & Hsorted & Hkept).
  - split; [|reflexivity]. cbn [fst map]. intros s. split; intros H.
    + exfalso. revert H. apply not_elem_of_empty.
    + exfalso. revert H. apply not_elem_of_nil.
  - constructor.
  - cbn [app] in *. exists kept.
    destruct subtitles as [|e subtitles]; [contradiction|].
    rewrite Hfold. destruct st as [seen result]. cbn [snd] in Hres. subst result.
    split; [|split; assumption].
    destruct kept; reflexivity.
Qed.

(** X14: once the subtitles are extracted, [process_video] never ends with
    an error: it returns the lines of the sentences it kept (or the
    message that there is none).  The kept sentences have at least 2
    characters, each is a sentence of the cleaned text of a subtitle and
    carries its timestamp, and any two of them are different and not
    similar for [_similar_text]. *)
Theorem process_video_output (v : video) (interval_seconds : Q)
    (subtitles : list entry) :
  extract_subtitles v interval_seconds = Ok subtitles ->
  subtitles <> [] ->
  exists kept,
    process_video (Some v) interval_seconds = lines_of kept /\
    StronglySorted kept_apart kept /\
    Forall (fun e => 2 <= len (snd e) /\
                     exists text, (fst e, text) ∈ subtitles /\
                                  snd e ∈ sentences_of (clean text))
           kept.
Proof. exact (process_video_kept v interval_seconds subtitles). Qed.

Lemma process_video_output_witness :
  let v := Video 1 [captioned "hello world"; captioned "hello world";
                    captioned "hello w0rld!"; captioned "goodbye"] in
  exists kept,
    process_video (Some v) 1 = lines_of kept /\
    StronglySorted kept_apart kept /\
    Forall (fun e => 2 <= len (snd e) /\
                     exists text,
                       (fst e, text) ∈ [(0 # 1, of_string "hello world");
                                         (1 # 1, of_string "hello world");
                                         (2 # 1, of_string "hello w0rld!");
                                         (3 # 1, of_string "goodbye")]%Q /\
                       snd e ∈ sentences_of (clean text))
           kept.
Proof.
  intros v. apply (process_video_output v 1).
  - vm_compute. reflexivity.
  - discriminate.
Defined.

(* ===================================================================== *)
(** * The retried calls *)
(* ===================================================================== *)

Module RetryFacts.

(** The retry loop from attempt [k] on, with [left] more attempts
    allowed: the attempts made, the result, the failures before it and
    the waits. *)
Lemma retry_from_spec {A : Type} (wait : nat -> Q) (call : nat -> outcome A)
    (left : nat) :
  forall k,
  let r := retry_from wait call left k in
  (k <= attempts r <= k + left)%nat /\
  result r = call (attempts r) /\
  (forall m, (k <= m < attempts r)%nat -> exists e, call m = Raise e) /\
  sleeps r = map wait (seq k (attempts r - k)) /\
  ((exists e, result r = Raise e) -> attempts r = (k + left)%nat).
Proof.
  induction left as [|left IH]; intros k; cbn [retry_from].
  - destruct (call k) as [x|e] eqn:Hk; cbn [result attempts sleeps];
      rewrite Nat.sub_diag; (split; [lia|]); (split; [congruence|]);
      (split; [intros m Hm; lia|]); (split; [reflexivity|]).
    + intros [e He]. discriminate.
    + intros _. lia.
  - destruct (call k) as [x|e] eqn:Hk; cbn [result attempts sleeps].
    + rewrite Nat.sub_diag. split; [lia|]. split; [congruence|].
      split; [intros m Hm; lia|]. split; [reflexivity|].
      intros [e He]. discriminate.
    + destruct (IH (S k)) as (Hatt & Hres & Hfail & Hsl & Hlast).
      set (r := retry_from wait call left (S k)) in *.
      split; [lia|]. split; [exact Hres|]. split; [|split].
      * intros m Hm. destruct (decide (m = k)) as [->|Hne].
        -- exists e. exact Hk.
        -- apply Hfail. lia.
      * rewrite Hsl.
        replace (attempts r - k)%nat with (S (attempts r - S k)) by lia.
        reflexivity.
      * intros He. rewrite (Hlast He). lia.
Qed.

End RetryFacts.

(** X15: [analyze_frame] makes 1 to 3 requests for a frame and stops at
    the first that succeeds; its result is that of the last request made,
    all requests before it failed, a failure is only passed on after the
    third request, and it waits 2 seconds between two requests: with 3
    attempts the exponential backoff (multiplier 0.5) stays below the
    minimum of 2. *)
Theorem analyze_frame_attempts (f : frame) :
  let r := VideoSummary.analyze_frame_retried f in
  (1 <= attempts r <= 3)%nat /\
  VideoSummary.analyze_frame f = VideoSummary.read_reply (f (attempts r)) /\
  (forall m, (1 <= m < attempts r)%nat ->
             exists e, VideoSummary.read_reply (f m) = Raise e) /\
  sleeps r = repeat 2%Q (attempts r - 1) /\
  ((exists e, VideoSummary.analyze_frame f = Raise e) -> attempts r = 3%nat).
Proof.
  intros r. unfold VideoSummary.analyze_frame. fold r.
  unfold r, VideoSummary.analyze_frame_retried, retry.
  destruct (RetryFacts.retry_from_spec (wait_exponential (1 # 2) 2 5)
              (fun n => VideoSummary.read_reply (f n)) (3 - 1) 1)
    as (Hatt & Hres & Hfail & Hsl & Hlast).
  change (3 - 1)%nat with 2%nat in *.
  generalize dependent (retry_from (wait_exponential (1 # 2) 2 5)
                          (fun n => VideoSummary.read_reply (f n)) 2 1).
  intros r' Hatt Hres Hfail Hsl Hlast.
  split; [lia|]. split; [exact Hres|]. split; [exact Hfail|].
  split; [|exact Hlast].
  rewrite Hsl.
  assert (Hcases : attempts r' = 1%nat \/ attempts r' = 2%nat \/ attempts r' = 3%nat)
    by lia.
  destruct Hcases as [->|[->| ->]]; vm_compute; reflexivity.
Qed.

(** X16: [extract_text_from_frame] waits 4 seconds between two attempts,
    8 seconds in all at most: with 3 attempts the exponential backoff
    (1 and 2 seconds) stays below the minimum of 4. *)
Theorem recognizer_waits (f : frame) :
  let r := extract_text_from_frame_retried f in
  sleeps r = repeat 4%Q (attempts r - 1) /\ (length (sleeps r) <= 2)%nat.
Proof.
  intros r. unfold r, extract_text_from_frame_retried, retry.
  destruct (RetryFacts.retry_from_spec (wait_exponential 1 4 10)
              (fun n => recognize_once (f n)) (3 - 1) 1)
    as (Hatt & _ & _ & Hsl & _).
  change (3 - 1)%nat with 2%nat in *.
  generalize dependent (retry_from (wait_exponential 1 4 10)
                          (fun n => recognize_once (f n)) 2 1).
  intros r' Hatt Hsl. rewrite Hsl.
  assert (Hcases : attempts r' = 1%nat \/ attempts r' = 2%nat \/ attempts r' = 3%nat)
    by lia.
  destruct Hcases as [->|[->| ->]]; vm_compute; split; (reflexivity || lia).
Qed.

(* ===================================================================== *)
(** * The entries of [extract_subtitles] *)
(* ===================================================================== *)

Module SamplingFacts.

Lemma extract_text_filtered f text :
  extract_text_from_frame f = Ok text -> exists content, text = text_filter content.
Proof.
  unfold extract_text_from_frame, extract_text_from_frame_retried, retry.
  destruct (RetryFacts.retry_from_spec (wait_exponential 1 4 10)
              (fun n => recognize_once (f n)) (3 - 1) 1) as (_ & Hres & _).
  rewrite Hres. unfold recognize_once.
  destruct (f _) as [status content|e]; [|discriminate].
  destruct (status =? 200); [|discriminate].
  intros [= <-]. exists content. reflexivity.
Qed.

Lemma extract_text_caption f text :
  extract_text_from_frame f = Ok text -> text <> [] -> caption_ok text.
Proof.
  intros H Hne. destruct (extract_text_filtered f text H) as [content ->].
  destruct (text_filter_shape content) as [E|(Hstrip & Hph & Hlen)];
    [contradiction|].
  split; [exact Hne|]. split; [exact Hlen|]. split; [exact Hstrip|].
  apply existsb_false_Forall. exact Hph.
Qed.

Lemma div_lt fps c1 c2 :
  0 < fps -> c1 < c2 ->
  (inject_Z c1 / inject_Z fps < inject_Z c2 / inject_Z fps)%Q.
Proof.
  intros Hf Hc. unfold Qdiv. apply Qmult_lt_compat_r.
  - apply Qinv_lt_0_compat. unfold Qlt, inject_Z. cbn [Qnum Qden]. lia.
  - unfold Qlt, inject_Z. cbn [Qnum Qden]. lia.
Qed.

Lemma div_nonneg fps c :
  0 < fps -> 0 <= c -> (0 <= inject_Z c / inject_Z fps)%Q.
Proof.
  intros Hf Hc. unfold Qdiv. apply Qmult_le_0_compat.
  - unfold Qle, inject_Z. cbn [Qnum Qden]. lia.
  - apply Qlt_le_weak, Qinv_lt_0_compat. unfold Qlt, inject_Z. cbn [Qnum Qden]. lia.
Qed.

Lemma sampled_inv_next fps frame_count subtitles :
  sampled_inv fps frame_count subtitles ->
  sampled_inv fps (frame_count + 1) subtitles.
Proof.
  intros (H0 & Hs & Hall). split; [lia|]. split; [exact Hs|].
  eapply Forall_impl; [exact Hall|].
  intros e [(c & Hc & He) Hok]. split; [|exact Hok].
  exists c. split; [lia|exact He].
Qed.

(** One turn of the loop keeps the entries in the order of their frame
    counts, and adds one entry at most. *)
Lemma sample_step_inv fps interval frame_count subtitles f frame_count' subtitles' :
  0 < fps ->
  sample_step fps interval (frame_count, subtitles) f
  = Ok (frame_count', subtitles') ->
  sampled_inv fps frame_count subtitles ->
  sampled_inv fps frame_count' subtitles' /\
  (length subtitles' <= S (length subtitles))%nat.
Proof.
  intros Hf Hstep Hinv. unfold sample_step in Hstep.
  destruct (interval =? 0); [discriminate|].
  destruct (frame_count mod interval =? 0).
  - destruct (fps =? 0); [discriminate|].
    destruct (extract_text_from_frame f) as [text|e] eqn:Htext.
    + injection Hstep as <- <-.
      destruct (len text =? 0) eqn:Hlen.
      * split; [apply sampled_inv_next, Hinv|lia].
      * apply Z.eqb_neq in Hlen.
        assert (Hne : text <> []) by (intros ->; apply Hlen; reflexivity).
        destruct Hinv as (H0 & Hs & Hall).
        split; [|rewrite length_app; cbn [length]; lia].
        split; [lia|]. split.
        -- apply StronglySorted_app_2; [|exact Hs|repeat constructor].
           intros e1 e2 H1 H2. apply list_elem_of_singleton in H2. subst e2.
           destruct (proj1 (Forall_forall _ _) Hall e1 H1) as [(c & Hc & ->) _].
           cbn [fst]. apply div_lt; lia.
        -- apply Forall_app. split.
           ++ eapply Forall_impl; [exact Hall|].
              intros e [(c & Hc & He) Hok]. split; [|exact Hok].
              exists c. split; [lia|exact He].
           ++ constructor; [|constructor]. cbn [fst snd]. split.
              ** exists frame_count. split; [lia|reflexivity].
              ** apply (extract_text_caption f text Htext Hne).
    + injection Hstep as <- <-. split; [exact Hinv|lia].
  - injection Hstep as <- <-. split; [apply sampled_inv_next, Hinv|lia].
Qed.

Lemma sample_loop_inv fps interval l :
  0 < fps ->
  forall frame_count subtitles frame_count' subtitles',
  sample_loop fps interval l (frame_count, subtitles)
  = Ok (frame_count', subtitles') ->
  sampled_inv fps frame_count subtitles ->
  sampled_inv fps frame_count' subtitles' /\
  (length subtitles' <= length subtitles + length l)%nat.
Proof.
  intros Hf. induction l as [|f l IH];
    intros frame_count subtitles frame_count' subtitles' Hloop Hinv;
    cbn [sample_loop] in Hloop.
  - injection Hloop as <- <-. split; [exact Hinv|lia].
  - destruct (sample_step fps interval (frame_count, subtitles) f)
      as [[fc1 subs1]|e] eqn:Hstep; [|discriminate].
    destruct (sample_step_inv _ _ _ _ _ _ _ Hf Hstep Hinv) as [Hinv1 Hlen1].
    destruct (IH _ _ _ _ Hloop Hinv1) as [Hinv2 Hlen2].
    split; [exact Hinv2|]. cbn [length]. lia.
Qed.

End SamplingFacts.

(** X17: when the frame rate is 1 or more, the entries that
    [extract_subtitles] returns stand in the strict order of their
    timestamps (no two entries share a timestamp, also when a frame was
    retried after a failure), no timestamp is negative, every text is one
    that the recognizer lets through (not empty, 50 characters at most,
    stripped, without any of the ignored phrases), and there are no more
    entries than frames. *)
Theorem extract_subtitles_output (v : video) (interval_seconds : Q)
    (subtitles : list entry) :
  0 < py_int (cap_fps v) ->
  extract_subtitles v interval_seconds = Ok subtitles ->
  StronglySorted (fun e1 e2 : entry => (fst e1 < fst e2)%Q) subtitles /\
  Forall (fun e : entry => (0 <= fst e)%Q /\ caption_ok (snd e)) subtitles /\
  (length subtitles <= length (frames v))%nat.
Proof.
  intros Hf Hex. unfold extract_subtitles in Hex.
  destruct (sample_loop _ _ (frames v) (0, [])) as [[fc subs]|e] eqn:Hloop;
    [|discriminate].
  injection Hex as <-.
  destruct (SamplingFacts.sample_loop_inv _ _ _ Hf _ _ _ _ Hloop)
    as [(_ & Hs & Hall) Hlen].
  - split; [lia|]. split; constructor.
  - split; [exact Hs|]. split; [|exact Hlen].
    eapply Forall_impl; [exact Hall|].
    intros e [(c & Hc & ->) Hok]. split; [|exact Hok].
    apply SamplingFacts.div_nonneg; lia.
Qed.

Lemma extract_subtitles_output_witness :
  let v := Video (5 # 2) [captioned "ab"; captioned " "; captioned "ef"] in
  let subtitles := [(0 # 2, of_string "ab"); (2 # 2, of_string "ef")]%Q in
  StronglySorted (fun e1 e2 : entry => (fst e1 < fst e2)%Q) subtitles /\
  Forall (fun e : entry => (0 <= fst e)%Q /\ caption_ok (snd e)) subtitles /\
  (length subtitles <= length (frames v))%nat.
Proof.
  intros v subtitles. apply (extract_subtitles_output v (1 # 2)).
  - vm_compute. reflexivity.
  - vm_compute. reflexivity.
Defined.

(* ===================================================================== *)
(** * The rate limiter *)
(* ===================================================================== *)



(* ===================================================================== *)
(** * The frames that are extracted *)
(* ===================================================================== *)

Module FramesFacts.

Lemma extract_frames_fold interval l :
  forall frame_count extracted,
  fold_left (extract_frames_step interval) l (frame_count, extracted)
  = (frame_count + Z.of_nat (length l), extracted ++ every interval frame_count l).
Proof.
  induction l as [|f l IH]; intros frame_count extracted; cbn [fold_left every].
  - rewrite app_nil_r. cbn [length]. f_equal. lia.
  - cbn [extract_frames_step]. rewrite IH. cbn [length]. f_equal; [lia|].
    destruct (frame_count mod interval =? 0); [|reflexivity].
    rewrite <- app_assoc. reflexivity.
Qed.

(** The [k]-th of the frames taken from a count on is the frame that
    stands [k] intervals after the first multiple of the interval. *)
Lemma every_lookup interval l :
  1 <= interval ->
  forall frame_count k,
  every interval frame_count l !! k
  = l !! (Z.to_nat ((- frame_count) mod interval) + k * Z.to_nat interval)%nat.
Proof.
  intros Hi. induction l as [|f l IH]; intros frame_count k; cbn [every].
  - rewrite !lookup_nil. reflexivity.
  - destruct (frame_count mod interval =? 0) eqn:E.
    + apply Z.eqb_eq in E.
      assert (H0 : (- frame_count) mod interval = 0).
      { apply Z.mod_opp_l_z; [lia|exact E]. }
      rewrite H0. change (Z.to_nat 0) with 0%nat. rewrite Nat.add_0_l.
      destruct k as [|k]; [reflexivity|].
      rewrite lookup_cons, IH.
      assert (H1 : (- (frame_count + 1)) mod interval = interval - 1).
      { replace (- (frame_count + 1)) with (- frame_count + -1) by lia.
        rewrite Zplus_mod, H0, Z.add_0_l, Z.mod_mod by lia.
        destruct (Z.eq_dec interval 1) as [->|Hne]; [reflexivity|].
        rewrite <- (Z.mod_add _ 1) by lia.
        replace (-1 + 1 * interval) with (interval - 1) by lia.
        apply Z.mod_small. lia. }
      rewrite H1.
      replace (S k * Z.to_nat interval)%nat
        with (S (Z.to_nat (interval - 1) + k * Z.to_nat interval))%nat by lia.
      reflexivity.
    + apply Z.eqb_neq in E.
      rewrite IH.
      assert (H1 : (- frame_count) mod interval
                   = (- (frame_count + 1)) mod interval + 1).
      { pose proof (Z.mod_pos_bound frame_count interval ltac:(lia)) as Hb.
        rewrite (Z.mod_opp_l_nz frame_count interval) by lia.
        replace (- (frame_count + 1)) with (- frame_count + -1) by lia.
        rewrite <- (Z.mod_add (- frame_count + -1) 1 interval) by lia.
        replace (- frame_count + -1 + 1 * interval)
          with (interval - 1 - frame_count) by lia.
        rewrite <- (Zminus_mod_idemp_r (interval - 1) frame_count interval).
        rewrite (Z.mod_small (interval - 1 - frame_count mod interval)) by lia.
        lia. }
      rewrite H1.
      pose proof (Z.mod_pos_bound (- (frame_count + 1)) interval ltac:(lia)).
      replace (Z.to_nat ((- (frame_count + 1)) mod interval + 1)
               + k * Z.to_nat interval)%nat
        with (S (Z.to_nat ((- (frame_count + 1)) mod interval)
                 + k * Z.to_nat interval))%nat by lia.
      reflexivity.
Qed.

Lemma omap_length_le {X Y : Type} (g : X -> option Y) (l : list X) :
  (length (omap g l) <= length l)%nat.
Proof.
  induction l as [|x l IH]; [reflexivity|].
  change (omap g (x :: l))
    with (match g x with Some y => y :: omap g l | None => omap g l end).
  destruct (g x); cbn [length]; lia.
Qed.

End FramesFacts.

(** X19: [extract_frames] of [video_analysis.py] takes one frame per
    [max(1, int(fps))] frames, from the first on: the [k]-th frame it
    returns is frame number [k * max(1, int(fps))] of the video, whatever
    interval the caller asked for. *)
Theorem extract_frames_lookup (v : video) (k : nat) :
  extract_frames v !! k
  = frames v !! (k * Z.to_nat (Z.max 1 (py_int (cap_fps v))))%nat.
Proof.
  unfold extract_frames. cbv zeta.
  rewrite FramesFacts.extract_frames_fold. cbn [snd app].
  rewrite FramesFacts.every_lookup by lia.
  reflexivity.
Qed.

(** X20: [extract_frames] of [video_summary.py] returns 19 frames at most,
    and not 10 at most: a video of 19 frames gives 19 frames.  From 100
    frames on it returns 11 frames at most. *)
Theorem summary_frames_bound (v : VideoSummary.video) :
  (length (VideoSummary.extract_frames v) <= 19)%nat /\
  (100 <= VideoSummary.total_frames v ->
   (length (VideoSummary.extract_frames v) <= 11)%nat) /\
  (forall f, length (VideoSummary.extract_frames
                       (VideoSummary.Video 19 (fun _ => Some f))) = 19%nat).
Proof.
  assert (Hlen : (length (VideoSummary.extract_frames v)
                  <= Z.to_nat ((VideoSummary.total_frames v
                                + Z.max 1 (VideoSummary.total_frames v / 10) - 1)
                               / Z.max 1 (VideoSummary.total_frames v / 10)))%nat).
  { unfold VideoSummary.extract_frames. cbv zeta.
    eapply Nat.le_trans; [apply FramesFacts.omap_length_le|].
    unfold py_range_step. rewrite length_map, length_seq.
    rewrite Z.sub_0_r. reflexivity. }
  set (t := VideoSummary.total_frames v) in *.
  set (i := Z.max 1 (t / 10)) in *.
  assert (Hi : 1 <= i) by (unfold i; lia).
  assert (Ht : t < 10 * (t / 10) + 10).
  { pose proof (Z.div_mod t 10 ltac:(lia)).
    pose proof (Z.mod_pos_bound t 10 ltac:(lia)). lia. }
  split; [|split].
  - eapply Nat.le_trans; [exact Hlen|].
    assert ((t + i - 1) / i < 20); [|lia].
    apply Z.div_lt_upper_bound; lia.
  - intros Hbig. eapply Nat.le_trans; [exact Hlen|].
    assert (10 <= t / 10) by (apply Z.div_le_lower_bound; lia).
    assert ((t + i - 1) / i < 12); [|lia].
    apply Z.div_lt_upper_bound; lia.
  - intros f. vm_compute. reflexivity.
Qed.

(* ===================================================================== *)
(** * The modes of [process_video_with_mode] *)
(* ===================================================================== *)

Module ModeFacts.

Lemma mode_interval_cases mode :
  mode_interval mode = FAST \/ mode_interval mode = STANDARD \/
  mode_interval mode = PRECISE /\ mode = [31934; 20934].
Proof.
  unfold mode_interval.
  destruct (decide (mode = [24555; 36895])); [left; reflexivity|].
  destruct (decide (mode = [26631; 20934])); [right; left; reflexivity|].
  destruct (decide (mode = [31934; 20934])); [right; right; split; trivial|].
  right. left. reflexivity.
Qed.

Lemma mode_interval_half mode : (1 # 2 <= mode_interval mode)%Q.
Proof.
  destruct (mode_interval_cases mode) as [->|[->|[-> _]]];
    vm_compute; discriminate.
Qed.

Lemma py_int_ge_1 q : (1 <= q)%Q -> 1 <= py_int q.
Proof.
  unfold Qle, py_int. cbn [Qnum Qden]. intros H.
  apply Z.quot_le_lower_bound; lia.
Qed.

(** From 2 frames per second on, every mode gives an interval of 1 frame
    or more. *)
Lemma mode_interval_sample v mode :
  2 <= py_int (cap_fps v) -> 1 <= sample_interval v (mode_interval mode).
Proof.
  intros Hf. unfold sample_interval.
  set (fps := py_int (cap_fps v)) in *.
  apply py_int_ge_1, FloatFacts.mul_ge_1.
  pose proof (mode_interval_half mode) as Hd.
  destruct (mode_interval mode) as [dn dd].
  unfold Qle, Qmult, inject_Z in *. cbn [Qnum Qden] in *. nia.
Qed.

Lemma zero_interval_raises v interval_seconds :
  sample_interval v interval_seconds = 0 -> frames v <> [] ->
  extract_subtitles v interval_seconds = Raise (ZeroDivisionError modulo_by_zero).
Proof.
  intros Hi Hne. unfold extract_subtitles. rewrite Hi.
  destruct (frames v) as [|f l]; [contradiction|]. reflexivity.
Qed.

End ModeFacts.

(** X21: on a video with frames whose frame rate truncates to 0, in every
    mode, and on one whose frame rate truncates to 1, in the precise mode
    (0.7 seconds, [int(1 * 0.7)] being 0), the sampling interval is 0:
    [extract_subtitles] raises the division by zero of [%] at the first
    frame, and [process_video_with_mode] returns the error message. *)
Theorem mode_zero_interval (v : video) (mode : str) :
  frames v <> [] ->
  py_int (cap_fps v) = 0 \/
  (py_int (cap_fps v) = 1 /\ mode = [31934; 20934]) ->
  extract_subtitles v (mode_interval mode)
  = Raise (ZeroDivisionError modulo_by_zero) /\
  exists msg, process_video_with_mode (Some v) mode = video_error_prefix ++ msg.
Proof.
  intros Hne Hfps.
  assert (Hi : sample_interval v (mode_interval mode) = 0).
  { unfold sample_interval. destruct Hfps as [->|[-> ->]].
    - apply FloatFacts.mul_0_l. reflexivity.
    - vm_compute. reflexivity. }
  pose proof (ModeFacts.zero_interval_raises v _ Hi Hne) as Hraise.
  split; [exact Hraise|].
  exists modulo_by_zero.
  unfold process_video_with_mode, process_video. rewrite Hraise. reflexivity.
Qed.

Lemma mode_zero_interval_witness :
  let v := Video (3 # 2) [captioned "hello world"] in
  extract_subtitles v (mode_interval [31934; 20934])
  = Raise (ZeroDivisionError modulo_by_zero) /\
  exists msg,
    process_video_with_mode (Some v) [31934; 20934] = video_error_prefix ++ msg.
Proof.
  intros v. apply mode_zero_interval.
  - discriminate.
  - right. split; reflexivity.
Defined.

(** X22: on a video of 2 frames per second or more, no mode of
    [process_video_with_mode] ends with an error: the subtitles are
    extracted, and the result is the message that there is no subtitle,
    or the lines of the sentences kept, any two of which are different
    and not similar. *)
Theorem modes_without_error (v : video) (mode : str) :
  2 <= py_int (cap_fps v) ->
  exists subtitles,
    extract_subtitles v (mode_interval mode) = Ok subtitles /\
    ((subtitles = [] /\
      process_video_with_mode (Some v) mode = no_video_subtitle_message) \/
     exists kept,
       process_video_with_mode (Some v) mode = lines_of kept /\
       StronglySorted kept_apart kept).
Proof.
  intros Hf.
  pose proof (ModeFacts.mode_interval_sample v mode Hf) as Hi.
  assert (Hsubs : exists subtitles,
             extract_subtitles v (mode_interval mode) = Ok subtitles).
  { unfold extract_subtitles.
    destruct (sample_loop_total (py_int (cap_fps v))
                (sample_interval v (mode_interval mode)) (frames v)
                ltac:(lia) ltac:(lia) 0 []) as (fc & tail & ->).
    eexists. reflexivity. }
  destruct Hsubs as [subtitles Hsubs]. exists subtitles.
  split; [exact Hsubs|].
  destruct subtitles as [|e subtitles].
  - left. split; [reflexivity|].
    unfold process_video_with_mode, process_video. rewrite Hsubs. reflexivity.
  - right.
    destruct (process_video_kept v (mode_interval mode) (e :: subtitles) Hsubs)
      as (kept & Hout & Hsorted & _); [discriminate|].
    exists kept. split; [exact Hout|exact Hsorted].
Qed.

Lemma modes_without_error_witness :
  let v := Video 2 [captioned "hello world"; captioned "hello world"] in
  exists subtitles,
    extract_subtitles v (mode_interval [31934; 20934]) = Ok subtitles /\
    ((subtitles = [] /\
      process_video_with_mode (Some v) [31934; 20934]
      = no_video_subtitle_message) \/
     exists kept,
       process_video_with_mode (Some v) [31934; 20934] = lines_of kept /\
       StronglySorted kept_apart kept).
Proof.
  intros v. apply modes_without_error. vm_compute. discriminate.
Defined.

(* ===================================================================== *)
(** * [process_video_summary] *)
(* ===================================================================== *)

Module SummaryFacts.

Lemma transcribed_lines (segments : list segment) line lines :
  omap (fun sg : segment =>
          let start_time := py_int (fst sg) in
          let text := strip (snd sg) in
          if len text =? 0 then None
          else Some (format_line start_time text)) segments
  = line :: lines ->
  exists rest, line = 91 :: rest.
Proof.
  induction segments as [|sg segments IH]; [discriminate|].
  change (omap ?g (sg :: segments))
    with (match g sg with
          | Some y => y :: omap g segments
          | None => omap g segments
          end).
  cbv beta zeta. destruct (len (strip (snd sg)) =? 0); [exact IH|].
  intros [= <- _]. eexists. reflexivity.
Qed.

(** What [transcribe_audio] returns is never the text that stands for an
    audio track that could not be extracted. *)
Lemma transcribe_audio_available transcription :
  transcribe_audio transcription <> VideoSummary.audio_unavailable.
Proof.
  destruct transcription as [segments|e]; cbn [transcribe_audio].
  - cbv zeta. destruct (omap _ segments) as [|line lines] eqn:E.
    + discriminate.
    + destruct (transcribed_lines segments line lines E) as [rest ->].
      destruct lines; cbn [join app]; discriminate.
  - discriminate.
Qed.

End SummaryFacts.

(** X23: when the audio track is extracted, [process_video_summary] always
    asks for the final summary, with what [transcribe_audio] returned --
    also when no frame was described and nothing was transcribed.  The
    message that no information could be extracted is returned only when
    the extraction of the audio raised and no frame was described; when
    it raised and a frame was described, the summary is asked for with
    the fixed text in place of the audio content. *)
Theorem summary_requested (v : VideoSummary.video)
    (transcription : outcome (list segment))
    (service : str -> nat -> response) :
  let frame_descriptions :=
    VideoSummary.describe_frames (VideoSummary.extract_frames v) in
  let summary audio_content :=
    match VideoSummary.generate_final_summary service frame_descriptions
            audio_content with
    | Ok s => s
    | Raise e => VideoSummary.summary_error_prefix ++ exn_str e
    end in
  (forall u, VideoSummary.process_video_summary (Some v) (Ok u) transcription service
             = summary (transcribe_audio transcription)) /\
  (forall e, VideoSummary.process_video_summary (Some v) (Raise e) transcription
               service
             = match frame_descriptions with
               | [] => VideoSummary.no_information_message
               | _ => summary VideoSummary.audio_unavailable
               end).
Proof.
  intros frame_descriptions summary. split.
  - intros u. unfold VideoSummary.process_video_summary. cbv zeta.
    fold frame_descriptions. cbn [VideoSummary.audio_content_of].
    rewrite (bool_decide_eq_false_2 _
               (SummaryFacts.transcribe_audio_available transcription)).
    rewrite orb_true_r. reflexivity.
  - intros e. unfold VideoSummary.process_video_summary. cbv zeta.
    fold frame_descriptions. cbn [VideoSummary.audio_content_of].
    rewrite (bool_decide_eq_true_2 _ (eq_refl VideoSummary.audio_unavailable)).
    destruct frame_descriptions; reflexivity.
Qed.

(* ===================================================================== *)
(** * The sentences of [process_video] *)
(* ===================================================================== *)

Module SentenceFacts.

Lemma replace_char_app old new s t :
  replace_char old new (s ++ t) = replace_char old new s ++ replace_char old new t.
Proof. unfold replace_char. apply flat_map_app. Qed.

(** The three replacements put a line break after each mark. *)
Lemma replaced_marks text :
  replace_char 65281 [65281; 10]
    (replace_char 65311 [65311; 10] (replace_char 12290 [12290; 10] text))
  = flat_map (fun c => if terminator c then [c; 10] else [c]) text.
Proof.
  induction text as [|c text IH]; [reflexivity|].
  change (c :: text) with ([c] ++ text).
  rewrite flat_map_app, !replace_char_app, IH. f_equal.
  unfold terminator, replace_char. cbn [flat_map app].
  destruct (c =? 12290) eqn:E1.
  - apply Z.eqb_eq in E1. subst c. reflexivity.
  - cbn [flat_map app]. destruct (c =? 65311) eqn:E2.
    + apply Z.eqb_eq in E2. subst c. reflexivity.
    + cbn [flat_map app orb]. destruct (c =? 65281) eqn:E3.
      * apply Z.eqb_eq in E3. subst c. reflexivity.
      * reflexivity.
Qed.

Lemma ends_sentence_cons c w :
  terminator c = false -> ends_sentence w -> ends_sentence (c :: w).
Proof.
  intros Hc Hw [|x pre] c' post Heq Ht; cbn [app] in Heq.
  - injection Heq as -> _. congruence.
  - injection Heq as _ ->. apply (Hw pre c' post eq_refl Ht).
Qed.

Lemma ends_sentence_nil : ends_sentence [].
Proof. intros [|x pre] c post Heq; discriminate. Qed.

Lemma ends_sentence_one c : ends_sentence [c].
Proof.
  intros [|x pre] c' post Heq _; cbn [app] in Heq.
  - injection Heq as _ <-. reflexivity.
  - destruct pre; discriminate.
Qed.

Lemma ends_sentence_segment r s :
  segment_of r s -> ends_sentence s -> ends_sentence r.
Proof.
  intros (a & b & ->) Hs pre c post -> Ht.
  specialize (Hs (a ++ pre) c (post ++ b)).
  rewrite <- !app_assoc in Hs. cbn [app] in Hs.
  specialize (Hs eq_refl Ht). destruct post; [reflexivity|discriminate].
Qed.

(** The lines of a text with a line break after each mark. *)
Lemma lines_end_sentence text :
  Forall ends_sentence
    (split_on 10 (flat_map (fun c => if terminator c then [c; 10] else [c]) text)).
Proof.
  induction text as [|c text IH].
  - cbn [flat_map split_on]. constructor; [apply ends_sentence_nil|constructor].
  - cbn [flat_map]. set (rest := flat_map _ text) in *.
    destruct (terminator c) eqn:Ht.
    + assert (Hc : (c =? 10) = false).
      { unfold terminator in Ht. destruct (c =? 10) eqn:E; [|reflexivity].
        apply Z.eqb_eq in E. subst c. discriminate. }
      cbn [app split_on]. rewrite Hc, Z.eqb_refl.
      constructor; [apply ends_sentence_one|exact IH].
    + cbn [app split_on]. destruct (c =? 10).
      * constructor; [apply ends_sentence_nil|exact IH].
      * destruct (split_on 10 rest) as [|w ws].
        -- constructor; [apply ends_sentence_one|constructor].
        -- inversion IH as [|? ? Hw Hws]; subst.
           constructor; [apply ends_sentence_cons; assumption|exact Hws].
Qed.

End SentenceFacts.

(** X24: every sentence into which [process_video] breaks a text is not
    empty, is stripped, and holds a full stop, question mark or
    exclamation mark (。？！) at its end only. *)
Theorem sentences_shape (text s : str) :
  s ∈ sentences_of text ->
  s <> [] /\ strip s = s /\ ends_sentence s.
Proof.
  unfold sentences_of. cbv zeta. rewrite SentenceFacts.replaced_marks.
  intros Hs. apply list_elem_of_filter in Hs as [Hne Hs].
  apply list_elem_of_fmap in Hs as (p & -> & Hp).
  split; [exact Hne|]. split.
  - unfold strip. apply PyStrFacts.strip_chars_idempotent.
  - apply (SentenceFacts.ends_sentence_segment (strip p) p).
    + unfold strip. apply PyStrFacts.strip_chars_segment.
    + apply (proj1 (Forall_forall _ _) (SentenceFacts.lines_end_sentence text) p Hp).
Qed.

Lemma sentences_shape_witness :
  let s := [20320; 22909; 12290] in
  s <> [] /\ strip s = s /\ ends_sentence s.
Proof.
  intros s.
  apply (sentences_shape [32; 20320; 22909; 12290; 32; 20877; 35265; 65281; 32]).
  vm_compute. constructor.
Defined.
